(** * Verification of the two-stage flight planner of [lab/prototype.py]

    The development embeds the prototype's [plan_edges] (edge planner) and
    [plan_planes] (plane planner) as executable Rocq functions and proves
    the properties of the specification over them.

    Modelling conventions.
    - City, plane and edge indices are [nat]; crate counts are [Z] (the
      prototype stores them as 64-bit numpy integers; every value the code
      computes on a well-formed instance is bounded by a value of the input,
      so no wrap-around is involved).
    - A Python [set] is a [gset]; a numpy vector or a Python list is a
      [list] read with [!!] and written with [<[_:=_]>].
    - A Python exception is the outcome [Raise]; loops and the recursion of
      [add_constraint] are driven by a fuel computed from the data, and
      running out of it is the separate outcome [OutOfFuel], which the
      totality theorems exclude.
    - The iteration order of a Python [set] is not specified; the model
      takes it as a parameter ([iter_pairs], [iter_idx]), a function of the
      set's elements that is only assumed to enumerate them.
    - [np.random.randint] is a parameter [randint] threaded through an
      explicit generator state. *)

From stdpp Require Import gmap list sets.
From Stdlib Require Import ZArith Lia.

#[local] Set Warnings "-clear-no-such-hyp".

Local Open Scope Z_scope.

(** ** Outcomes of a run *)

Inductive exn : Set :=
| AssertionError
| KeyError
| ValueError
| IndexError
| TypeError.

Inductive result (A : Type) : Type :=
| Ok (a : A)
| Raise (e : exn)
| OutOfFuel.

Arguments Ok {A} a.
Arguments Raise {A} e.
Arguments OutOfFuel {A}.

Definition bind {A B : Type} (m : result A) (k : A → result B) : result B :=
  match m with
  | Ok a => k a
  | Raise e => Raise e
  | OutOfFuel => OutOfFuel
  end.

Notation "'let*' p := m 'in' k" := (bind m (λ p, k))
  (at level 10, p pattern, m at level 100, k at level 200, only parsing).

(** [for x in xs: body x] over a state [S]. *)
Fixpoint for_each {A S : Type} (body : A → S → result S) (xs : list A) (s : S)
  : result S :=
  match xs with
  | [] => Ok s
  | x :: xs' => let* s' := body x s in for_each body xs' s'
  end.

(** [assert b]. *)
Definition assert (b : bool) : result unit :=
  if b then Ok tt else Raise AssertionError.

(** [xs[k]] with Python's [IndexError]. *)
Definition get {A : Type} (xs : list A) (k : nat) : result A :=
  match xs !! k with
  | Some x => Ok x
  | None => Raise IndexError
  end.

(** [np.sum(v)]. *)
Definition zsum (v : list Z) : Z := foldr Z.add 0 v.

(** Outcome of a run as a predicate: [Ok] results satisfy [Q], nothing is
    raised, and fuel runs out only when [fuel_short] holds. *)
Definition outcome {A : Type} (m : result A) (Q : A → Prop) (fuel_short : Prop)
  : Prop :=
  match m with
  | Ok a => Q a
  | Raise _ => False
  | OutOfFuel => fuel_short
  end.

Lemma outcome_bind {A B : Type} (m : result A) (k : A → result B)
    (Q : A → Prop) (Q' : B → Prop) (P : Prop) :
  outcome m Q P → (∀ a, Q a → outcome (k a) Q' P) → outcome (bind m k) Q' P.
Proof. destruct m; simpl; intros; auto; done. Qed.

Lemma outcome_weaken {A : Type} (m : result A) (Q Q' : A → Prop) (P P' : Prop) :
  outcome m Q P → (∀ a, Q a → Q' a) → (P → P') → outcome m Q' P'.
Proof. destruct m; simpl; auto. Qed.

Lemma for_each_outcome {A S : Type} (body : A → S → result S) (P : Prop)
    (I : list A → S → Prop) (xs : list A) :
  ∀ (done : list A) (s : S),
    I done s →
    (∀ done x s, x ∈ xs → I done s →
       outcome (body x s) (I (done ++ [x])) P) →
    outcome (for_each body xs s) (I (done ++ xs)) P.
Proof.
  induction xs as [|x xs IH]; intros done s HI Hbody; simpl.
  - by rewrite app_nil_r.
  - eapply outcome_bind.
    + apply Hbody; [left | exact HI].
    + intros s' HI'. replace (done ++ x :: xs) with ((done ++ [x]) ++ xs)
        by (by rewrite <- app_assoc).
      apply IH; [exact HI'|]. intros d y t Hy. apply Hbody. by right.
Qed.

(** Total correctness: the run returns a result satisfying [Q]. *)
Definition returns {A : Type} (m : result A) (Q : A → Prop) : Prop :=
  outcome m Q False.

Lemma returns_inv {A : Type} (m : result A) (Q : A → Prop) :
  returns m Q → ∃ a, m = Ok a ∧ Q a.
Proof. destruct m; simpl; intros H; try done. by exists a. Qed.

Lemma returns_intro {A : Type} (m : result A) (Q : A → Prop) (a : A) :
  m = Ok a → Q a → returns m Q.
Proof. by intros -> H. Qed.

Lemma get_returns {A : Type} (xs : list A) (k : nat) (x : A) (P : Prop)
    (Q : A → Prop) :
  xs !! k = Some x → Q x → outcome (get xs k) Q P.
Proof. unfold get. by intros -> H. Qed.

(** ** The constraint store: [add_constraint] *)

Module Constraints.

Section Store.
(** Order in which Python enumerates [set(constraints)]. *)
Variable iter_pairs : gset (nat * nat) → list (nat * nat).

(** [add_constraint(ei, ej)] of [plan_edges]; [constraints] is the closure
    variable it mutates. *)
Fixpoint add_constraint (fuel : nat) (ei ej : nat)
    (constraints : gset (nat * nat)) : result (gset (nat * nat)) :=
  match fuel with
  | O => OutOfFuel
  | S fuel' =>
    let* _ := assert (bool_decide ((ej, ei) ∉ constraints)) in
    let* _ := assert (bool_decide (ei ≠ ej)) in
    if bool_decide ((ei, ej) ∈ constraints) then Ok constraints
    else
      let constraints := {[ (ei, ej) ]} ∪ constraints in
      for_each (λ '(ek, el) constraints,
                  let* constraints :=
                    if bool_decide (ek = ej)
                    then add_constraint fuel' ei el constraints
                    else Ok constraints in
                  if bool_decide (el = ei)
                  then add_constraint fuel' ek ej constraints
                  else Ok constraints)
               (iter_pairs constraints) constraints
  end.
End Store.

(** The store's relation as an order on edge indices. *)
Definition transitive_closed (R : gset (nat * nat)) : Prop :=
  ∀ a b c, (a, b) ∈ R → (b, c) ∈ R → (a, c) ∈ R.

Definition irreflexive (R : gset (nat * nat)) : Prop :=
  ∀ a, (a, a) ∉ R.

Definition antisymmetric (R : gset (nat * nat)) : Prop :=
  ∀ a b, (a, b) ∈ R → (b, a) ∉ R.

Definition strict_order (R : gset (nat * nat)) : Prop :=
  transitive_closed R ∧ irreflexive R.

(** Reflexive closure [a ≤ b]. *)
Definition le (R : gset (nat * nat)) (a b : nat) : Prop :=
  a = b ∨ (a, b) ∈ R.

(** Membership in the closure of [R] with the pair [(a, b)]. *)
Definition in_closure (R : gset (nat * nat)) (a b x y : nat) : Prop :=
  (x, y) ∈ R ∨ (le R x a ∧ le R b y).

Definition closed_new (R cs cs' : gset (nat * nat)) : Prop :=
  ∀ u v, (u, v) ∈ cs' → (u, v) ∉ cs →
    (∀ p, (p, u) ∈ R → (p, v) ∈ cs') ∧ (∀ s, (v, s) ∈ R → (u, s) ∈ cs').

Lemma closed_new_trans R c0 c1 c2 :
  c1 ⊆ c2 → closed_new R c0 c1 → closed_new R c1 c2 → closed_new R c0 c2.
Proof.
  intros Hsub H01 H12 u v Hin Hnin.
  destruct (decide ((u, v) ∈ c1)) as [Hc1|Hc1].
  - destruct (H01 u v Hc1 Hnin) as [Hp Hs]. split; intros; apply Hsub; auto.
  - apply H12; auto.
Qed.

Lemma closed_new_refl R c : closed_new R c c.
Proof. intros u v Hin Hnin. contradiction. Qed.

Lemma le_trans R x y z : transitive_closed R → le R x y → le R y z → le R x z.
Proof.
  intros Ht [->|Hxy] [->|Hyz]; unfold le; eauto.
Qed.

Section StoreSpec.
Variable iter_pairs : gset (nat * nat) → list (nat * nat).
Hypothesis iter_pairs_perm : ∀ X, iter_pairs X ≡ₚ elements X.

Lemma elem_of_iter_pairs X p : p ∈ iter_pairs X ↔ p ∈ X.
Proof. by rewrite iter_pairs_perm, elem_of_elements. Qed.

(** [R] is the store before the outermost call [add_constraint a b]. *)
Variable R : gset (nat * nat).
Variables a b : nat.
Hypothesis R_trans : transitive_closed R.
Hypothesis not_ba : (b, a) ∉ R.
Hypothesis a_ne_b : a ≠ b.

Lemma no_between z : le R b z → le R z a → False.
Proof.
  intros H1 H2. destruct (le_trans R b z a R_trans H1 H2) as [E|E]; auto.
Qed.

Definition below (cs : gset (nat * nat)) : Prop :=
  ∀ x y, (x, y) ∈ cs → in_closure R a b x y.

Definition call_post (x y : nat) (cs cs' : gset (nat * nat)) : Prop :=
  cs ⊆ cs' ∧ below cs' ∧ (x, y) ∈ cs' ∧ closed_new R cs cs'.

Definition fuel_short (fuel : nat) (cs : gset (nat * nat)) : Prop :=
  ∀ U : gset (nat * nat),
    (∀ x y, in_closure R a b x y → (x, y) ∈ U) →
    (fuel ≤ size (U ∖ cs))%nat.

Lemma fuel_short_mono fuel cs cs' :
  cs ⊆ cs' → fuel_short fuel cs' → fuel_short fuel cs.
Proof.
  intros Hsub H U HU. specialize (H U HU).
  assert (size (U ∖ cs') ≤ size (U ∖ cs))%nat
    by (apply subseteq_size; set_solver).
  lia.
Qed.

Lemma add_constraint_spec fuel :
  ∀ x y cs, R ⊆ cs → below cs → le R x a → le R b y →
    outcome (add_constraint iter_pairs fuel x y cs)
            (call_post x y cs) (fuel_short fuel cs).
Proof.
  induction fuel as [|fuel IH]; intros x y cs HR Hbelow Hx Hy.
  { simpl. intros U HU. lia. }
  simpl.
  assert (Hyx : (y, x) ∉ cs).
  { intros Hin. destruct (Hbelow _ _ Hin) as [HinR|[H1 H2]].
    - apply (no_between x); [|exact Hx].
      eapply le_trans; [exact R_trans|exact Hy|by right].
    - by apply (no_between x). }
  assert (Hne : x ≠ y).
  { intros ->. by apply (no_between y). }
  rewrite (bool_decide_eq_true_2 _ Hyx). simpl.
  rewrite (bool_decide_eq_true_2 _ Hne). simpl.
  case_bool_decide as Hxy.
  { simpl. unfold call_post. split_and!; auto using closed_new_refl. }
  set (c0 := {[(x, y)]} ∪ cs).
  assert (Hc0 : below c0).
  { intros u v Huv. apply elem_of_union in Huv as [Huv|Huv]; [|by apply Hbelow].
    apply elem_of_singleton in Huv. inversion Huv; subst. by right. }
  pose (I := λ (done : list (nat * nat)) (c : gset (nat * nat)),
           c0 ⊆ c ∧ below c ∧ closed_new R c0 c ∧
           ∀ ek el, (ek, el) ∈ done →
             (ek = y → (x, el) ∈ c) ∧ (el = x → (ek, y) ∈ c)).
  eapply outcome_weaken.
  - apply (for_each_outcome _ (fuel_short fuel c0) I (iter_pairs c0) []).
    + unfold I. split_and!; auto using closed_new_refl.
      intros ek el H. by apply not_elem_of_nil in H.
    + intros done [ek el] c Hin (Hsub & Hb & Hcl & Hdone).
      apply elem_of_iter_pairs in Hin.
      assert (HR' : R ⊆ c) by set_solver.
      eapply outcome_bind with
        (Q := λ c1, c ⊆ c1 ∧ below c1 ∧ closed_new R c c1 ∧
                    (ek = y → (x, el) ∈ c1)).
      * case_bool_decide as Hek.
        -- subst ek. eapply outcome_weaken.
           ++ apply IH; auto.
              destruct (Hc0 _ _ Hin) as [HinR|[_ H2]]; [|exact H2].
              eapply le_trans; [exact R_trans|exact Hy|by right].
           ++ intros c1 (H1 & H2 & H3 & H4). auto.
           ++ apply fuel_short_mono. exact Hsub.
        -- simpl. split_and!; auto using closed_new_refl. done.
      * intros c1 (Hsub1 & Hb1 & Hcl1 & Hfirst).
        assert (HR1 : R ⊆ c1) by set_solver.
        assert (Hgoal : ∀ c2, c1 ⊆ c2 → below c2 → closed_new R c1 c2 →
                   (el = x → (ek, y) ∈ c2) → I (done ++ [(ek, el)]) c2).
        { intros c2 Hsub2 Hb2 Hcl2 Hsecond. unfold I. split_and!.
          - set_solver.
          - exact Hb2.
          - eapply closed_new_trans; [|eexact Hcl|].
            + set_solver.
            + eapply closed_new_trans; eauto.
          - intros ek' el' H. apply elem_of_app in H as [H|H].
            + destruct (Hdone _ _ H) as [H1 H2]. set_solver.
            + apply list_elem_of_singleton in H. inversion H; subst.
              split; [set_solver|exact Hsecond]. }
        case_bool_decide as Hel.
        -- subst el. eapply outcome_weaken.
           ++ apply IH; auto.
              destruct (Hc0 _ _ Hin) as [HinR|[H1 _]]; [|exact H1].
              eapply le_trans; [exact R_trans|by right|exact Hx].
           ++ intros c2 (H1 & H2 & H3 & H4). apply Hgoal; auto.
           ++ apply fuel_short_mono. set_solver.
        -- simpl. apply Hgoal; auto using closed_new_refl. done.
  - simpl. intros c' (Hsub & Hb & Hcl & Hdone). unfold call_post.
    assert (Hxyc : (x, y) ∈ c') by set_solver.
    split_and!; auto.
    + set_solver.
    + intros u v Huv Hnew.
      destruct (decide ((u, v) = (x, y))) as [E|E].
      * inversion E; subst. split.
        -- intros p Hp.
           assert (Hin : (p, x) ∈ iter_pairs c0)
             by (apply elem_of_iter_pairs; set_solver).
           by destruct (Hdone _ _ Hin) as [_ H2]; apply H2.
        -- intros s Hs.
           assert (Hin : (y, s) ∈ iter_pairs c0)
             by (apply elem_of_iter_pairs; set_solver).
           by destruct (Hdone _ _ Hin) as [H2 _]; apply H2.
      * assert ((u, v) ∉ c0) by set_solver.
        by apply Hcl.
  - intros Hshort U HU.
    assert (size (U ∖ c0) < size (U ∖ cs))%nat.
    { apply subset_size. assert ((x, y) ∈ U) by (apply HU; by right).
      set_solver. }
    specialize (Hshort U HU). lia.
Qed.

(** What a successful outermost call returns: exactly the closure. *)
Lemma add_constraint_closure (fuel : nat) (F : gset (nat * nat)) :
  add_constraint iter_pairs fuel a b R = Ok F →
  ∀ x y, (x, y) ∈ F ↔ in_closure R a b x y.
Proof.
  intros Hrun.
  pose proof (add_constraint_spec fuel a b R) as Hspec.
  rewrite Hrun in Hspec. simpl in Hspec.
  destruct Hspec as (Hsub & Hbelow & Hab & Hcl);
    [done | by intros ? ? ?; left | by left | by left |].
  intros x y. split; [apply Hbelow|].
  intros [HinR|[Hxa Hby]]; [by apply Hsub|].
  assert (Hxb : (x, b) ∈ F).
  { destruct Hxa as [->|Hxa]; [done|].
    destruct (decide ((a, b) ∈ R)) as [HabR|HabR].
    - apply Hsub. eapply R_trans; eauto.
    - by apply (Hcl a b Hab HabR). }
  destruct Hby as [<-|Hby]; [done|].
  destruct (decide ((x, b) ∈ R)) as [HxbR|HxbR].
  - apply Hsub. eapply R_trans; eauto.
  - by apply (Hcl x b Hxb HxbR).
Qed.

(** With enough fuel the outermost call succeeds. *)
Lemma add_constraint_total (fuel : nat) (U : gset (nat * nat)) :
  (∀ x y, in_closure R a b x y → (x, y) ∈ U) →
  (size (U ∖ R) < fuel)%nat →
  ∃ F, add_constraint iter_pairs fuel a b R = Ok F.
Proof.
  intros HU Hfuel.
  pose proof (add_constraint_spec fuel a b R) as Hspec.
  destruct (add_constraint iter_pairs fuel a b R) as [F| |]; simpl in Hspec.
  - by exists F.
  - exfalso. apply Hspec; [done | by intros ? ? ?; left | by left | by left].
  - exfalso. specialize (Hspec ltac:(done) ltac:(by intros ? ? ?; left)
      ltac:(by left) ltac:(by left) U HU). lia.
Qed.

Lemma closure_transitive (F : gset (nat * nat)) :
  (∀ x y, (x, y) ∈ F ↔ in_closure R a b x y) → transitive_closed F.
Proof.
  intros HF x y z Hxy Hyz. apply HF in Hxy, Hyz. apply HF.
  destruct Hxy as [Hxy|[Hxa Hby]], Hyz as [Hyz|[Hya Hbz]].
  - left. eapply R_trans; eauto.
  - right. split; [|done]. eapply le_trans; eauto. by right.
  - right. split; [done|]. eapply le_trans; eauto. by right.
  - by right.
Qed.

Lemma closure_irreflexive (F : gset (nat * nat)) :
  irreflexive R →
  (∀ x y, (x, y) ∈ F ↔ in_closure R a b x y) → irreflexive F.
Proof.
  intros Hirr HF x Hxx. apply HF in Hxx as [Hxx|[Hxa Hbx]].
  - by apply (Hirr x).
  - by apply (no_between x).
Qed.
End StoreSpec.

Lemma add_constraint_asserts iter_pairs fuel a b R F :
  add_constraint iter_pairs fuel a b R = Ok F → ((b, a) ∉ R) ∧ (a ≠ b).
Proof.
  destruct fuel as [|fuel]; [done|]. simpl.
  case_bool_decide; [|done]. simpl. case_bool_decide; [|done]. done.
Qed.

(** Indices of a store over [n] edges, and the pairs its closure is made of. *)
Definition bounded (n : nat) (R : gset (nat * nat)) : Prop :=
  ∀ x y, (x, y) ∈ R → (x < n)%nat ∧ (y < n)%nat.

Definition generated (direct : nat → nat → Prop) (R : gset (nat * nat)) : Prop :=
  ∀ x y, (x, y) ∈ R → direct x y ∨ ∃ z, (x, z) ∈ R ∧ (z, y) ∈ R.

Lemma closure_bounded (n : nat) (R : gset (nat * nat)) (a b : nat)
    (F : gset (nat * nat)) :
  bounded n R → (a < n)%nat → (b < n)%nat →
  (∀ x y, (x, y) ∈ F ↔ in_closure R a b x y) → bounded n F.
Proof.
  intros HR Ha Hb HF x y Hxy. apply HF in Hxy as [Hxy|[Hxa Hby]].
  - by apply HR.
  - split.
    + destruct Hxa as [->|Hxa]; [done|]. by apply HR in Hxa as [? ?].
    + destruct Hby as [<-|Hby]; [done|]. by apply HR in Hby as [? ?].
Qed.

Lemma closure_generated (direct : nat → nat → Prop) (R : gset (nat * nat))
    (a b : nat) (F : gset (nat * nat)) :
  generated direct R → direct a b →
  (∀ x y, (x, y) ∈ F ↔ in_closure R a b x y) → generated direct F.
Proof.
  intros HR Hab HF x y Hxy.
  assert (Hsub : ∀ u v, (u, v) ∈ R → (u, v) ∈ F) by (intros; apply HF; by left).
  apply HF in Hxy as [Hxy|[Hxa Hby]].
  - destruct (HR _ _ Hxy) as [Hd|(z & H1 & H2)]; [by left|].
    right. exists z. auto.
  - destruct Hxa as [->|Hxa].
    + destruct Hby as [<-|Hby]; [by left|].
      right. exists b. split; [|by apply Hsub].
      apply HF. right. split; by left.
    + right. exists a. split; [by apply Hsub|].
      apply HF. right. split; [by left|done].
Qed.

Definition all_index_pairs (n : nat) : gset (nat * nat) :=
  list_to_set (list_prod (seq 0 n) (seq 0 n)).

Lemma size_list_to_set_le (l : list (nat * nat)) :
  (size (list_to_set l : gset (nat * nat)) ≤ length l)%nat.
Proof.
  induction l as [|x l IH].
  - change (list_to_set [] : gset (nat * nat)) with (∅ : gset (nat * nat)).
    by rewrite size_empty.
  - change (list_to_set (x :: l) : gset (nat * nat))
      with ({[x]} ∪ list_to_set l : gset (nat * nat)).
    rewrite size_union_alt, size_singleton. simpl.
    assert (size (list_to_set l ∖ {[x]} : gset (nat * nat))
            ≤ size (list_to_set l : gset (nat * nat)))%nat
      by (apply subseteq_size; set_solver).
    lia.
Qed.

Lemma size_all_index_pairs n : (size (all_index_pairs n) ≤ n * n)%nat.
Proof.
  unfold all_index_pairs. etrans; [apply size_list_to_set_le|].
  by rewrite length_prod, !length_seq.
Qed.

Lemma elem_of_all_index_pairs n x y :
  (x < n)%nat → (y < n)%nat → (x, y) ∈ all_index_pairs n.
Proof.
  intros Hx Hy. unfold all_index_pairs. apply elem_of_list_to_set.
  apply list_elem_of_In, in_prod; apply in_seq; lia.
Qed.

(** The call [plan_edges] makes: on a closed store over [n] edges, adding a
    pair that is not inverted succeeds and returns the closure. *)
Lemma add_constraint_ok iter_pairs n R a b :
  (∀ X, iter_pairs X ≡ₚ elements X) →
  transitive_closed R → bounded n R → (a < n)%nat → (b < n)%nat →
  (b, a) ∉ R → a ≠ b →
  ∃ F, add_constraint iter_pairs (S (n * n)) a b R = Ok F ∧
       ∀ x y, (x, y) ∈ F ↔ in_closure R a b x y.
Proof.
  intros Hperm Ht Hbd Ha Hb Hba Hne.
  destruct (add_constraint_total iter_pairs Hperm R a b Ht Hba Hne
              (S (n * n)) (all_index_pairs n)) as [F HF].
  - intros x y [Hxy|[Hxa Hby]].
    + apply Hbd in Hxy as [? ?]. by apply elem_of_all_index_pairs.
    + apply elem_of_all_index_pairs.
      * destruct Hxa as [->|Hxa]; [done|]. by apply Hbd in Hxa as [? ?].
      * destruct Hby as [<-|Hby]; [done|]. by apply Hbd in Hby as [? ?].
  - pose proof (size_all_index_pairs n).
    assert (size (all_index_pairs n ∖ R) ≤ size (all_index_pairs n))%nat
      by (apply subseteq_size; set_solver).
    lia.
  - exists F. split; [done|].
    by apply (add_constraint_closure iter_pairs Hperm R a b Ht Hba Hne
                (S (n * n)) F).
Qed.

Lemma strict_order_antisymmetric R : strict_order R → antisymmetric R.
Proof. intros [Ht Hi] x y Hxy Hyx. apply (Hi x). eauto. Qed.

Lemma add_constraint_strict_order iter_pairs fuel a b R F :
  (∀ X, iter_pairs X ≡ₚ elements X) →
  strict_order R →
  add_constraint iter_pairs fuel a b R = Ok F →
  strict_order F.
Proof.
  intros Hperm [Ht Hi] Hrun.
  destruct (add_constraint_asserts _ _ _ _ _ _ Hrun) as [Hba Hne].
  pose proof (add_constraint_closure iter_pairs Hperm R a b Ht Hba Hne fuel F Hrun)
    as HF.
  split.
  - by eapply closure_transitive.
  - by eapply closure_irreflexive.
Qed.

(** Stores that a sequence of successful calls builds from the empty one. *)
Inductive reachable (iter_pairs : gset (nat * nat) → list (nat * nat))
  : gset (nat * nat) → Prop :=
| reach_empty : reachable iter_pairs ∅
| reach_add cs fuel a b cs' :
    reachable iter_pairs cs →
    add_constraint iter_pairs fuel a b cs = Ok cs' →
    reachable iter_pairs cs'.

Lemma reachable_strict_order iter_pairs cs :
  (∀ X, iter_pairs X ≡ₚ elements X) →
  reachable iter_pairs cs → strict_order cs.
Proof.
  intros Hperm. induction 1 as [|cs fuel a b cs' Hreach IH Hrun].
  - split; [intros x y z H|intros x H]; by apply not_elem_of_empty in H.
  - by eapply add_constraint_strict_order.
Qed.

(** C6. After every successful [add_constraint] call, starting from the empty
    store, the constraint set is transitively closed and acyclic: it never
    holds both [(a, b)] and [(b, a)], and never a pair [(a, a)].  This holds
    whatever order Python enumerates the snapshot [set(constraints)] in. *)
Theorem add_constraint_closed_acyclic iter_pairs cs :
  (∀ X, iter_pairs X ≡ₚ elements X) →
  reachable iter_pairs cs →
  transitive_closed cs ∧ antisymmetric cs ∧ irreflexive cs.
Proof.
  intros Hperm Hreach.
  pose proof (reachable_strict_order _ _ Hperm Hreach) as Hso.
  split_and!; [apply Hso | by apply strict_order_antisymmetric | apply Hso].
Qed.

Definition example_store (k : nat) : gset (nat * nat) :=
  match k with
  | 0 => ∅
  | 1 => list_to_set [(0, 1)]
  | 2 => list_to_set [(0, 1); (2, 3)]
  | 3 => list_to_set [(0, 1); (2, 3); (4, 0); (4, 1)]
  | _ => list_to_set [(4, 2); (4, 0); (0, 2); (2, 3); (4, 1); (4, 3); (0, 3);
                      (0, 1); (1, 2); (1, 3)]
  end%nat.

Definition example_store_value : gset (nat * nat) := example_store 4.

Lemma example_store_reachable : reachable elements example_store_value.
Proof.
  apply (reach_add _ (example_store 3) 10 1 2)%nat; [|by vm_compute].
  apply (reach_add _ (example_store 2) 10 4 0)%nat; [|by vm_compute].
  apply (reach_add _ (example_store 1) 10 2 3)%nat; [|by vm_compute].
  apply (reach_add _ (example_store 0) 10 0 1)%nat; [|by vm_compute].
  apply reach_empty.
Qed.

Lemma add_constraint_closed_acyclic_witness :
  transitive_closed example_store_value ∧
  antisymmetric example_store_value ∧
  irreflexive example_store_value.
Proof.
  apply (add_constraint_closed_acyclic elements).
  - intros X. reflexivity.
  - apply example_store_reachable.
Defined.

End Constraints.

(** ** The edge planner: [plan_edges] *)

(** [Edge = namedtuple("Edge", ["i", "j", "cargo"])]. *)
Module Edge.
Record t : Type := mk { i : nat; j : nat; cargo : list Z }.
End Edge.

(** [v[k] += amount] on a numpy vector. *)
Definition vec_add (v : list Z) (k : nat) (amount : Z) : result (list Z) :=
  let* x := get v k in Ok (<[k := x + amount]> v).

(** [crates[i, j]] and [crates[i, j] = x] on the demand matrix. *)
Definition get2 (crates : list (list Z)) (i j : nat) : result Z :=
  let* row := get crates i in get row j.

Definition set2 (crates : list (list Z)) (i j : nat) (x : Z)
  : result (list (list Z)) :=
  let* row := get crates i in
  let* _ := get row j in
  Ok (<[i := <[j := x]> row]> crates).

(** [min(xs)], a [ValueError] on the empty sequence. *)
Definition min_list (xs : list Z) : result Z :=
  match xs with
  | [] => Raise ValueError
  | x :: xs' => Ok (foldl Z.min x xs')
  end.

(** [sorted(l, reverse=True, key=key)]: descending and stable. *)
Fixpoint insert_desc {A : Type} (key : A → Z) (x : A) (l : list A) : list A :=
  match l with
  | [] => [x]
  | y :: l' => if key x <? key y then y :: insert_desc key x l' else x :: y :: l'
  end.

Definition sorted_desc {A : Type} (key : A → Z) (l : list A) : list A :=
  foldr (insert_desc key) [] l.

(** A [key] function can raise.  [sorted], [min] and [max] evaluate the key
    of every element, in the order of [l]; the first exception ends the
    call. *)
Definition with_keys {A : Type} (key : A → result Z) (l : list A)
  : result (list (A * Z)) :=
  for_each (λ x acc, let* k := key x in Ok (acc ++ [(x, k)])) l [].

Definition sorted_by_key_desc {A : Type} (key : A → result Z) (l : list A)
  : result (list A) :=
  let* keyed := with_keys key l in
  Ok ((sorted_desc snd keyed).*1).

(** *** Sums and matrix updates *)

Lemma zsum_app (u v : list Z) : zsum (u ++ v) = zsum u + zsum v.
Proof. induction u as [|x u IH]; simpl; lia. Qed.

Lemma zsum_nonneg (v : list Z) : Forall (λ x, 0 ≤ x) v → 0 ≤ zsum v.
Proof. induction 1; simpl; lia. Qed.

Lemma zsum_replicate_0 (n : nat) : zsum (replicate n 0) = 0.
Proof. induction n; simpl; lia. Qed.

Lemma zsum_insert (v : list Z) (k : nat) (x y : Z) :
  v !! k = Some x → zsum (<[k := y]> v) = zsum v - x + y.
Proof.
  revert k. induction v as [|z v IH]; intros [|k] H; simpl in *; try done.
  - inversion H; subst. lia.
  - rewrite (IH k H). lia.
Qed.

Lemma zsum_map_insert {A : Type} (f : A → Z) (l : list A) (k : nat) (x y : A) :
  l !! k = Some x →
  zsum (f <$> <[k := y]> l) = zsum (f <$> l) - f x + f y.
Proof.
  intros H. rewrite list_fmap_insert.
  apply zsum_insert. by rewrite list_lookup_fmap, H.
Qed.

Definition shaped (n : nat) (m : list (list Z)) : Prop :=
  length m = n ∧ Forall (λ row, length row = n) m.

(** [Σ_i crates[i, d]]. *)
Definition column_sum (crates : list (list Z)) (d : nat) : Z :=
  zsum ((λ row, default 0 (row !! d)) <$> crates).

Definition entry (crates : list (list Z)) (i j : nat) : Z :=
  default 0 (row ← crates !! i; row !! j).

Lemma get2_shaped (n : nat) (m : list (list Z)) (i j : nat) :
  shaped n m → (i < n)%nat → (j < n)%nat → get2 m i j = Ok (entry m i j).
Proof.
  intros [Hlen Hrows] Hi Hj. unfold get2, get, entry.
  destruct (lookup_lt_is_Some_2 m i) as [row Hrow]; [lia|].
  rewrite Hrow. simpl.
  assert (length row = n) as Hr.
  { rewrite Forall_forall in Hrows. apply Hrows. by eapply list_elem_of_lookup_2. }
  destruct (lookup_lt_is_Some_2 row j) as [x Hx]; [lia|].
  by rewrite Hx.
Qed.

Lemma set2_shaped (n : nat) (m : list (list Z)) (i j : nat) (x : Z) :
  shaped n m → (i < n)%nat → (j < n)%nat →
  ∃ m', set2 m i j x = Ok m' ∧ shaped n m' ∧
        (∀ i' j', entry m' i' j' =
                  if bool_decide (i' = i ∧ j' = j) then x else entry m i' j') ∧
        (∀ d, column_sum m' d =
              column_sum m d + if bool_decide (d = j) then x - entry m i j else 0).
Proof.
  intros [Hlen Hrows] Hi Hj. unfold set2, get.
  destruct (lookup_lt_is_Some_2 m i) as [row Hrow]; [lia|].
  rewrite Hrow. simpl.
  assert (length row = n) as Hr.
  { rewrite Forall_forall in Hrows. apply Hrows. by eapply list_elem_of_lookup_2. }
  destruct (lookup_lt_is_Some_2 row j) as [y Hy]; [lia|].
  rewrite Hy. simpl. eexists. split; [done|]. split_and!.
  - split; [by rewrite length_insert|].
    apply Forall_insert; [done|]. by rewrite length_insert.
  - intros i' j'. unfold entry. case_bool_decide as Hij.
    + destruct Hij as [-> ->].
      rewrite list_lookup_insert_eq by lia. simpl.
      by rewrite list_lookup_insert_eq by lia.
    + destruct (decide (i' = i)) as [->|Hne].
      * rewrite list_lookup_insert_eq by lia. rewrite Hrow. simpl.
        rewrite list_lookup_insert_ne; [done|]. intros ->. by apply Hij.
      * by rewrite list_lookup_insert_ne.
  - intros d. unfold column_sum.
    rewrite (zsum_map_insert _ m i row) by done.
    unfold entry. rewrite Hrow. simpl. case_bool_decide as Hd.
    + subst d. rewrite Hy. rewrite list_lookup_insert_eq by lia. simpl. lia.
    + rewrite list_lookup_insert_ne by done. lia.
Qed.

Lemma for_each_outcome_pos {A S : Type} (body : A → S → result S) (P : Prop)
    (I : list A → S → Prop) (xs : list A) (s : S) :
  I [] s →
  (∀ done x rest s, xs = done ++ x :: rest → I done s →
     outcome (body x s) (I (done ++ [x])) P) →
  outcome (for_each body xs s) (I xs) P.
Proof.
  assert (Hgen : ∀ ys pre s,
    I pre s →
    (∀ done x rest s, pre ++ ys = done ++ x :: rest → I done s →
       outcome (body x s) (I (done ++ [x])) P) →
    outcome (for_each body ys s) (I (pre ++ ys)) P).
  { induction ys as [|y ys IH]; intros pre t HI Hbody; simpl.
    - by rewrite app_nil_r.
    - eapply outcome_bind.
      + by apply (Hbody pre y ys).
      + intros t' HI'. replace (pre ++ y :: ys) with ((pre ++ [y]) ++ ys)
          by (by rewrite <- app_assoc).
        apply IH; [done|]. intros done x rest u Heq. apply (Hbody done x rest).
        by rewrite <- Heq, <- app_assoc. }
  intros HI Hbody. by apply (Hgen xs []).
Qed.

Lemma insert_desc_perm {A : Type} (key : A → Z) (x : A) (l : list A) :
  insert_desc key x l ≡ₚ x :: l.
Proof.
  induction l as [|y l IH]; simpl; [done|].
  destruct (key x <? key y); [|done].
  rewrite IH. apply Permutation_swap.
Qed.

Lemma sorted_desc_perm {A : Type} (key : A → Z) (l : list A) :
  sorted_desc key l ≡ₚ l.
Proof.
  unfold sorted_desc. induction l as [|x l IH]; simpl; [done|].
  by rewrite insert_desc_perm, IH.
Qed.

Lemma keyed_returns {A : Type} (key : A → result Z) (l : list A) :
  (∀ x, x ∈ l → ∃ k, key x = Ok k) →
  ∀ acc, ∃ ks,
    for_each (λ x acc, let* k := key x in Ok (acc ++ [(x, k)])) l acc
    = Ok (acc ++ ks) ∧ ks.*1 = l.
Proof.
  induction l as [|x l IH]; intros Hkey acc; simpl.
  - exists []. by rewrite app_nil_r.
  - destruct (Hkey x) as [k ->]; [by left|]. cbn [bind].
    destruct (IH (λ y Hy, Hkey y (list_elem_of_further _ _ _ Hy))
                 (acc ++ [(x, k)])) as (ks & -> & Hks).
    exists ((x, k) :: ks). split.
    + by rewrite <- app_assoc.
    + by rewrite fmap_cons, Hks.
Qed.

Lemma with_keys_returns {A : Type} (key : A → result Z) (l : list A) :
  (∀ x, x ∈ l → ∃ k, key x = Ok k) →
  ∃ ks, with_keys key l = Ok ks ∧ ks.*1 = l.
Proof.
  intros Hkey. unfold with_keys.
  destruct (keyed_returns key l Hkey []) as (ks & -> & Hks). by exists ks.
Qed.

Lemma sorted_by_key_desc_returns {A : Type} (key : A → result Z) (l : list A) :
  (∀ x, x ∈ l → ∃ k, key x = Ok k) →
  ∃ l', sorted_by_key_desc key l = Ok l' ∧ l' ≡ₚ l.
Proof.
  intros Hkey. unfold sorted_by_key_desc.
  destruct (with_keys_returns key l Hkey) as (ks & -> & Hks). simpl.
  eexists. split; [done|]. by rewrite sorted_desc_perm, Hks.
Qed.

Lemma entry_out_of_range (n : nat) (m : list (list Z)) (i j : nat) :
  shaped n m → ¬ ((i < n)%nat ∧ (j < n)%nat) → entry m i j = 0.
Proof.
  intros [Hlen Hrows] Hout. unfold entry.
  destruct (m !! i) as [row|] eqn:Hrow; [|done]. simpl.
  destruct (row !! j) as [x|] eqn:Hx; [|done]. exfalso. apply Hout.
  split.
  - rewrite <- Hlen. by eapply lookup_lt_Some.
  - rewrite Forall_lookup in Hrows. rewrite <- (Hrows i row Hrow).
    by eapply lookup_lt_Some.
Qed.

Lemma column_sum_zero (m : list (list Z)) (d : nat) :
  (∀ i j, entry m i j = 0) → column_sum m d = 0.
Proof.
  unfold column_sum. induction m as [|row m IH]; intros H; [done|].
  rewrite fmap_cons. simpl. rewrite IH.
  - specialize (H 0%nat d). unfold entry in H. simpl in H. lia.
  - intros i j. apply (H (S i) j).
Qed.

Lemma zero_matrix (n : nat) (m : list (list Z)) :
  shaped n m → (∀ i j, entry m i j = 0) → m = replicate n (replicate n 0).
Proof.
  intros [Hlen Hrows] H. apply list_eq. intros i.
  destruct (decide (i < n)%nat) as [Hi|Hi].
  - rewrite (lookup_replicate_2 n _ i Hi).
    destruct (lookup_lt_is_Some_2 m i) as [row Hrow]; [lia|].
    rewrite Hrow. f_equal. apply list_eq. intros j.
    rewrite Forall_lookup in Hrows. pose proof (Hrows i row Hrow) as Hr.
    destruct (decide (j < n)%nat) as [Hj|Hj].
    + rewrite (lookup_replicate_2 n _ j Hj).
      destruct (lookup_lt_is_Some_2 row j) as [x Hx]; [lia|].
      specialize (H i j). unfold entry in H. rewrite Hrow in H. simpl in H.
      rewrite Hx in H. simpl in H. by rewrite Hx, H.
    + rewrite lookup_ge_None_2 by lia.
      symmetry. apply lookup_replicate_None. lia.
  - rewrite lookup_ge_None_2 by lia.
    symmetry. apply lookup_replicate_None. lia.
Qed.

(** A well-formed instance: positive capacity and a square matrix of
    non-negative counts with a zero diagonal. *)
Definition well_formed (plane_cap : Z) (city_count : nat)
    (crates : list (list Z)) : Prop :=
  0 < plane_cap ∧
  shaped city_count crates ∧
  Forall (Forall (λ x, 0 ≤ x)) crates ∧
  Forall (λ i, entry crates i i = 0) (seq 0 city_count).

Lemma well_formed_nonneg plane_cap city_count crates :
  well_formed plane_cap city_count crates → ∀ i j, 0 ≤ entry crates i j.
Proof.
  intros (_ & _ & Hnn & _) i j. unfold entry.
  destruct (crates !! i) as [row|] eqn:Hrow; [|done]. simpl.
  destruct (row !! j) as [x|] eqn:Hx; [|done]. simpl.
  rewrite Forall_lookup in Hnn. specialize (Hnn i row Hrow).
  rewrite Forall_lookup in Hnn. by apply (Hnn j x).
Qed.

Lemma well_formed_diag plane_cap city_count crates :
  well_formed plane_cap city_count crates → ∀ i, entry crates i i = 0.
Proof.
  intros (_ & Hs & _ & Hd) i. destruct (decide (i < city_count)%nat) as [Hi|Hi].
  - rewrite Forall_forall in Hd. apply Hd. apply elem_of_seq. lia.
  - eapply entry_out_of_range; [done|]. lia.
Qed.

Module EdgePlanner.

(** The variables [plan_edges] and its closures share: the caller's matrix
    [crates], [edges] and [constraints].  [history] is a ghost log of every
    value an entry of [edges] takes: the edge appended by [add_edge] and the
    edge as it is after each [cargo[j] += amount]. *)
Record state : Type := mk_state {
  crates : list (list Z);
  edges : list Edge.t;
  constraints : gset (nat * nat);
  history : list Edge.t
}.

Section Planner.
Variable plane_cap : Z.
Variable city_count : nat.
Variable iter_pairs : gset (nat * nat) → list (nat * nat).

Definition with_crates (st : state) (c : list (list Z)) : state :=
  mk_state c (edges st) (constraints st) (history st).

Definition add_edge (i j : nat) (amount : Z) (st : state) : result state :=
  let* _ := assert (bool_decide (amount ≤ plane_cap)) in
  let cargo := replicate city_count 0 in
  let* cargo := vec_add cargo j amount in
  let e := Edge.mk i j cargo in
  Ok (mk_state (crates st) (edges st ++ [e]) (constraints st)
               (history st ++ [e])).

Definition add_constraint (ei ej : nat) (st : state) : result state :=
  let n := length (edges st) in
  let* c := Constraints.add_constraint iter_pairs (S (n * n)) ei ej
              (constraints st) in
  Ok (mk_state (crates st) (edges st) c (history st)).

(** Body of [for edge_idx, edge in enumerate(edges)] in [find_path]; the
    loop state is [(paths, visited)]. *)
Definition scan_edge (st : state) (visited_i : nat) (path_to_i : list nat)
    (ie : nat * Edge.t) (s : list (option (list nat)) * list nat)
  : result (list (option (list nat)) * list nat) :=
  let '(edge_idx, edge) := ie in
  let '(paths, visited) := s in
  if negb (bool_decide (Edge.i edge = visited_i)) then Ok s
  else
    let* p := get paths (Edge.j edge) in
    if bool_decide (is_Some p) then Ok s
    else if bool_decide (plane_cap ≤ zsum (Edge.cargo edge)) then Ok s
    else
      let can_be_used :=
        forallb (λ path_edge_idx,
                   negb (bool_decide ((edge_idx, path_edge_idx)
                                        ∈ constraints st)))
                path_to_i in
      if can_be_used
      then Ok (<[Edge.j edge := Some (path_to_i ++ [edge_idx])]> paths,
               visited ++ [Edge.j edge])
      else Ok s.

(** [while visited: ...] of [find_path]. *)
Fixpoint find_path_loop (fuel : nat) (st : state)
    (paths : list (option (list nat))) (visited : list nat)
  : result (list (option (list nat))) :=
  match fuel with
  | O => OutOfFuel
  | S fuel' =>
    match visited with
    | [] => Ok paths
    | visited_i :: visited =>
      let* path_to_i := get paths visited_i in
      match path_to_i with
      | None => Raise TypeError
      | Some path_to_i =>
        let* (paths, visited) :=
          for_each (scan_edge st visited_i path_to_i)
                   (imap pair (edges st)) (paths, visited) in
        find_path_loop fuel' st paths visited
      end
    end
  end.

Definition find_path (path_i path_j : nat) (st : state)
  : result (option (list nat)) :=
  let paths := replicate city_count None in
  let* _ := get paths path_i in
  let paths := <[path_i := Some []]> paths in
  let* paths := find_path_loop (S city_count) st paths [path_i] in
  get paths path_j.

(** [edges[edge_idx].cargo[j] += amount]. *)
Definition increment (j : nat) (amount : Z) (edge_idx : nat) (st : state)
  : result state :=
  let* e := get (edges st) edge_idx in
  let* cargo := vec_add (Edge.cargo e) j amount in
  let e := Edge.mk (Edge.i e) (Edge.j e) cargo in
  Ok (mk_state (crates st) (<[edge_idx := e]> (edges st)) (constraints st)
               (history st ++ [e])).

(** [zip(ij_path, ij_path[1:])]. *)
Definition consecutive (p : list nat) : list (nat * nat) := zip p (tail p).

(** One iteration of the transshipment loop once a path is found. *)
Definition commit_path (i j : nat) (ij_path : list nat) (st : state)
  : result state :=
  let* remaining :=
    for_each (λ idx acc, let* e := get (edges st) idx in
                         Ok (acc ++ [plane_cap - zsum (Edge.cargo e)]))
             ij_path [] in
  let* path_cap := min_list remaining in
  let* c := get2 (crates st) i j in
  let amount := Z.min path_cap c in
  let* st := for_each (increment j amount) ij_path st in
  let* st := for_each (λ '(prev_edge_idx, next_edge_idx),
                         add_constraint prev_edge_idx next_edge_idx)
                      (consecutive ij_path) st in
  let* c := get2 (crates st) i j in
  let* cr := set2 (crates st) i j (c - amount) in
  Ok (with_crates st cr).

(** [while crates[i, j] >= plane_cap: ...]. *)
Fixpoint bulk_loop (fuel : nat) (i j : nat) (st : state) : result state :=
  match fuel with
  | O => OutOfFuel
  | S fuel' =>
    let* c := get2 (crates st) i j in
    if bool_decide (plane_cap ≤ c) then
      let* st := add_edge i j plane_cap st in
      let* c := get2 (crates st) i j in
      let* cr := set2 (crates st) i j (c - plane_cap) in
      bulk_loop fuel' i j (with_crates st cr)
    else Ok st
  end.

(** [while crates[i, j] > 0: ...] with its [break]. *)
Fixpoint reuse_loop (fuel : nat) (i j : nat) (st : state) : result state :=
  match fuel with
  | O => OutOfFuel
  | S fuel' =>
    let* c := get2 (crates st) i j in
    if bool_decide (0 < c) then
      let* ij_path := find_path i j st in
      match ij_path with
      | None => Ok st
      | Some ij_path =>
        let* st := commit_path i j ij_path st in
        reuse_loop fuel' i j st
      end
    else Ok st
  end.

(** Body of [for (i, j) in ij_order]. *)
Definition plan_pair (ij : nat * nat) (st : state) : result state :=
  let '(i, j) := ij in
  let* c := get2 (crates st) i j in
  let* st := bulk_loop (S (Z.to_nat c)) i j st in
  let* c := get2 (crates st) i j in
  let* st := reuse_loop (S (Z.to_nat c)) i j st in
  let* c := get2 (crates st) i j in
  if bool_decide (0 < c) then
    let* st := add_edge i j c st in
    let* cr := set2 (crates st) i j 0 in
    Ok (with_crates st cr)
  else Ok st.

Definition all_pairs : list (nat * nat) :=
  i ← seq 0 city_count; j ← seq 0 city_count; [(i, j)].

(** [key=lambda ij: crates[ij]]. *)
Definition demand (crates : list (list Z)) (ij : nat * nat) : result Z :=
  get2 crates ij.1 ij.2.

Definition plan_edges (crates : list (list Z)) : result state :=
  let ij_order := all_pairs in
  let* ij_order := sorted_by_key_desc (demand crates) ij_order in
  for_each plan_pair ij_order (mk_state crates [] ∅ []).

End Planner.

(** *** Specification of [find_path] *)

Fixpoint unseen (paths : list (option (list nat))) : nat :=
  match paths with
  | [] => 0
  | None :: paths' => S (unseen paths')
  | Some _ :: paths' => unseen paths'
  end.

Lemma unseen_insert (paths : list (option (list nat))) (k : nat) (p : list nat) :
  paths !! k = Some None →
  (unseen (<[k := Some p]> paths) + 1 = unseen paths)%nat.
Proof.
  revert k. induction paths as [|o paths IH]; intros [|k] H; simpl in *;
    try done.
  - inversion H; subst. lia.
  - specialize (IH k H). destruct o; lia.
Qed.

Lemma unseen_replicate (n : nat) : unseen (replicate n None) = n.
Proof. induction n; simpl; auto. Qed.

Section PathSpec.
Variable plane_cap : Z.
Variable city_count : nat.
Variable st : state.
Variable src : nat.

(** [p] is a chain of edges from [src] to a city, in the order they are
    flown: every edge has room, never has to precede an earlier edge of the
    chain, and reaches a city the chain has not been to. *)
Inductive path_to : nat → list nat → Prop :=
| path_nil : path_to src []
| path_snoc u p idx e :
    path_to u p →
    edges st !! idx = Some e →
    Edge.i e = u →
    zsum (Edge.cargo e) < plane_cap →
    (∀ q, q ∈ p → (idx, q) ∉ constraints st) →
    Edge.j e ≠ src →
    (∀ q e', q ∈ p → edges st !! q = Some e' → Edge.j e' ≠ Edge.j e) →
    path_to (Edge.j e) (p ++ [idx]).

Definition discovered (paths : list (option (list nat))) (c : nat) : Prop :=
  ∃ p, paths !! c = Some (Some p).

Definition bfs_inv (paths : list (option (list nat))) (visited : list nat)
  : Prop :=
  length paths = city_count ∧
  discovered paths src ∧
  (∀ c p, paths !! c = Some (Some p) →
     path_to c p ∧
     ∀ q e, q ∈ p → edges st !! q = Some e → discovered paths (Edge.j e)) ∧
  (∀ c, c ∈ visited → discovered paths c).

Hypothesis edges_in_range :
  ∀ idx e, edges st !! idx = Some e → (Edge.j e < city_count)%nat.

Lemma discovered_insert paths k p c :
  paths !! k = Some None → discovered paths c →
  discovered (<[k := Some p]> paths) c.
Proof.
  intros Hk [p' Hp']. exists p'.
  rewrite list_lookup_insert_ne; [done|]. intros ->. congruence.
Qed.

Lemma scan_edge_spec visited_i path_to_i idx e paths visited (P : Prop) :
  edges st !! idx = Some e →
  bfs_inv paths visited →
  paths !! visited_i = Some (Some path_to_i) →
  outcome (scan_edge plane_cap st visited_i path_to_i (idx, e) (paths, visited))
          (λ s, bfs_inv s.1 s.2 ∧ s.1 !! visited_i = Some (Some path_to_i) ∧
                (unseen s.1 + length s.2 = unseen paths + length visited)%nat)
          P.
Proof.
  intros He (Hlen & Hsrc & Hpaths & Hvis) Hvi. unfold scan_edge.
  assert (Hsame : outcome (Ok (paths, visited))
            (λ s, bfs_inv s.1 s.2 ∧ s.1 !! visited_i = Some (Some path_to_i) ∧
               (unseen s.1 + length s.2 = unseen paths + length visited)%nat) P).
  { simpl. unfold bfs_inv. split_and!; try done. }
  case_bool_decide as Hi; simpl; [|exact Hsame].
  destruct (lookup_lt_is_Some_2 paths (Edge.j e)) as [o Ho].
  { rewrite Hlen. by eapply edges_in_range. }
  unfold get. rewrite Ho. simpl.
  case_bool_decide as Hsome; [exact Hsame|].
  assert (o = None) as -> by (destruct o; [exfalso; apply Hsome; eauto|done]).
  case_bool_decide as Hfull; [exact Hsame|].
  destruct (forallb _ path_to_i) eqn:Hcan; [|exact Hsame].
  simpl. rewrite forallb_forall in Hcan.
  assert (Hnew : path_to (Edge.j e) (path_to_i ++ [idx])).
  { destruct (Hpaths _ _ Hvi) as [Hpath Hdisc].
    eapply path_snoc; eauto.
    - lia.
    - intros q Hq. apply list_elem_of_In in Hq. specialize (Hcan q Hq).
      apply negb_true_iff, bool_decide_eq_false in Hcan. exact Hcan.
    - intros E. destruct Hsrc as [p' Hp']. congruence.
    - intros q e' Hq He' E. destruct (Hdisc q e' Hq He') as [p' Hp'].
      congruence. }
  unfold bfs_inv. split_and!.
  - by rewrite length_insert.
  - by apply discovered_insert.
  - intros c p Hc. destruct (decide (c = Edge.j e)) as [->|Hne].
    + rewrite list_lookup_insert_eq in Hc by (rewrite Hlen; eauto).
      inversion Hc; subst. split; [done|].
      intros q e' Hq He'. apply elem_of_app in Hq as [Hq|Hq].
      * apply discovered_insert; [done|].
        destruct (Hpaths _ _ Hvi) as [_ Hdisc]. eauto.
      * apply list_elem_of_singleton in Hq. subst q.
        assert (e' = e) as -> by congruence.
        eexists. apply list_lookup_insert_eq. rewrite Hlen. eauto.
    + rewrite list_lookup_insert_ne in Hc by done.
      destruct (Hpaths _ _ Hc) as [Hpath Hdisc]. split; [done|].
      intros q e' Hq He'. apply discovered_insert; eauto.
  - intros c Hc. apply elem_of_app in Hc as [Hc|Hc].
    + apply discovered_insert; auto.
    + apply list_elem_of_singleton in Hc. subst c.
      eexists. apply list_lookup_insert_eq. rewrite Hlen. eauto.
  - rewrite list_lookup_insert_ne; [done|]. intros E. congruence.
  - rewrite length_app. simpl.
    pose proof (unseen_insert paths (Edge.j e) (path_to_i ++ [idx]) Ho). lia.
Qed.

Lemma find_path_loop_spec fuel :
  ∀ paths visited,
    bfs_inv paths visited →
    outcome (find_path_loop plane_cap fuel st paths visited)
            (λ paths', bfs_inv paths' [])
            (fuel ≤ unseen paths + length visited)%nat.
Proof.
  induction fuel as [|fuel IH]; intros paths visited Hinv; simpl; [lia|].
  destruct visited as [|visited_i visited]; [done|].
  destruct Hinv as (Hlen & Hsrc & Hpaths & Hvis).
  destruct (Hvis visited_i) as [path_to_i Hvi]; [by left|].
  unfold get. rewrite Hvi. simpl.
  eapply outcome_bind.
  - eapply outcome_weaken with (P := (fuel ≤ unseen paths + length visited)%nat);
      [|intros s Hs; exact Hs|simpl; lia].
    pose (I := λ (_ : list (nat * Edge.t))
                 (s : list (option (list nat)) * list nat),
             bfs_inv s.1 s.2 ∧ s.1 !! visited_i = Some (Some path_to_i) ∧
             (unseen s.1 + length s.2 = unseen paths + length visited)%nat).
    apply (for_each_outcome _ (fuel ≤ unseen paths + length visited)%nat I
             (imap pair (edges st)) [] (paths, visited)).
    + unfold I, bfs_inv. simpl. split_and!; try done.
      intros c Hc. apply Hvis. by right.
    + intros done [idx e] [paths' visited'] Hin (Hinv' & Hvi' & Hmu).
      apply elem_of_lookup_imap in Hin as (k & e0 & Heq & Hk).
      inversion Heq; subst k e0. simpl in *.
      eapply outcome_weaken; [by apply scan_edge_spec| |intros H; exact H].
      intros s (H1 & H2 & H3). unfold I. split_and!; auto. lia.
  - intros [paths' visited'] (Hinv' & _ & Hmu). simpl in *.
    eapply outcome_weaken; [by apply IH|done|]. simpl. lia.
Qed.

Lemma find_path_spec dst :
  (src < city_count)%nat → (dst < city_count)%nat →
  returns (find_path plane_cap city_count src dst st)
          (λ r, ∀ p, r = Some p → path_to dst p).
Proof.
  intros Hsrc Hdst. unfold find_path, returns.
  assert (Hl : replicate city_count (None : option (list nat)) !! src = Some None)
    by (by apply lookup_replicate_2).
  unfold get at 1. rewrite Hl. cbn [bind].
  eapply outcome_bind.
  - eapply outcome_weaken; [apply (find_path_loop_spec (S city_count))
                           |intros paths H; exact H|].
    + unfold bfs_inv. split_and!.
      * by rewrite length_insert, length_replicate.
      * exists []. apply list_lookup_insert_eq. by rewrite length_replicate.
      * intros c p Hc. destruct (decide (c = src)) as [->|Hne].
        -- rewrite list_lookup_insert_eq in Hc by (by rewrite length_replicate).
           inversion Hc; subst. split; [constructor|].
           intros q e Hq. by apply not_elem_of_nil in Hq.
        -- rewrite list_lookup_insert_ne in Hc by done.
           apply lookup_replicate in Hc as [? ?]. done.
      * intros c Hc. apply list_elem_of_singleton in Hc. subst c.
        exists []. apply list_lookup_insert_eq. by rewrite length_replicate.
    + pose proof (unseen_insert _ src [] Hl) as Hu.
      rewrite unseen_replicate in Hu. simpl. lia.
  - intros paths (Hlen & _ & Hpaths & _).
    destruct (lookup_lt_is_Some_2 paths dst) as [o Ho]; [lia|].
    unfold get. rewrite Ho. simpl. intros p ->. by apply Hpaths.
Qed.

(** Facts a committed path is used for. *)

Definition routes (es : list Edge.t) : list (nat * nat) :=
  (λ e, (Edge.i e, Edge.j e)) <$> es.

(** [y] takes off where [x] lands. *)
Definition direct (rs : list (nat * nat)) (x y : nat) : Prop :=
  ∃ rx ry, rs !! x = Some rx ∧ rs !! y = Some ry ∧ rx.2 = ry.1.

(** No constraint runs against the order of the path. *)
Definition forward (p : list nat) (C : gset (nat * nat)) : Prop :=
  ∀ a b x y, p !! a = Some x → p !! b = Some y → (x, y) ∈ C → (a < b)%nat.

(** Number of edges of [p] that land in [dst]. *)
Definition hits (dst : nat) (p : list nat) : Z :=
  zsum ((λ idx, match edges st !! idx with
                | Some e => if bool_decide (Edge.j e = dst) then 1 else 0
                | None => 0
                end) <$> p).

Lemma path_to_lookup u p :
  path_to u p →
  ∀ q, q ∈ p → ∃ e, edges st !! q = Some e ∧ zsum (Edge.cargo e) < plane_cap.
Proof.
  induction 1 as [|u p idx e Hp IH He Hi Hroom Hc Hsrc Hd]; intros q Hq.
  - by apply not_elem_of_nil in Hq.
  - apply elem_of_app in Hq as [Hq|Hq]; [by apply IH|].
    apply list_elem_of_singleton in Hq. subst q. eauto.
Qed.

Lemma path_to_end u p :
  path_to u p →
  u = src ∨ ∃ q e, q ∈ p ∧ last p = Some q ∧ edges st !! q = Some e ∧ Edge.j e = u.
Proof.
  destruct 1 as [|u p idx e Hp He Hi Hroom Hc Hsrc Hd]; [by left|].
  right. exists idx, e. split_and!; auto.
  - apply elem_of_app. right. by apply list_elem_of_singleton.
  - by rewrite last_snoc.
Qed.

Lemma path_to_sources u p :
  path_to u p →
  ∀ q e, q ∈ p → edges st !! q = Some e →
    Edge.i e = src ∨ ∃ q' e', q' ∈ p ∧ edges st !! q' = Some e' ∧
                              Edge.j e' = Edge.i e.
Proof.
  induction 1 as [|u p idx e Hp IH He Hi Hroom Hc Hsrc Hd]; intros q e0 Hq He0.
  - by apply not_elem_of_nil in Hq.
  - apply elem_of_app in Hq as [Hq|Hq].
    + destruct (IH q e0 Hq He0) as [?|(q' & e' & Hq' & He' & Hj)]; [by left|].
      right. exists q', e'. split_and!; auto. apply elem_of_app. by left.
    + apply list_elem_of_singleton in Hq. subst q.
      assert (e0 = e) as -> by congruence.
      destruct (path_to_end u p Hp) as [?|(q' & e' & Hq' & _ & He' & Hj)];
        [left; congruence|].
      right. exists q', e'. split_and!; auto; [|congruence].
      apply elem_of_app. by left.
Qed.

Lemma path_to_NoDup u p : path_to u p → NoDup p.
Proof.
  induction 1 as [|u p idx e Hp IH He Hi Hroom Hc Hsrc Hd]; [constructor|].
  apply NoDup_app. split_and!; [done| |apply NoDup_singleton].
  intros q Hq Hq'. apply list_elem_of_singleton in Hq'. subst q.
  by apply (Hd idx e Hq He).
Qed.

Lemma path_to_forward u p :
  Constraints.irreflexive (constraints st) →
  path_to u p → forward p (constraints st).
Proof.
  intros Hirr.
  induction 1 as [|u p idx e Hp IH He Hi Hroom Hc Hsrc Hd];
    intros a b x y Ha Hb Hxy.
  - by rewrite lookup_nil in Ha.
  - apply lookup_snoc_Some in Ha as [[Ha Hax]|[Ha ->]];
      apply lookup_snoc_Some in Hb as [[Hb Hby]|[Hb ->]].
    + by eapply IH.
    + lia.
    + exfalso. apply (Hc y); [by eapply list_elem_of_lookup_2|done].
    + exfalso. eapply Hirr; eauto.
Qed.

Lemma path_to_chain u p :
  path_to u p →
  ∀ k x y, p !! k = Some x → p !! S k = Some y → direct (routes (edges st)) x y.
Proof.
  induction 1 as [|u p idx e Hp IH He Hi Hroom Hc Hsrc Hd];
    intros k x y Hx Hy.
  - by rewrite lookup_nil in Hx.
  - apply lookup_snoc_Some in Hy as [[Hk Hy]|[Hk ->]].
    + rewrite lookup_app_l in Hx by lia. by eapply IH.
    + rewrite lookup_app_l in Hx by lia.
      destruct (path_to_end u p Hp) as [->|(q & e' & Hq & Hlast & He' & Hj)].
      * inversion Hp; subst; [by rewrite lookup_nil in Hx|].
        exfalso. by apply H4.
      * rewrite last_lookup in Hlast.
        assert (q = x) as ->.
        { replace (Nat.pred (length p)) with k in Hlast by lia. congruence. }
        exists (Edge.i e', Edge.j e'), (Edge.i e, Edge.j e).
        unfold routes. rewrite !list_lookup_fmap, He', He. simpl.
        split_and!; auto. congruence.
Qed.

Lemma hits_none dst p :
  (∀ q e, q ∈ p → edges st !! q = Some e → Edge.j e ≠ dst) → hits dst p = 0.
Proof.
  unfold hits. induction p as [|q p IH]; intros H; [done|].
  rewrite fmap_cons. simpl. rewrite IH.
  - destruct (edges st !! q) as [e|] eqn:He; [|done].
    rewrite bool_decide_eq_false_2; [done|]. apply (H q e); [by left|done].
  - intros q' e Hq'. apply H. by right.
Qed.

(** Summary for a path between two different cities. *)
Lemma path_to_summary dst p :
  Constraints.irreflexive (constraints st) →
  src ≠ dst → path_to dst p →
  p ≠ [] ∧ NoDup p ∧
  (∀ q, q ∈ p → ∃ e, edges st !! q = Some e ∧
                     zsum (Edge.cargo e) < plane_cap ∧ Edge.i e ≠ dst) ∧
  hits dst p = 1 ∧
  forward p (constraints st) ∧
  (∀ k x y, p !! k = Some x → p !! S k = Some y →
            direct (routes (edges st)) x y).
Proof.
  intros Hirr Hne Hpath.
  split_and!.
  - inversion Hpath; subst; [done|]. by destruct p0.
  - by eapply path_to_NoDup.
  - inversion Hpath as [|u p' idx e Hp He Hi Hroom Hc Hsrc Hd]; subst; [done|].
    intros q Hq. apply elem_of_app in Hq as [Hq|Hq].
    + destruct (path_to_lookup _ _ Hp q Hq) as (e0 & He0 & Hroom0).
      exists e0. split_and!; auto.
      destruct (path_to_sources _ _ Hp q e0 Hq He0)
        as [E|(q' & e' & Hq' & He' & Hj)]; [congruence|].
      rewrite <- Hj. by eapply Hd.
    + apply list_elem_of_singleton in Hq. subst q.
      exists e. split_and!; auto.
      destruct (path_to_end _ _ Hp) as [E|(q' & e' & Hq' & _ & He' & Hj)];
        [congruence|].
      rewrite <- Hj. by eapply Hd.
  - inversion Hpath as [|u p' idx e Hp He Hi Hroom Hc Hsrc Hd]; subst; [done|].
    unfold hits. rewrite fmap_app, zsum_app. fold (hits (Edge.j e) p').
    rewrite hits_none by done. simpl. rewrite He.
    by rewrite bool_decide_eq_true_2.
  - by eapply path_to_forward.
  - by eapply path_to_chain.
Qed.

End PathSpec.

(** *** The planner's invariant *)

Section Invariant.
Variable plane_cap : Z.
Variable city_count : nat.
Variable iter_pairs : gset (nat * nat) → list (nat * nat).
Hypothesis cap_pos : 0 < plane_cap.
Hypothesis iter_pairs_perm : ∀ X, iter_pairs X ≡ₚ elements X.

(** The demand matrix the caller passed. *)
Variable crates0 : list (list Z).

(** An edge of the data model: two different cities, a cargo vector of
    non-negative counts per destination, none of it for the city the edge
    leaves, and no more than the capacity in total. *)
Definition edge_wf (e : Edge.t) : Prop :=
  Edge.i e ≠ Edge.j e ∧
  length (Edge.cargo e) = city_count ∧
  Forall (λ x, 0 ≤ x) (Edge.cargo e) ∧
  Edge.cargo e !! Edge.i e = Some 0 ∧
  zsum (Edge.cargo e) ≤ plane_cap.

Definition edge_ok (e : Edge.t) : Prop :=
  edge_wf e ∧ (Edge.j e < city_count)%nat ∧ 0 < zsum (Edge.cargo e).

(** Crates for [d] that the edges landing in [d] carry. *)
Definition delivered (d : nat) (es : list Edge.t) : Z :=
  zsum ((λ e, if bool_decide (Edge.j e = d)
              then default 0 (Edge.cargo e !! d) else 0) <$> es).

Record inv (st : state) : Prop := mk_inv {
  inv_shape : shaped city_count (crates st);
  inv_nonneg : ∀ i j, 0 ≤ entry (crates st) i j;
  inv_diag : ∀ i, entry (crates st) i i = 0;
  inv_edges : Forall edge_ok (edges st);
  inv_history : Forall edge_wf (history st);
  inv_order : Constraints.strict_order (constraints st);
  inv_bounded : Constraints.bounded (length (edges st)) (constraints st);
  inv_generated :
    Constraints.generated (direct (routes (edges st))) (constraints st);
  inv_conserved :
    ∀ d, delivered d (edges st) + column_sum (crates st) d
         = column_sum crates0 d
}.

(** [cr] is [crates] with [a] taken off the entry [(i, j)]. *)
Definition debited (crates cr : list (list Z)) (i j : nat) (a : Z) : Prop :=
  shaped city_count cr ∧
  (∀ i' j', entry cr i' j' =
            if bool_decide (i' = i ∧ j' = j) then entry crates i j - a
            else entry crates i' j') ∧
  (∀ d, column_sum cr d =
        column_sum crates d - if bool_decide (d = j) then a else 0).

Lemma set2_debited crates i j a :
  shaped city_count crates → (i < city_count)%nat → (j < city_count)%nat →
  ∃ cr, set2 crates i j (entry crates i j - a) = Ok cr ∧ debited crates cr i j a.
Proof.
  intros Hs Hi Hj.
  destruct (set2_shaped city_count crates i j (entry crates i j - a) Hs Hi Hj)
    as (cr & Hset & Hshape & Hentry & Hcol).
  exists cr. split; [done|]. split_and!; auto.
  intros d. rewrite Hcol. case_bool_decide; lia.
Qed.

Lemma direct_app rs r x y : direct rs x y → direct (rs ++ [r]) x y.
Proof.
  intros (rx & ry & Hx & Hy & E). exists rx, ry.
  split_and!; auto; by apply lookup_app_l_Some.
Qed.

Lemma delivered_snoc d es e :
  delivered d (es ++ [e])
  = delivered d es + if bool_decide (Edge.j e = d)
                     then default 0 (Edge.cargo e !! d) else 0.
Proof. unfold delivered. rewrite fmap_app, zsum_app. simpl. lia. Qed.

Definition new_edge (i j : nat) (amount : Z) : Edge.t :=
  Edge.mk i j (<[j := 0 + amount]> (replicate city_count 0)).

Lemma add_edge_returns i j amount st :
  (j < city_count)%nat → amount ≤ plane_cap →
  add_edge plane_cap city_count i j amount st
  = Ok (mk_state (crates st) (edges st ++ [new_edge i j amount])
                 (constraints st) (history st ++ [new_edge i j amount])).
Proof.
  intros Hj Ha. unfold add_edge.
  rewrite bool_decide_eq_true_2 by done. simpl.
  unfold vec_add, get. by rewrite lookup_replicate_2.
Qed.

Lemma new_edge_ok i j amount :
  i ≠ j → (i < city_count)%nat → (j < city_count)%nat →
  0 < amount → amount ≤ plane_cap → edge_ok (new_edge i j amount).
Proof.
  intros Hne Hi Hj Hpos Hcap.
  assert (Hsum : zsum (Edge.cargo (new_edge i j amount)) = amount).
  { simpl. rewrite (zsum_insert _ j 0) by (by apply lookup_replicate_2).
    rewrite zsum_replicate_0. lia. }
  unfold edge_ok, edge_wf. rewrite Hsum. simpl. split_and!; auto; try lia.
  - by rewrite length_insert, length_replicate.
  - apply Forall_insert; [|lia]. apply Forall_replicate. lia.
  - rewrite list_lookup_insert_ne by done. by apply lookup_replicate_2.
Qed.

(** A dedicated edge for [amount] crates of the pair [(i, j)], with the
    demand reduced by as much. *)
Lemma inv_ship st i j amount cr :
  inv st → (i < city_count)%nat → (j < city_count)%nat →
  0 < amount → amount ≤ entry (crates st) i j → amount ≤ plane_cap →
  debited (crates st) cr i j amount →
  inv (mk_state cr (edges st ++ [new_edge i j amount]) (constraints st)
                (history st ++ [new_edge i j amount])).
Proof.
  intros Hinv Hi Hj Hpos Hle Hcap (Hshape & Hentry & Hcol).
  assert (Hne : i ≠ j).
  { intros ->. pose proof (inv_diag st Hinv j). lia. }
  pose proof (new_edge_ok i j amount Hne Hi Hj Hpos Hcap) as Hok.
  constructor; simpl.
  - done.
  - intros i' j'. rewrite Hentry. pose proof (inv_nonneg st Hinv i' j').
    case_bool_decide; lia.
  - intros i'. rewrite Hentry. rewrite bool_decide_eq_false_2.
    + by apply inv_diag.
    + intros [-> ->]. done.
  - apply Forall_app. split; [by apply inv_edges|]. by constructor.
  - apply Forall_app. split; [by apply inv_history|].
    constructor; [apply Hok|constructor].
  - by apply inv_order.
  - intros x y Hxy. apply (inv_bounded st Hinv) in Hxy.
    rewrite length_app. simpl. lia.
  - intros x y Hxy. unfold routes. rewrite fmap_app. simpl.
    destruct (inv_generated st Hinv x y Hxy) as [Hd|Hz]; [|by right].
    left. by apply direct_app.
  - intros d. rewrite delivered_snoc, Hcol. simpl.
    pose proof (inv_conserved st Hinv d).
    repeat case_bool_decide; try congruence; try lia.
    subst d. rewrite list_lookup_insert_eq by (by rewrite length_replicate).
    simpl. lia.
Qed.

(** No entry of the demand matrix grows. *)
Definition shrinks (st st' : state) : Prop :=
  ∀ i j, entry (crates st') i j ≤ entry (crates st) i j.

Lemma shrinks_refl st : shrinks st st.
Proof. intros i j. lia. Qed.

Lemma shrinks_trans st1 st2 st3 :
  shrinks st1 st2 → shrinks st2 st3 → shrinks st1 st3.
Proof. intros H1 H2 i j. specialize (H1 i j). specialize (H2 i j). lia. Qed.

(** [add_edge(i, j, amount)] followed by the update of [crates[i, j]]. *)
Lemma ship_spec st i j amount :
  inv st → (i < city_count)%nat → (j < city_count)%nat →
  0 < amount → amount ≤ entry (crates st) i j → amount ≤ plane_cap →
  ∃ st1 cr,
    add_edge plane_cap city_count i j amount st = Ok st1 ∧
    crates st1 = crates st ∧
    set2 (crates st) i j (entry (crates st) i j - amount) = Ok cr ∧
    inv (with_crates st1 cr) ∧ shrinks st (with_crates st1 cr) ∧
    entry cr i j = entry (crates st) i j - amount.
Proof.
  intros Hinv Hi Hj Hpos Hle Hcap.
  destruct (set2_debited (crates st) i j amount (inv_shape st Hinv) Hi Hj)
    as (cr & Hset & Hdeb).
  eexists _, cr. split; [by apply add_edge_returns|]. split; [done|].
  split; [done|]. unfold with_crates. simpl. split_and!.
  - by apply inv_ship.
  - intros i' j'. simpl. destruct Hdeb as (_ & Hentry & _). rewrite Hentry.
    case_bool_decide as H; [|lia]. destruct H as [-> ->]. lia.
  - destruct Hdeb as (_ & Hentry & _). rewrite Hentry.
    by rewrite bool_decide_eq_true_2.
Qed.

(** **** Committing a path *)

Definition room (es : list Edge.t) (idx : nat) : Z :=
  match es !! idx with
  | Some e => plane_cap - zsum (Edge.cargo e)
  | None => 0
  end.

Lemma remaining_returns es p acc :
  (∀ q, q ∈ p → is_Some (es !! q)) →
  for_each (λ idx acc, let* e := get es idx in
                       Ok (acc ++ [plane_cap - zsum (Edge.cargo e)])) p acc
  = Ok (acc ++ (room es <$> p)).
Proof.
  revert acc. induction p as [|q p IH]; intros acc Hp; simpl.
  - by rewrite app_nil_r.
  - destruct (Hp q) as [e He]; [by left|].
    unfold get. rewrite He. simpl. rewrite IH.
    + unfold room at 2. rewrite He. by rewrite <- app_assoc.
    + intros q' Hq'. apply Hp. by right.
Qed.

Lemma foldl_min_le (xs : list Z) (x : Z) :
  foldl Z.min x xs ≤ x ∧ (∀ y, y ∈ xs → foldl Z.min x xs ≤ y) ∧
  (foldl Z.min x xs = x ∨ foldl Z.min x xs ∈ xs).
Proof.
  revert x. induction xs as [|z xs IH]; intros x; simpl.
  - split_and!; [lia| |by left]. intros y Hy. by apply not_elem_of_nil in Hy.
  - destruct (IH (Z.min x z)) as (H1 & H2 & H3). split_and!.
    + lia.
    + intros y Hy. apply elem_of_cons in Hy as [->|Hy]; [lia|by apply H2].
    + destruct H3 as [H3|H3].
      * rewrite H3. destruct (Z.min_spec x z) as [[? E]|[? E]]; rewrite E.
        -- by left.
        -- right. by left.
      * right. by right.
Qed.

Lemma min_list_returns (xs : list Z) :
  xs ≠ [] → ∃ m, min_list xs = Ok m ∧ (∀ y, y ∈ xs → m ≤ y) ∧ m ∈ xs.
Proof.
  destruct xs as [|x xs]; [done|]. intros _. simpl.
  destruct (foldl_min_le xs x) as (H1 & H2 & H3).
  eexists. split; [done|]. split.
  - intros y Hy. apply elem_of_cons in Hy as [->|Hy]; auto.
  - destruct H3 as [->|H3]; [by left|by right].
Qed.

Definition bump (j : nat) (amount : Z) (e : Edge.t) : Edge.t :=
  Edge.mk (Edge.i e) (Edge.j e)
          (<[j := default 0 (Edge.cargo e !! j) + amount]> (Edge.cargo e)).

Lemma bump_ok j amount e :
  edge_ok e → (j < city_count)%nat → Edge.i e ≠ j →
  0 ≤ amount → amount ≤ plane_cap - zsum (Edge.cargo e) →
  edge_ok (bump j amount e).
Proof.
  intros ((Hne & Hlen & Hnn & Hi & Hsum) & Hj & Hpos) Hjn Hij Ha Hroom.
  destruct (lookup_lt_is_Some_2 (Edge.cargo e) j) as [x Hx]; [lia|].
  assert (0 ≤ x) by (rewrite Forall_lookup in Hnn; by eapply Hnn).
  unfold edge_ok, edge_wf, bump. simpl.
  rewrite (zsum_insert _ j x) by done. rewrite Hx. simpl.
  split_and!; auto; try lia.
  - by rewrite length_insert.
  - apply Forall_insert; [done|lia].
  - by rewrite list_lookup_insert_ne.
Qed.

Lemma increment_returns j amount idx st e :
  edges st !! idx = Some e → (j < length (Edge.cargo e))%nat →
  increment j amount idx st
  = Ok (mk_state (crates st) (<[idx := bump j amount e]> (edges st))
                 (constraints st) (history st ++ [bump j amount e])).
Proof.
  intros He Hj. unfold increment, get. rewrite He. simpl.
  destruct (lookup_lt_is_Some_2 (Edge.cargo e) j) as [x Hx]; [lia|].
  unfold vec_add, get, bump. rewrite Hx. done.
Qed.

Lemma delivered_bump d es idx e j amount :
  es !! idx = Some e → (j < length (Edge.cargo e))%nat →
  delivered d (<[idx := bump j amount e]> es)
  = delivered d es
    + if bool_decide (d = j)
      then amount * (if bool_decide (Edge.j e = j) then 1 else 0) else 0.
Proof.
  intros He Hj. unfold delivered.
  rewrite (zsum_map_insert _ es idx e) by done. simpl.
  destruct (lookup_lt_is_Some_2 (Edge.cargo e) j) as [x Hx]; [lia|].
  destruct (decide (d = j)) as [->|Hdj].
  - rewrite (bool_decide_eq_true_2 (j = j)) by done.
    rewrite list_lookup_insert_eq by done. rewrite Hx. simpl.
    case_bool_decide; lia.
  - rewrite (bool_decide_eq_false_2 (d = j)) by done.
    rewrite list_lookup_insert_ne by done. case_bool_decide; lia.
Qed.

(** State after the loop [for edge_idx in ij_path: ... cargo[j] += amount]. *)
Definition incremented (st : state) (j : nat) (amount : Z) (done : list nat)
    (s : state) : Prop :=
  crates s = crates st ∧ constraints s = constraints st ∧
  length (edges s) = length (edges st) ∧
  (∀ idx, edges s !! idx =
          if bool_decide (idx ∈ done) then bump j amount <$> edges st !! idx
          else edges st !! idx) ∧
  Forall edge_wf (history s) ∧
  (∀ d, delivered d (edges s)
        = delivered d (edges st)
          + if bool_decide (d = j) then amount * hits st j done else 0).

Lemma hits_snoc st j done x :
  hits st j (done ++ [x])
  = hits st j done + match edges st !! x with
                     | Some e => if bool_decide (Edge.j e = j) then 1 else 0
                     | None => 0
                     end.
Proof. unfold hits. rewrite fmap_app, zsum_app. simpl. lia. Qed.

Lemma increments_spec st j amount p :
  inv st → (j < city_count)%nat → NoDup p → 0 ≤ amount →
  (∀ q, q ∈ p → ∃ e, edges st !! q = Some e ∧ Edge.i e ≠ j ∧
                     amount ≤ plane_cap - zsum (Edge.cargo e)) →
  returns (for_each (increment j amount) p st) (incremented st j amount p).
Proof.
  intros Hinv Hj Hnd Ha Hp.
  apply (for_each_outcome_pos _ False (incremented st j amount)).
  - unfold incremented. split_and!; auto.
    + by apply inv_history.
    + intros d. unfold hits. simpl. case_bool_decide; lia.
  - intros done x rest s Heq (Hcr & Hcs & Hlen & Hlook & Hhist & Hdel).
    assert (Hx : x ∈ p) by (rewrite Heq; set_solver).
    assert (Hxd : x ∉ done).
    { rewrite Heq in Hnd. apply NoDup_app in Hnd as (_ & Hdis & _).
      intros Hin. apply (Hdis x Hin). by left. }
    destruct (Hp x Hx) as (e & He & Hij & Hroom).
    assert (Hes : edges s !! x = Some e).
    { rewrite Hlook. by rewrite bool_decide_eq_false_2. }
    assert (Hok : edge_ok e).
    { pose proof (inv_edges st Hinv) as Hall. rewrite Forall_lookup in Hall.
      by eapply Hall. }
    assert (Hjl : (j < length (Edge.cargo e))%nat).
    { destruct Hok as ((_ & Hl & _) & _). lia. }
    rewrite (increment_returns j amount x s e Hes Hjl). simpl.
    unfold incremented. simpl. split_and!; auto.
    + by rewrite length_insert.
    + intros idx. destruct (decide (idx = x)) as [->|Hne].
      * rewrite list_lookup_insert_eq by (by eapply lookup_lt_Some).
        rewrite bool_decide_eq_true_2 by set_solver. by rewrite He.
      * rewrite list_lookup_insert_ne by done. rewrite Hlook.
        rewrite (bool_decide_ext (idx ∈ done ++ [x]) (idx ∈ done)); [done|].
        set_solver.
    + apply Forall_app. split; [done|]. constructor; [|constructor].
      by apply bump_ok.
    + intros d. rewrite (delivered_bump d _ x e j amount Hes Hjl), Hdel.
      rewrite hits_snoc, He. repeat case_bool_decide; lia.
Qed.

Lemma elem_of_consecutive (p : list nat) (x y : nat) :
  (x, y) ∈ consecutive p → ∃ k, p !! k = Some x ∧ p !! S k = Some y.
Proof.
  intros Hin. apply list_elem_of_lookup in Hin as [k Hk].
  unfold consecutive in Hk.
  apply lookup_zip_with_Some in Hk as (x' & y' & Heq & Hx & Hy).
  inversion Heq; subst. exists k. by rewrite lookup_tail in Hy.
Qed.

Lemma forward_closure (p : list nat) (C F : gset (nat * nat)) (k x y : nat) :
  NoDup p → forward p C → p !! k = Some x → p !! S k = Some y →
  (∀ u v, (u, v) ∈ F ↔ Constraints.in_closure C x y u v) → forward p F.
Proof.
  intros Hnd Hfw Hx Hy HF a b u v Hu Hv Huv.
  apply HF in Huv as [Huv|[Hux Hyv]]; [by eapply Hfw|].
  assert (a ≤ k)%nat.
  { destruct Hux as [->|Hux].
    - by rewrite (NoDup_lookup p a k x Hnd Hu Hx).
    - pose proof (Hfw a k u x Hu Hx Hux). lia. }
  assert (S k ≤ b)%nat.
  { destruct Hyv as [->|Hyv].
    - by rewrite (NoDup_lookup p (S k) b v Hnd Hy Hv).
    - pose proof (Hfw (S k) b y v Hy Hv Hyv). lia. }
  lia.
Qed.

Definition store_ok (es : list Edge.t) (C : gset (nat * nat)) : Prop :=
  Constraints.strict_order C ∧ Constraints.bounded (length es) C ∧
  Constraints.generated (direct (routes es)) C.

Lemma add_constraints_spec st p :
  store_ok (edges st) (constraints st) →
  NoDup p → forward p (constraints st) →
  (∀ q, q ∈ p → (q < length (edges st))%nat) →
  (∀ k x y, p !! k = Some x → p !! S k = Some y →
            direct (routes (edges st)) x y) →
  returns (for_each (λ '(prev_edge_idx, next_edge_idx),
                       add_constraint iter_pairs prev_edge_idx next_edge_idx)
                    (consecutive p) st)
          (λ s, crates s = crates st ∧ edges s = edges st ∧
                history s = history st ∧ store_ok (edges st) (constraints s)).
Proof.
  intros Hstore Hnd Hfw Hlt Hchain.
  pose (I := λ (_ : list (nat * nat)) (s : state),
           (crates s = crates st ∧ edges s = edges st ∧
            history s = history st ∧ store_ok (edges st) (constraints s)) ∧
           forward p (constraints s)).
  eapply outcome_weaken;
    [apply (for_each_outcome _ False I (consecutive p) [] st)
    |by intros s [H _]|done].
  - unfold I. split_and!; auto.
  - intros done [x y] s Hin ((Hcr & Hes & Hhist & Hso & Hbd & Hgen) & Hfw').
    apply elem_of_consecutive in Hin as (k & Hx & Hy).
    unfold add_constraint. rewrite Hes.
    destruct (Constraints.add_constraint_ok iter_pairs (length (edges st))
                (constraints s) x y) as (F & HF & Hclo); auto.
    + apply Hso.
    + apply Hlt. by eapply list_elem_of_lookup_2.
    + apply Hlt. by eapply list_elem_of_lookup_2.
    + intros Hyx. pose proof (Hfw' (S k) k y x Hy Hx Hyx). lia.
    + intros ->. pose proof (NoDup_lookup p k (S k) y Hnd Hx Hy). lia.
    + rewrite HF. simpl. unfold I, store_ok. simpl.
      assert (Hyx : (y, x) ∉ constraints s).
      { intros Hyx. pose proof (Hfw' (S k) k y x Hy Hx Hyx). lia. }
      assert (Hne : x ≠ y).
      { intros ->. pose proof (NoDup_lookup p k (S k) y Hnd Hx Hy). lia. }
      destruct Hso as [Htr Hirr]. split_and!; auto.
      * split.
        -- by eapply (Constraints.closure_transitive (constraints s) x y).
        -- by eapply (Constraints.closure_irreflexive (constraints s) x y).
      * eapply Constraints.closure_bounded; eauto;
          apply Hlt; by eapply list_elem_of_lookup_2.
      * eapply Constraints.closure_generated; eauto.
      * eapply (forward_closure p (constraints s) F k x y); eauto.
Qed.

Lemma incremented_routes st j amount p s :
  incremented st j amount p s → routes (edges s) = routes (edges st).
Proof.
  intros (_ & _ & _ & Hlook & _). apply list_eq. intros idx.
  unfold routes. rewrite !list_lookup_fmap, Hlook.
  case_bool_decide; [|done]. by destruct (edges st !! idx).
Qed.

Lemma commit_path_spec st i j p :
  inv st → (i < city_count)%nat → (j < city_count)%nat →
  0 < entry (crates st) i j →
  path_to plane_cap st i j p →
  returns (commit_path plane_cap iter_pairs i j p st)
          (λ st', inv st' ∧ shrinks st st' ∧
                  entry (crates st') i j < entry (crates st) i j).
Proof.
  intros Hinv Hi Hj Hc Hpath.
  assert (Hne : i ≠ j).
  { intros ->. pose proof (inv_diag st Hinv j). lia. }
  destruct (path_to_summary plane_cap st i j p
              (proj2 (inv_order st Hinv)) Hne Hpath)
    as (Hnil & Hnd & Hp & Hhits & Hfw & Hchain).
  unfold commit_path, returns.
  rewrite remaining_returns
    by (intros q Hq; destruct (Hp q Hq) as (e & -> & _); eauto).
  rewrite app_nil_l. cbn [bind].
  destruct (min_list_returns (room (edges st) <$> p)) as (m & -> & Hmin & Hm).
  { by destruct p. }
  cbn [bind].
  rewrite (get2_shaped city_count) by (auto using inv_shape). cbn [bind].
  set (c := entry (crates st) i j) in *.
  set (amount := Z.min m c).
  assert (Hm1 : 1 ≤ m).
  { apply list_elem_of_fmap in Hm as (q & -> & Hq).
    destruct (Hp q Hq) as (e & He & Hroom & _). unfold room. rewrite He. lia. }
  assert (Hp' : ∀ q, q ∈ p → ∃ e, edges st !! q = Some e ∧ Edge.i e ≠ j ∧
                                  amount ≤ plane_cap - zsum (Edge.cargo e)).
  { intros q Hq. destruct (Hp q Hq) as (e & He & Hroom & Hij).
    exists e. split_and!; auto.
    assert (m ≤ room (edges st) q)
      by (apply Hmin, list_elem_of_fmap; eauto).
    unfold room in H. rewrite He in H. lia. }
  eapply outcome_bind.
  { apply (increments_spec st j amount p); auto. lia. }
  intros s1 Hinc. pose proof (incremented_routes _ _ _ _ _ Hinc) as Hroutes.
  destruct Hinc as (Hcr1 & Hcs1 & Hlen1 & Hlook1 & Hhist1 & Hdel1).
  eapply outcome_bind.
  { apply (add_constraints_spec s1 p); auto.
    - unfold store_ok. rewrite Hcs1, Hlen1, Hroutes.
      split_and!; [apply Hinv|apply Hinv|apply Hinv].
    - by rewrite Hcs1.
    - intros q Hq. destruct (Hp q Hq) as (e & He & _). rewrite Hlen1.
      by eapply lookup_lt_Some.
    - by rewrite Hroutes. }
  intros s2 (Hcr2 & Hes2 & Hhist2 & Hso & Hbd & Hgen). cbn beta.
  rewrite Hcr2, Hcr1.
  rewrite (get2_shaped city_count) by (auto using inv_shape). cbn [bind].
  destruct (set2_debited (crates st) i j amount (inv_shape st Hinv) Hi Hj)
    as (cr & Hset & Hshape & Hentry & Hcol).
  rewrite Hset. simpl.
  split.
  - constructor; simpl.
    + done.
    + intros i' j'. rewrite Hentry. pose proof (inv_nonneg st Hinv i' j').
      fold c. case_bool_decide; lia.
    + intros i'. rewrite Hentry. rewrite bool_decide_eq_false_2.
      * by apply inv_diag.
      * intros [-> ->]. done.
    + rewrite Hes2. apply Forall_lookup. intros idx e He.
      rewrite Hlook1 in He. pose proof (inv_edges st Hinv) as Hall.
      rewrite Forall_lookup in Hall. case_bool_decide as Hin.
      * destruct (Hp' idx Hin) as (e0 & He0 & Hij & Hroom).
        rewrite He0 in He. simpl in He. inversion He; subst.
        apply bump_ok; eauto. lia.
      * by eapply Hall.
    + by rewrite Hhist2.
    + done.
    + by rewrite Hes2.
    + by rewrite Hes2.
    + intros d. rewrite Hes2, Hdel1, Hcol, Hhits.
      pose proof (inv_conserved st Hinv d). case_bool_decide; lia.
  - split.
    + intros i' j'. simpl. rewrite Hentry. fold c. case_bool_decide; [|lia].
      destruct H as [-> ->]. fold c. lia.
    + rewrite Hentry. rewrite bool_decide_eq_true_2 by done. fold c. lia.
Qed.

(** **** The loops of [plan_edges] *)

Lemma bulk_loop_spec fuel :
  ∀ st i j,
    inv st → (i < city_count)%nat → (j < city_count)%nat →
    (Z.to_nat (entry (crates st) i j) < fuel)%nat →
    returns (bulk_loop plane_cap city_count fuel i j st)
            (λ st', inv st' ∧ shrinks st st' ∧
                    entry (crates st') i j < plane_cap).
Proof.
  induction fuel as [|fuel IH]; intros st i j Hinv Hi Hj Hfuel; [lia|].
  unfold returns. cbn [bulk_loop].
  rewrite (get2_shaped city_count) by (auto using inv_shape). cbn [bind].
  case_bool_decide as Hc.
  - destruct (ship_spec st i j plane_cap) as (st1 & cr & -> & Hcr & Hset & Hinv1
                                                & Hshr & Hent); auto; try lia.
    cbn [bind]. rewrite Hcr.
    rewrite (get2_shaped city_count) by (auto using inv_shape). cbn [bind].
    rewrite Hset. cbn [bind].
    eapply outcome_weaken; [apply IH; auto| |done].
    + simpl. lia.
    + intros st' (Hinv' & Hshr' & Hlt). split_and!; auto.
      by eapply shrinks_trans.
  - simpl. split_and!; auto using shrinks_refl. lia.
Qed.

Lemma inv_edges_in_range st :
  inv st → ∀ idx e, edges st !! idx = Some e → (Edge.j e < city_count)%nat.
Proof.
  intros Hinv idx e He. pose proof (inv_edges st Hinv) as Hall.
  rewrite Forall_lookup in Hall. by destruct (Hall idx e He) as (_ & ? & _).
Qed.

Lemma reuse_loop_spec fuel :
  ∀ st i j,
    inv st → (i < city_count)%nat → (j < city_count)%nat →
    (Z.to_nat (entry (crates st) i j) < fuel)%nat →
    returns (reuse_loop plane_cap city_count iter_pairs fuel i j st)
            (λ st', inv st' ∧ shrinks st st').
Proof.
  induction fuel as [|fuel IH]; intros st i j Hinv Hi Hj Hfuel; [lia|].
  unfold returns. cbn [reuse_loop].
  rewrite (get2_shaped city_count) by (auto using inv_shape). cbn [bind].
  case_bool_decide as Hc; [|simpl; auto using shrinks_refl].
  eapply outcome_bind.
  { apply (find_path_spec plane_cap city_count st i
             (inv_edges_in_range st Hinv) j Hi Hj). }
  intros [p|] Hp; [|simpl; auto using shrinks_refl].
  eapply outcome_bind.
  { apply (commit_path_spec st i j p); auto. }
  intros st' (Hinv' & Hshr & Hlt). cbn beta.
  eapply outcome_weaken; [apply IH; auto| |done].
  - pose proof (inv_nonneg st' Hinv' i j). lia.
  - intros st'' [Hinv'' Hshr']. split; [done|]. by eapply shrinks_trans.
Qed.

Lemma plan_pair_spec st i j :
  inv st → (i < city_count)%nat → (j < city_count)%nat →
  returns (plan_pair plane_cap city_count iter_pairs (i, j) st)
          (λ st', inv st' ∧ shrinks st st' ∧ entry (crates st') i j = 0).
Proof.
  intros Hinv Hi Hj. unfold returns, plan_pair.
  rewrite (get2_shaped city_count) by (auto using inv_shape). cbn [bind].
  eapply outcome_bind.
  { apply bulk_loop_spec; auto. }
  intros st1 (Hinv1 & Hshr1 & Hlt1). cbn beta.
  rewrite (get2_shaped city_count) by (auto using inv_shape). cbn [bind].
  eapply outcome_bind.
  { apply reuse_loop_spec; auto. }
  intros st2 (Hinv2 & Hshr2). cbn beta.
  rewrite (get2_shaped city_count) by (auto using inv_shape). cbn [bind].
  pose proof (Hshr2 i j) as Hle2. pose proof (inv_nonneg st2 Hinv2 i j) as Hnn2.
  case_bool_decide as Hc.
  - destruct (ship_spec st2 i j (entry (crates st2) i j))
      as (st3 & cr & -> & Hcr & Hset & Hinv3 & Hshr3 & Hent); auto; try lia.
    cbn [bind]. rewrite Hcr. rewrite Z.sub_diag in Hset. rewrite Hset.
    simpl. split_and!; auto.
    + eapply shrinks_trans; [|exact Hshr3]. by eapply shrinks_trans.
    + lia.
  - simpl. split_and!; auto; [by eapply shrinks_trans|lia].
Qed.

End Invariant.

Section Results.
Variable plane_cap : Z.
Variable city_count : nat.
Variable iter_pairs : gset (nat * nat) → list (nat * nat).
Hypothesis iter_pairs_perm : ∀ X, iter_pairs X ≡ₚ elements X.
Variable crates : list (list Z).
Hypothesis instance_wf : well_formed plane_cap city_count crates.

Lemma elem_of_all_pairs i j :
  (i, j) ∈ all_pairs city_count ↔ (i < city_count)%nat ∧ (j < city_count)%nat.
Proof.
  unfold all_pairs. rewrite list_elem_of_bind. split.
  - intros (i' & Hin & Hi'). apply list_elem_of_bind in Hin as (j' & Hin & Hj').
    apply list_elem_of_singleton in Hin. inversion Hin; subst.
    apply elem_of_seq in Hi', Hj'. lia.
  - intros [Hi Hj]. exists i. split; [|apply elem_of_seq; lia].
    apply list_elem_of_bind. exists j. split; [|apply elem_of_seq; lia].
    by apply list_elem_of_singleton.
Qed.

Lemma inv_init : inv plane_cap city_count crates (mk_state crates [] ∅ []).
Proof.
  destruct instance_wf as (Hcap & Hshape & Hnn & Hd).
  constructor; simpl; auto.
  - by eapply well_formed_nonneg.
  - by eapply well_formed_diag.
  - split; [intros x y z H|intros x H]; by apply not_elem_of_empty in H.
  - intros x y H. by apply not_elem_of_empty in H.
  - intros x y H. by apply not_elem_of_empty in H.
Qed.

(** The run of [plan_edges]: it returns, the invariant holds of the final
    state, and the demand matrix is used up. *)
Lemma plan_edges_spec :
  returns (plan_edges plane_cap city_count iter_pairs crates)
          (λ st, inv plane_cap city_count crates st ∧
                 ∀ i j, entry (EdgePlanner.crates st) i j = 0).
Proof.
  destruct instance_wf as (Hcap & Hshape & Hnn & Hd).
  unfold plan_edges. cbv zeta.
  destruct (sorted_by_key_desc_returns (demand crates) (all_pairs city_count))
    as (ij_order & -> & Hperm).
  { intros [i j] [Hi Hj]%elem_of_all_pairs. exists (entry crates i j).
    by apply (get2_shaped city_count). }
  cbn [bind].
  pose (I := λ (done : list (nat * nat)) (st : state),
           inv plane_cap city_count crates st ∧
           ∀ i j, (i, j) ∈ done → entry (EdgePlanner.crates st) i j = 0).
  eapply outcome_weaken;
    [apply (for_each_outcome _ False I ij_order [] (mk_state crates [] ∅ []))
    | |done].
  - split; [apply inv_init|]. intros i j H. by apply not_elem_of_nil in H.
  - intros done [i j] st Hin [Hinv Hzero].
    rewrite Hperm in Hin. apply elem_of_all_pairs in Hin as [Hi Hj].
    eapply outcome_weaken; [by apply plan_pair_spec| |done].
    intros st' (Hinv' & Hshr & Hz). split; [done|].
    intros i' j' Hin'. apply elem_of_app in Hin' as [Hin'|Hin'].
    + pose proof (Hzero i' j' Hin'). pose proof (Hshr i' j').
      pose proof (inv_nonneg _ _ _ st' Hinv' i' j'). lia.
    + apply list_elem_of_singleton in Hin'. by inversion Hin'; subst.
  - intros st [Hinv Hzero]. split; [done|]. intros i j.
    destruct (decide ((i < city_count)%nat ∧ (j < city_count)%nat)) as [Hin|Hout].
    + apply Hzero. simpl. rewrite Hperm. by apply elem_of_all_pairs.
    + eapply entry_out_of_range; [exact (inv_shape _ _ _ st Hinv)|done].
Qed.

End Results.

(** C1. Conservation: once [plan_edges] has run on a well-formed instance,
    for every destination city [d] the cargo for [d] on the edges that land
    in [d] adds up to the original demand [Σ_i crates[i, d]]. *)
Theorem plan_edges_conservation plane_cap city_count iter_pairs crates :
  (∀ X, iter_pairs X ≡ₚ elements X) →
  well_formed plane_cap city_count crates →
  ∃ st, plan_edges plane_cap city_count iter_pairs crates = Ok st ∧
        ∀ d, (d < city_count)%nat →
             delivered d (edges st) = column_sum crates d.
Proof.
  intros Hperm Hwf.
  destruct (returns_inv _ _ (plan_edges_spec _ _ _ Hperm _ Hwf))
    as (st & Hrun & Hinv & Hzero).
  exists st. split; [done|]. intros d _.
  pose proof (inv_conserved _ _ _ st Hinv d) as Hc.
  rewrite (column_sum_zero _ d Hzero) in Hc. lia.
Qed.

(** C2. Every edge [plan_edges] produces on a well-formed instance is
    well-formed: the two cities differ, the cargo vector has [city_count]
    non-negative entries, carries nothing for the city the edge leaves, and
    sums to at most [plane_cap]; this holds of the edge as [add_edge] creates
    it and as it is after every cargo increment of a committed path (the
    values recorded in [history]). *)
Theorem plan_edges_edges_wf plane_cap city_count iter_pairs crates :
  (∀ X, iter_pairs X ≡ₚ elements X) →
  well_formed plane_cap city_count crates →
  ∃ st, plan_edges plane_cap city_count iter_pairs crates = Ok st ∧
        Forall (edge_wf plane_cap city_count) (edges st) ∧
        Forall (edge_wf plane_cap city_count) (history st).
Proof.
  intros Hperm Hwf.
  destruct (returns_inv _ _ (plan_edges_spec _ _ _ Hperm _ Hwf))
    as (st & Hrun & Hinv & Hzero).
  exists st. split; [done|]. split.
  - eapply Forall_impl; [exact (inv_edges _ _ _ st Hinv)|]. by intros e [? _].
  - exact (inv_history _ _ _ st Hinv).
Qed.

(** C7. [plan_edges] is total on every well-formed instance; in particular,
    in every state satisfying the planner's invariant, a path that
    [find_path] returns is committed without an exception: the assertions of
    [add_constraint] hold for each pair of consecutive edges of the path. *)
Theorem plan_edges_total plane_cap city_count iter_pairs crates :
  (∀ X, iter_pairs X ≡ₚ elements X) →
  well_formed plane_cap city_count crates →
  (∃ st, plan_edges plane_cap city_count iter_pairs crates = Ok st) ∧
  (∀ st i j p,
     inv plane_cap city_count crates st →
     (i < city_count)%nat → (j < city_count)%nat →
     0 < entry (EdgePlanner.crates st) i j →
     find_path plane_cap city_count i j st = Ok (Some p) →
     ∃ st', commit_path plane_cap iter_pairs i j p st = Ok st').
Proof.
  intros Hperm Hwf. split.
  - destruct (returns_inv _ _ (plan_edges_spec _ _ _ Hperm _ Hwf))
      as (st & Hrun & _).
    by exists st.
  - intros st i j p Hinv Hi Hj Hc Hfind.
    pose proof (find_path_spec plane_cap city_count st i
                  (inv_edges_in_range _ _ _ st Hinv) j Hi Hj) as Hspec.
    unfold returns in Hspec. rewrite Hfind in Hspec. simpl in Hspec.
    destruct Hwf as (Hcap & _).
    destruct (returns_inv _ _
                (commit_path_spec plane_cap city_count iter_pairs Hcap Hperm
                   crates st i j p Hinv Hi Hj Hc (Hspec p eq_refl)))
      as (st' & Hrun & _).
    by exists st'.
Qed.

(** C8, as the code has it: [plan_edges] works on the caller's matrix, and
    when it returns every entry of that matrix is zero. *)
Theorem plan_edges_consumes_demand plane_cap city_count iter_pairs crates :
  (∀ X, iter_pairs X ≡ₚ elements X) →
  well_formed plane_cap city_count crates →
  ∃ st, plan_edges plane_cap city_count iter_pairs crates = Ok st ∧
        EdgePlanner.crates st = replicate city_count (replicate city_count 0).
Proof.
  intros Hperm Hwf.
  destruct (returns_inv _ _ (plan_edges_spec _ _ _ Hperm _ Hwf))
    as (st & Hrun & Hinv & Hzero).
  exists st. split; [done|].
  apply zero_matrix; [exact (inv_shape _ _ _ st Hinv)|done].
Qed.

(** A four-city instance with transshipment: the crates from 0 to 3 ride the
    edges 0→1, 1→2 and 2→3. *)
Definition example_crates : list (list Z) :=
  [[0; 25; 0; 3]; [0; 0; 20; 4]; [0; 0; 0; 10]; [0; 0; 0; 0]].

Lemma example_well_formed : well_formed 30 4 example_crates.
Proof.
  unfold well_formed, shaped, example_crates.
  split; [lia|]. split; [split; [done|]|].
  - repeat constructor.
  - split.
    + repeat (constructor; try lia).
    + repeat (constructor; try done).
Qed.

Lemma elements_perm (X : gset (nat * nat)) : elements X ≡ₚ elements X.
Proof. reflexivity. Qed.

Lemma plan_edges_conservation_witness :
  well_formed 30 4 example_crates ∧
  ∃ st, plan_edges 30 4 elements example_crates = Ok st ∧
        ∀ d, (d < 4)%nat → delivered d (edges st) = column_sum example_crates d.
Proof.
  split; [exact example_well_formed|].
  exact (plan_edges_conservation 30 4 elements example_crates elements_perm
           example_well_formed).
Defined.

Lemma plan_edges_edges_wf_witness :
  well_formed 30 4 example_crates ∧
  ∃ st, plan_edges 30 4 elements example_crates = Ok st ∧
        Forall (edge_wf 30 4) (edges st) ∧ Forall (edge_wf 30 4) (history st).
Proof.
  split; [exact example_well_formed|].
  exact (plan_edges_edges_wf 30 4 elements example_crates elements_perm
           example_well_formed).
Defined.

Lemma plan_edges_total_witness :
  well_formed 30 4 example_crates ∧
  ∃ st, plan_edges 30 4 elements example_crates = Ok st.
Proof.
  split; [exact example_well_formed|].
  exact (proj1 (plan_edges_total 30 4 elements example_crates elements_perm
                  example_well_formed)).
Defined.

Lemma plan_edges_consumes_demand_witness :
  well_formed 30 4 example_crates ∧
  ∃ st, plan_edges 30 4 elements example_crates = Ok st ∧
        EdgePlanner.crates st = replicate 4 (replicate 4 0).
Proof.
  split; [exact example_well_formed|].
  exact (plan_edges_consumes_demand 30 4 elements example_crates elements_perm
           example_well_formed).
Defined.

(** C8 as the specification states it fails: on the single-pair instance
    the matrix the caller passed no longer holds the 15 crates after
    [plan_edges] has returned. *)
Lemma plan_edges_mutates_demand :
  well_formed 30 2 [[0; 15]; [0; 0]] ∧
  ∃ st, plan_edges 30 2 elements [[0; 15]; [0; 0]] = Ok st ∧
        EdgePlanner.crates st = [[0; 0]; [0; 0]] ∧
        EdgePlanner.crates st ≠ [[0; 15]; [0; 0]].
Proof.
  split.
  - unfold well_formed, shaped.
    split; [lia|]. split; [split; [done|]|].
    + repeat constructor.
    + split.
      * repeat (constructor; try lia).
      * repeat (constructor; try done).
  - exists (mk_state [[0; 0]; [0; 0]] [Edge.mk 0 1 [0; 15]] ∅
                     [Edge.mk 0 1 [0; 15]]).
    split; [vm_compute; reflexivity|]. split; [reflexivity|].
    simpl. intros H. inversion H.
Qed.

End EdgePlanner.

(** ** The plane planner: [plan_planes] *)

(** [PlaneEdge = namedtuple("PlaneEdge", ["plane_idx", "i", "j", "cargo"])]. *)
Module PlaneEdge.
Record t : Type := mk { plane_idx : nat; i : nat; j : nat; cargo : list Z }.
End PlaneEdge.

(** [sets[c].add(idx)] and [sets[c].remove(idx)] on a list of sets. *)
Definition set_add (sets : list (gset nat)) (c idx : nat)
  : result (list (gset nat)) :=
  let* s := get sets c in Ok (<[c := {[idx]} ∪ s]> sets).

Definition set_remove (sets : list (gset nat)) (c idx : nat)
  : result (list (gset nat)) :=
  let* s := get sets c in
  if bool_decide (idx ∈ s) then Ok (<[c := s ∖ {[idx]}]> sets)
  else Raise KeyError.

(** [sets[c]] where [c] ranges over [range(city_count)] and [sets] is one of
    the lists of [city_count] sets that [plan_planes] creates and never
    resizes: the lookup cannot fail. *)
Definition set_at (sets : list (gset nat)) (c : nat) : gset nat :=
  default ∅ (sets !! c).

(** [max(x :: xs, key=key)] and [min(x :: xs, key=key)]: the first element
    with the largest, respectively smallest, key. *)
Definition max_by {A : Type} (key : A → Z) (x : A) (xs : list A) : A :=
  foldl (λ best y, if key best <? key y then y else best) x xs.

Definition min_by {A : Type} (key : A → Z) (x : A) (xs : list A) : A :=
  foldl (λ best y, if key y <? key best then y else best) x xs.

Lemma max_by_elem {A : Type} (key : A → Z) (x : A) (xs : list A) :
  max_by key x xs ∈ x :: xs.
Proof.
  unfold max_by. revert x. induction xs as [|y xs IH]; intros x; simpl.
  - by left.
  - destruct (key x <? key y).
    + right. apply IH.
    + specialize (IH x). apply elem_of_cons in IH as [->|IH];
        [by left|by right; right].
Qed.

Lemma min_by_elem {A : Type} (key : A → Z) (x : A) (xs : list A) :
  min_by key x xs ∈ x :: xs.
Proof.
  unfold min_by. revert x. induction xs as [|y xs IH]; intros x; simpl.
  - by left.
  - destruct (key y <? key x).
    + right. apply IH.
    + specialize (IH x). apply elem_of_cons in IH as [->|IH];
        [by left|by right; right].
Qed.

Module PlanePlanner.

Section Planner.
Variable city_count : nat.
Variable iter_pairs : gset (nat * nat) → list (nat * nat).
Variable iter_idx : gset nat → list nat.

(** State of numpy's global generator and [np.random.randint]. *)
Variable G : Type.
Variable randint : G → nat → nat * G.

Variable edges : list Edge.t.
Variable constraints : gset (nat * nat).

(** The variables [plan_planes] and its closures share, and the generator.
    [trace] is a ghost log with one entry per flight of [plane_edges]: the
    index of the edge the flight executes, or [None] for a jump. *)
Record state : Type := mk_state {
  all_out_edges : list (gset nat);
  all_in_edges : list (gset nat);
  available_out_edges : list (gset nat);
  available_in_edges : list (gset nat);
  visited_edges : gset nat;
  plane_edges : list PlaneEdge.t;
  plane_pos : list nat;
  rng : G;
  trace : list (option nat)
}.

Definition is_available (idx : nat) (st : state) : bool :=
  forallb (λ '(ei, ej), if bool_decide (ej = idx)
                        then bool_decide (ei ∈ visited_edges st) else true)
          (iter_pairs constraints).

Definition make_available (idx : nat) (st : state) : result state :=
  let* edge := get edges idx in
  let* ao := set_add (available_out_edges st) (Edge.i edge) idx in
  let* ai := set_add (available_in_edges st) (Edge.j edge) idx in
  Ok (mk_state (all_out_edges st) (all_in_edges st) ao ai (visited_edges st)
               (plane_edges st) (plane_pos st) (rng st) (trace st)).

(** Body of the initial [for idx, edge in enumerate(edges)]. *)
Definition register_edge (ie : nat * Edge.t) (st : state) : result state :=
  let '(idx, edge) := ie in
  let* st := if is_available idx st then make_available idx st else Ok st in
  let* ao := set_add (all_out_edges st) (Edge.i edge) idx in
  let* ai := set_add (all_in_edges st) (Edge.j edge) idx in
  Ok (mk_state ao ai (available_out_edges st) (available_in_edges st)
               (visited_edges st) (plane_edges st) (plane_pos st) (rng st)
               (trace st)).

(** Body of [for unlock_idx in all_out_edges[edge.j]] in [visit_edge]. *)
Definition unlock (city : nat) (unlock_idx : nat) (st : state) : result state :=
  let is_visited := bool_decide (unlock_idx ∈ visited_edges st) in
  let* out := get (available_out_edges st) city in
  let is_already_available := bool_decide (unlock_idx ∈ out) in
  if negb is_visited && negb is_already_available && is_available unlock_idx st
  then make_available unlock_idx st
  else Ok st.

Definition visit_edge (idx : nat) (st : state) : result state :=
  let* edge := get edges idx in
  let* ao := set_remove (available_out_edges st) (Edge.i edge) idx in
  let* ai := set_remove (available_in_edges st) (Edge.j edge) idx in
  let st := mk_state (all_out_edges st) (all_in_edges st) ao ai
                     ({[idx]} ∪ visited_edges st) (plane_edges st)
                     (plane_pos st) (rng st) (trace st) in
  let* candidates := get (all_out_edges st) (Edge.j edge) in
  for_each (unlock (Edge.j edge)) (iter_idx candidates) st.

Definition emit (f : PlaneEdge.t) (t : option nat) (st : state) : state :=
  mk_state (all_out_edges st) (all_in_edges st) (available_out_edges st)
           (available_in_edges st) (visited_edges st) (plane_edges st ++ [f])
           (plane_pos st) (rng st) (trace st ++ [t]).

Definition with_rng (st : state) (g : G) : state :=
  mk_state (all_out_edges st) (all_in_edges st) (available_out_edges st)
           (available_in_edges st) (visited_edges st) (plane_edges st)
           (plane_pos st) g (trace st).

Definition with_plane_pos (st : state) (pos : list nat) : state :=
  mk_state (all_out_edges st) (all_in_edges st) (available_out_edges st)
           (available_in_edges st) (visited_edges st) (plane_edges st)
           pos (rng st) (trace st).

(** [while True: ...] of [extend_journey]; the loop state is
    [(i, extended)] and the shared variables. *)
Fixpoint extend_loop (fuel : nat) (plane_idx : nat) (i : nat) (extended : bool)
    (st : state) : result (nat * bool * state) :=
  match fuel with
  | O => OutOfFuel
  | S fuel' =>
    let* out := get (available_out_edges st) i in
    let out_edges := iter_idx out in
    if bool_decide (0 < length out_edges)%nat then
      let '(k, g) := randint (rng st) (length out_edges) in
      let* idx := get out_edges k in
      let* st := visit_edge idx (with_rng st g) in
      let* edge := get edges idx in
      let st := emit (PlaneEdge.mk plane_idx (Edge.i edge) (Edge.j edge)
                                   (Edge.cargo edge)) (Some idx) st in
      extend_loop fuel' plane_idx (Edge.j edge) true st
    else Ok (i, extended, st)
  end.

Definition extend_journey (plane_idx : nat) (st : state)
  : result (bool * state) :=
  let* i := get (plane_pos st) plane_idx in
  let* (i, extended, st) :=
    extend_loop (S (length edges)) plane_idx i false st in
  let* _ := get (plane_pos st) plane_idx in
  Ok (extended, with_plane_pos st (<[plane_idx := i]> (plane_pos st))).

(** One round over the planes: [for plane_idx in range(len(planes))]. *)
Definition extend_pass (planes : list nat) (st : state) : result (bool * state) :=
  for_each (λ plane_idx '(extended, st),
              let* (e, st) := extend_journey plane_idx st in
              Ok (extended || e, st))
           (seq 0 (length planes)) (false, st).

(** The inner [while True] of the schedule: rounds until none extends. *)
Fixpoint extend_phase (fuel : nat) (planes : list nat) (st : state)
  : result state :=
  match fuel with
  | O => OutOfFuel
  | S fuel' =>
    let* (extended, st) := extend_pass planes st in
    if negb extended then Ok st else extend_phase fuel' planes st
  end.

Definition supply (st : state) (j : nat) : Z :=
  Z.of_nat (size (set_at (available_out_edges st) j))
  - Z.of_nat (size (set_at (available_in_edges st) j)).

Definition local_work (st : state) (ii : nat * nat) : result Z :=
  let* out := get (all_out_edges st) ii.2 in
  Ok (Z.of_nat (size (out ∖ visited_edges st))).

(** The jump of one plane to [jump_j]. *)
Definition jump (jump_j0 : nat) (jump_js : list nat) (st : state)
  : result state :=
  let jump_j := max_by (supply st) jump_j0 jump_js in
  let* keyed := with_keys (local_work st) (imap pair (plane_pos st)) in
  match keyed with
  | [] => Raise ValueError
  | ii :: iis =>
    let '(jump_plane_idx, jump_i, _) := min_by snd ii iis in
    let* _ := get (plane_pos st) jump_plane_idx in
    let st := with_plane_pos st (<[jump_plane_idx := jump_j]> (plane_pos st)) in
    Ok (emit (PlaneEdge.mk jump_plane_idx jump_i jump_j
                           (replicate city_count 0)) None st)
  end.

(** The outer [while True] of the schedule. *)
Fixpoint schedule (fuel : nat) (planes : list nat) (st : state) : result state :=
  match fuel with
  | O => OutOfFuel
  | S fuel' =>
    let* st := extend_phase (S (length edges)) planes st in
    let jump_js :=
      filter (λ j, (0 < size (set_at (available_out_edges st) j))%nat)
             (seq 0 city_count) in
    match jump_js with
    | [] => Ok st
    | jump_j0 :: jump_js =>
      let* st := jump jump_j0 jump_js st in
      schedule fuel' planes st
    end
  end.

Definition plan_planes_run (planes : list nat) (g : G) : result state :=
  let empty := replicate city_count (∅ : gset nat) in
  let st := mk_state empty empty empty empty ∅ [] planes g [] in
  let* st := for_each register_edge (imap pair edges) st in
  let* st := schedule (S (length edges)) planes st in
  let* _ := assert (bool_decide
                      (visited_edges st = list_to_set (seq 0 (length edges)))) in
  Ok st.

Definition plan_planes (planes : list nat) (g : G)
  : result (list PlaneEdge.t) :=
  let* st := plan_planes_run planes g in Ok (plane_edges st).

End Planner.

Arguments all_out_edges {G} _.
Arguments all_in_edges {G} _.
Arguments available_out_edges {G} _.
Arguments available_in_edges {G} _.
Arguments visited_edges {G} _.
Arguments plane_edges {G} _.
Arguments plane_pos {G} _.
Arguments rng {G} _.
Arguments trace {G} _.
Arguments mk_state {G} _ _ _ _ _ _ _ _ _.

(** *** Sets of edge indices per city *)

Lemma set_at_insert (sets : list (gset nat)) (c c' : nat) (s : gset nat) :
  (c < length sets)%nat →
  set_at (<[c := s]> sets) c' = if bool_decide (c' = c) then s else set_at sets c'.
Proof.
  intros Hc. unfold set_at. case_bool_decide as E.
  - subst c'. by rewrite list_lookup_insert_eq.
  - by rewrite list_lookup_insert_ne.
Qed.

Lemma get_set_at (sets : list (gset nat)) (c : nat) :
  (c < length sets)%nat → get sets c = Ok (set_at sets c).
Proof.
  intros Hc. unfold get, set_at.
  destruct (lookup_lt_is_Some_2 sets c Hc) as [s ->]. done.
Qed.

Lemma set_add_returns (sets : list (gset nat)) (c idx : nat) :
  (c < length sets)%nat →
  set_add sets c idx = Ok (<[c := {[idx]} ∪ set_at sets c]> sets).
Proof. intros Hc. unfold set_add. by rewrite get_set_at. Qed.

Lemma set_remove_returns (sets : list (gset nat)) (c idx : nat) :
  (c < length sets)%nat → idx ∈ set_at sets c →
  set_remove sets c idx = Ok (<[c := set_at sets c ∖ {[idx]}]> sets).
Proof.
  intros Hc Hin. unfold set_remove. rewrite get_set_at by done. simpl.
  by rewrite bool_decide_eq_true_2.
Qed.

Section Spec.
Variable city_count : nat.
Variable iter_pairs : gset (nat * nat) → list (nat * nat).
Variable iter_idx : gset nat → list nat.
Variable G : Type.
Variable randint : G → nat → nat * G.
Variable edges : list Edge.t.
Variable constraints : gset (nat * nat).

Hypothesis iter_pairs_perm : ∀ X, iter_pairs X ≡ₚ elements X.
Hypothesis iter_idx_perm : ∀ X, iter_idx X ≡ₚ elements X.
Hypothesis randint_lt : ∀ g n, (0 < n)%nat → ((randint g n).1 < n)%nat.
Hypothesis edges_in_range :
  ∀ idx e, edges !! idx = Some e →
           (Edge.i e < city_count)%nat ∧ (Edge.j e < city_count)%nat.
Hypothesis constraints_order : Constraints.strict_order constraints.
Hypothesis constraints_bounded :
  Constraints.bounded (length edges) constraints.
Hypothesis constraints_generated :
  Constraints.generated (EdgePlanner.direct (EdgePlanner.routes edges))
                        constraints.

Abbreviation state := (state G).

Lemma elem_of_iter_idx (X : gset nat) (x : nat) : x ∈ iter_idx X ↔ x ∈ X.
Proof. by rewrite iter_idx_perm, elem_of_elements. Qed.

(** Every edge that has to precede [idx] is in [V]. *)
Definition preds_in (V : gset nat) (idx : nat) : Prop :=
  ∀ a, (a, idx) ∈ constraints → a ∈ V.

Lemma is_available_spec (idx : nat) (st : state) :
  is_available iter_pairs G constraints idx st = true
  ↔ preds_in (visited_edges st) idx.
Proof.
  unfold is_available, preds_in. rewrite forallb_forall. split.
  - intros H a Ha.
    assert (Hin : In (a, idx) (iter_pairs constraints)).
    { apply list_elem_of_In. by rewrite iter_pairs_perm, elem_of_elements. }
    specialize (H _ Hin). simpl in H.
    rewrite (bool_decide_eq_true_2 (idx = idx)) in H by done.
    by apply bool_decide_eq_true_1 in H.
  - intros H [ei ej] Hin. case_bool_decide as E; [|done]. subst ej.
    apply bool_decide_eq_true_2, H.
    apply list_elem_of_In in Hin.
    by rewrite iter_pairs_perm, elem_of_elements in Hin.
Qed.

Definition leaves (idx c : nat) : Prop :=
  ∃ e, edges !! idx = Some e ∧ Edge.i e = c.

(** The index sets. [registered] holds of the edges the initial loop has
    reached; [pending] holds of the edges a running [visit_edge] has still
    to look at. *)
Record sets_inv (registered pending : nat → Prop) (st : state) : Prop :=
  mk_sets_inv {
  len_all_out : length (all_out_edges st) = city_count;
  len_all_in : length (all_in_edges st) = city_count;
  len_available_out : length (available_out_edges st) = city_count;
  len_available_in : length (available_in_edges st) = city_count;
  all_out_spec :
    ∀ c idx, idx ∈ set_at (all_out_edges st) c ↔ leaves idx c ∧ registered idx;
  visited_valid : ∀ idx, idx ∈ visited_edges st → (idx < length edges)%nat;
  visited_closed : ∀ b, b ∈ visited_edges st → preds_in (visited_edges st) b;
  available_sound :
    ∀ c idx, idx ∈ set_at (available_out_edges st) c →
             leaves idx c ∧ (idx ∉ visited_edges st) ∧
             preds_in (visited_edges st) idx;
  available_in_spec :
    ∀ c idx, idx ∈ set_at (available_in_edges st) c ↔
             ∃ e, edges !! idx = Some e ∧ Edge.j e = c ∧
                  idx ∈ set_at (available_out_edges st) (Edge.i e);
  available_complete :
    ∀ idx e, edges !! idx = Some e → registered idx →
             idx ∉ visited_edges st → preds_in (visited_edges st) idx →
             idx ∈ set_at (available_out_edges st) (Edge.i e) ∨ pending idx
}.

Definition all_registered (idx : nat) : Prop := True.
Definition none_pending (idx : nat) : Prop := False.

Lemma make_available_returns (idx : nat) (e : Edge.t) (st : state) :
  edges !! idx = Some e →
  length (available_out_edges st) = city_count →
  length (available_in_edges st) = city_count →
  make_available G edges idx st
  = Ok (mk_state (all_out_edges st) (all_in_edges st)
          (<[Edge.i e := {[idx]} ∪ set_at (available_out_edges st) (Edge.i e)]>
             (available_out_edges st))
          (<[Edge.j e := {[idx]} ∪ set_at (available_in_edges st) (Edge.j e)]>
             (available_in_edges st))
          (visited_edges st) (plane_edges st) (plane_pos st) (rng st)
          (trace st)).
Proof.
  intros He Ho Hi. destruct (edges_in_range idx e He) as [Hei Hej].
  unfold make_available, get. rewrite He. simpl.
  rewrite set_add_returns by lia. simpl.
  rewrite set_add_returns by lia. done.
Qed.

(** [make_available] on an edge that is neither visited nor available yet
    and whose predecessors are visited. *)
Lemma make_available_inv (registered pending : nat → Prop) (idx : nat)
    (e : Edge.t) (st : state) :
  sets_inv registered pending st →
  edges !! idx = Some e →
  idx ∉ visited_edges st → preds_in (visited_edges st) idx →
  ∃ st', make_available G edges idx st = Ok st' ∧
         sets_inv registered (λ u, pending u ∧ u ≠ idx) st' ∧
         all_out_edges st' = all_out_edges st ∧
         all_in_edges st' = all_in_edges st ∧
         visited_edges st' = visited_edges st ∧
         plane_edges st' = plane_edges st ∧ plane_pos st' = plane_pos st ∧
         rng st' = rng st ∧ trace st' = trace st ∧
         idx ∈ set_at (available_out_edges st') (Edge.i e).
Proof.
  intros Hinv He Hnv Hpreds.
  destruct (edges_in_range idx e He) as [Hei Hej].
  pose proof (len_available_out _ _ _ Hinv) as Hlo.
  pose proof (len_available_in _ _ _ Hinv) as Hli.
  eexists. split; [by apply make_available_returns|].
  split; [|simpl; split_and!; try done;
           rewrite set_at_insert by lia;
           rewrite bool_decide_eq_true_2 by done; set_solver].
  constructor; simpl.
  - by apply (len_all_out _ _ _ Hinv).
  - by apply (len_all_in _ _ _ Hinv).
  - by rewrite length_insert.
  - by rewrite length_insert.
  - by apply (all_out_spec _ _ _ Hinv).
  - by apply (visited_valid _ _ _ Hinv).
  - by apply (visited_closed _ _ _ Hinv).
  - intros c u. rewrite set_at_insert by lia. case_bool_decide as E.
    + subst c. rewrite elem_of_union, elem_of_singleton. intros [->|Hu].
      * split_and!; auto. by exists e.
      * by apply (available_sound _ _ _ Hinv).
    + by apply (available_sound _ _ _ Hinv).
  - intros c u. rewrite set_at_insert by lia.
    pose proof (available_in_spec _ _ _ Hinv c u) as Hold.
    assert (Hout : ∀ e', u ∈ set_at (<[Edge.i e:={[idx]} ∪ set_at
                           (available_out_edges st) (Edge.i e)]>
                           (available_out_edges st)) (Edge.i e')
                         ↔ (u = idx ∧ Edge.i e' = Edge.i e)
                           ∨ u ∈ set_at (available_out_edges st) (Edge.i e')).
    { intros e'. rewrite set_at_insert by lia. case_bool_decide as E'.
      - rewrite E'. set_solver.
      - set_solver. }
    case_bool_decide as E.
    + subst c. rewrite elem_of_union, elem_of_singleton, Hold. split.
      * intros [->|(e' & He' & Hj & Hin)].
        -- exists e. split_and!; auto. apply Hout. by left.
        -- exists e'. split_and!; auto. apply Hout. by right.
      * intros (e' & He' & Hj & Hin). apply Hout in Hin as [[-> _]|Hin].
        -- by left.
        -- right. by exists e'.
    + rewrite Hold. split.
      * intros (e' & He' & Hj & Hin). exists e'. split_and!; auto.
        apply Hout. by right.
      * intros (e' & He' & Hj & Hin). apply Hout in Hin as [[-> _]|Hin].
        -- exfalso. apply E. congruence.
        -- by exists e'.
  - intros u e' He' Hreg Hnv' Hp'. rewrite set_at_insert by lia.
    destruct (decide (u = idx)) as [->|Hne].
    + left. assert (e' = e) as -> by congruence.
      rewrite bool_decide_eq_true_2 by done. set_solver.
    + destruct (available_complete _ _ _ Hinv u e' He' Hreg Hnv' Hp')
        as [Hin|Hpend]; [|right; by split].
      left. case_bool_decide as E; [|done]. rewrite <- E. set_solver.
Qed.

Lemma sets_inv_weaken (registered pending pending' : nat → Prop) (st : state) :
  (∀ u, pending u → pending' u) →
  sets_inv registered pending st → sets_inv registered pending' st.
Proof.
  intros Himp Hinv. destruct Hinv. constructor; auto.
  intros u e He Hreg Hnv Hp.
  destruct (available_complete0 u e He Hreg Hnv Hp); auto.
Qed.

Lemma sets_inv_pending_drop (registered pending : nat → Prop) (u : nat)
    (st : state) :
  sets_inv registered pending st →
  (∀ e, edges !! u = Some e → u ∉ visited_edges st →
        preds_in (visited_edges st) u →
        u ∈ set_at (available_out_edges st) (Edge.i e)) →
  sets_inv registered (λ u', pending u' ∧ u' ≠ u) st.
Proof.
  intros Hinv Hu. destruct Hinv. constructor; auto.
  intros u' e He Hreg Hnv Hp. destruct (decide (u' = u)) as [->|Hne].
  - left. by apply Hu.
  - destruct (available_complete0 u' e He Hreg Hnv Hp); auto.
Qed.

Lemma direct_routes (x y : nat) (ex ey : Edge.t) :
  edges !! x = Some ex → edges !! y = Some ey →
  EdgePlanner.direct (EdgePlanner.routes edges) x y → Edge.j ex = Edge.i ey.
Proof.
  intros Hx Hy (rx & ry & Hrx & Hry & E). unfold EdgePlanner.routes in *.
  rewrite list_lookup_fmap, Hx in Hrx. rewrite list_lookup_fmap, Hy in Hry.
  simpl in *. inversion Hrx; subst. inversion Hry; subst. done.
Qed.

(** The rest of the state, which the index sets' updates leave alone. *)
Definition same_output (st st' : state) : Prop :=
  plane_edges st' = plane_edges st ∧ plane_pos st' = plane_pos st ∧
  rng st' = rng st ∧ trace st' = trace st.

(** The state between the removals of [visit_edge] and its unlock loop. *)
Lemma visit_removed_inv (idx : nat) (e : Edge.t) (st : state) :
  sets_inv all_registered none_pending st →
  edges !! idx = Some e →
  idx ∈ set_at (available_out_edges st) (Edge.i e) →
  sets_inv all_registered (λ u, leaves u (Edge.j e))
    (mk_state (all_out_edges st) (all_in_edges st)
       (<[Edge.i e := set_at (available_out_edges st) (Edge.i e) ∖ {[idx]}]>
          (available_out_edges st))
       (<[Edge.j e := set_at (available_in_edges st) (Edge.j e) ∖ {[idx]}]>
          (available_in_edges st))
       ({[idx]} ∪ visited_edges st) (plane_edges st) (plane_pos st) (rng st)
       (trace st)).
Proof.
  intros Hinv He Hin.
  destruct (edges_in_range idx e He) as [Hei Hej].
  pose proof (len_available_out _ _ _ Hinv) as Hlo.
  pose proof (len_available_in _ _ _ Hinv) as Hli.
  destruct (available_sound _ _ _ Hinv _ _ Hin) as (_ & Hnv & Hpreds).
  assert (Hout : ∀ c u,
    u ∈ set_at (<[Edge.i e := set_at (available_out_edges st) (Edge.i e)
                              ∖ {[idx]}]> (available_out_edges st)) c
    ↔ u ∈ set_at (available_out_edges st) c ∧ u ≠ idx).
  { intros c u. rewrite set_at_insert by lia. case_bool_decide as E.
    - subst c. set_solver.
    - split; [|by intros [? _]]. intros Hu. split; [done|]. intros ->.
      destruct (available_sound _ _ _ Hinv _ _ Hu) as ((e' & He' & Hc) & _).
      apply E. congruence. }
  constructor; simpl.
  - by apply (len_all_out _ _ _ Hinv).
  - by apply (len_all_in _ _ _ Hinv).
  - by rewrite length_insert.
  - by rewrite length_insert.
  - by apply (all_out_spec _ _ _ Hinv).
  - intros u Hu. apply elem_of_union in Hu as [Hu|Hu].
    + apply elem_of_singleton in Hu. subst u. by eapply lookup_lt_Some.
    + by apply (visited_valid _ _ _ Hinv).
  - intros b Hb a Hab. apply elem_of_union in Hb as [Hb|Hb].
    + apply elem_of_singleton in Hb. subst b. apply elem_of_union. right.
      by apply Hpreds.
    + apply elem_of_union. right. by apply (visited_closed _ _ _ Hinv b).
  - intros c u Hu. apply Hout in Hu as [Hu Hne].
    destruct (available_sound _ _ _ Hinv _ _ Hu) as (Hl & Hnv' & Hp').
    split_and!; [done|set_solver|]. intros a Ha. apply elem_of_union. right.
    by apply Hp'.
  - intros c u. rewrite set_at_insert by lia.
    pose proof (available_in_spec _ _ _ Hinv c u) as Hold.
    split.
    + intros Hu.
      assert (u ∈ set_at (available_in_edges st) c ∧ u ≠ idx) as [Hu' Hne].
      { case_bool_decide as E; [subst c|]; set_solver. }
      apply Hold in Hu' as (e' & He' & Hj & Hin'). exists e'.
      split_and!; auto. by apply Hout.
    + intros (e' & He' & Hj & Hin'). apply Hout in Hin' as [Hin' Hne].
      assert (u ∈ set_at (available_in_edges st) c) by (apply Hold; eauto).
      case_bool_decide as E; [|done].
      apply elem_of_difference. split; [|by rewrite elem_of_singleton].
      by rewrite <- E.
  - intros u e' He' _ Hnv' Hp'.
    destruct (decide ((idx, u) ∈ constraints)) as [Hiu|Hiu].
    + right. exists e'. split; [done|]. symmetry.
      destruct (constraints_generated idx u Hiu) as [Hd|(z & Hiz & Hzu)].
      * by eapply direct_routes.
      * exfalso. pose proof (Hp' z Hzu) as Hz.
        apply elem_of_union in Hz as [Hz|Hz].
        -- apply elem_of_singleton in Hz. subst z.
           by apply (proj2 constraints_order idx).
        -- apply Hnv. by apply (visited_closed _ _ _ Hinv z Hz idx).
    + left. apply Hout. split; [|set_solver].
      destruct (available_complete _ _ _ Hinv u e' He' I) as [Hu|[]];
        [set_solver| |done].
      intros a Ha. pose proof (Hp' a Ha) as Ha'.
      apply elem_of_union in Ha' as [Ha'|Ha']; [|done].
      apply elem_of_singleton in Ha'. subst a. done.
Qed.

Lemma unlock_spec (city : nat) (V : gset nat) (base : state) (done : list nat)
    (u : nat) (st : state) :
  leaves u city →
  sets_inv all_registered (λ u', leaves u' city ∧ u' ∉ done) st →
  returns (unlock iter_pairs G edges constraints city u st)
          (λ st', sets_inv all_registered
                    (λ u', leaves u' city ∧ u' ∉ done ++ [u]) st' ∧
                  all_out_edges st' = all_out_edges st ∧
                  visited_edges st' = visited_edges st ∧ same_output st st').
Proof.
  intros (eu & Heu & Hcity) Hinv.
  destruct (edges_in_range u eu Heu) as [Hei Hej].
  pose proof (len_available_out _ _ _ Hinv) as Hlo.
  unfold unlock, returns. rewrite get_set_at by lia. cbn [bind].
  assert (Hweak : ∀ u', (leaves u' city ∧ u' ∉ done) ∧ u' ≠ u →
                        leaves u' city ∧ u' ∉ done ++ [u]).
  { intros u' [[Hl Hnd] Hne]. split; [done|]. set_solver. }
  destruct (negb _ && negb _ && _) eqn:Hcond.
  - apply andb_prop in Hcond as [Hcond Hav].
    apply andb_prop in Hcond as [Hnv Hna].
    apply negb_true_iff, bool_decide_eq_false in Hnv.
    apply is_available_spec in Hav.
    destruct (make_available_inv _ _ u eu st Hinv Heu Hnv Hav)
      as (st' & -> & Hinv' & Hao & _ & Hv & Hpe & Hpp & Hr & Ht & _).
    simpl. split_and!; auto; [|by split_and!].
    eapply sets_inv_weaken; [|exact Hinv']. exact Hweak.
  - simpl. split_and!; auto; [|by split_and!].
    eapply sets_inv_weaken; [exact Hweak|].
    apply sets_inv_pending_drop; [done|].
    intros e He Hnv Hp. assert (e = eu) as -> by congruence.
    apply andb_false_iff in Hcond as [Hcond|Hcond].
    + apply andb_false_iff in Hcond as [Hcond|Hcond].
      * apply negb_false_iff, bool_decide_eq_true in Hcond. done.
      * apply negb_false_iff, bool_decide_eq_true in Hcond. by rewrite Hcity.
    + apply is_available_spec in Hp. congruence.
Qed.

Lemma visit_edge_spec (idx c : nat) (st : state) :
  sets_inv all_registered none_pending st →
  idx ∈ set_at (available_out_edges st) c →
  returns (visit_edge iter_pairs iter_idx G edges constraints idx st)
          (λ st', sets_inv all_registered none_pending st' ∧
                  visited_edges st' = {[idx]} ∪ visited_edges st ∧
                  same_output st st').
Proof.
  intros Hinv Hin.
  destruct (available_sound _ _ _ Hinv _ _ Hin) as ((e & He & Hc) & Hnv & Hp).
  subst c. destruct (edges_in_range idx e He) as [Hei Hej].
  pose proof (len_available_out _ _ _ Hinv) as Hlo.
  pose proof (len_available_in _ _ _ Hinv) as Hli.
  pose proof (len_all_out _ _ _ Hinv) as Hla.
  unfold visit_edge, returns, get. rewrite He. cbn [bind].
  rewrite set_remove_returns by (done || lia). cbn [bind].
  rewrite set_remove_returns
    by (try lia; apply (available_in_spec _ _ _ Hinv); eauto).
  cbn [bind]. cbn [all_out_edges]. fold (get (all_out_edges st) (Edge.j e)).
  rewrite get_set_at by lia. cbn [bind].
  pose proof (visit_removed_inv idx e st Hinv He Hin) as Hinv1.
  set (st1 := mk_state _ _ _ _ _ _ _ _ _) in *.
  pose (I := λ (done : list nat) (s : state),
           sets_inv all_registered
             (λ u', leaves u' (Edge.j e) ∧ u' ∉ done) s ∧
           all_out_edges s = all_out_edges st ∧
           visited_edges s = {[idx]} ∪ visited_edges st ∧ same_output st s).
  eapply outcome_weaken;
    [apply (for_each_outcome _ False I
              (iter_idx (set_at (all_out_edges st) (Edge.j e))) [] st1)| |done].
  - unfold I. split_and!; try done.
    eapply sets_inv_weaken; [|exact Hinv1]. intros u Hu. split; [done|].
    apply not_elem_of_nil.
  - intros done u s Hu (Hs & Hao & Hv & Hso).
    apply elem_of_iter_idx in Hu. apply (all_out_spec _ _ _ Hinv) in Hu as [Hu _].
    eapply outcome_weaken; [by apply (unlock_spec _ ∅ st)| |done].
    intros s' (Hs' & Hao' & Hv' & Hso'). unfold I. split_and!; auto.
    + congruence.
    + congruence.
    + destruct Hso as (? & ? & ? & ?), Hso' as (? & ? & ? & ?).
      unfold same_output. split_and!; congruence.
  - intros s (Hs & Hao & Hv & Hso). split_and!; auto.
    eapply sets_inv_weaken; [|exact Hs]. intros u [Hl Hnd]. exfalso.
    apply Hnd. simpl. apply elem_of_iter_idx.
    apply (all_out_spec _ _ _ Hinv). by split.
Qed.

(** *** Flights, their order and the planes' positions *)

Variable planes : list nat.

(** What a flight with trace entry [t] is: the edge [t] names, or a jump
    between two different cities with no cargo. *)
Definition flight_ok (f : PlaneEdge.t) (t : option nat) : Prop :=
  match t with
  | Some idx => ∃ e, edges !! idx = Some e ∧
                     PlaneEdge.i f = Edge.i e ∧ PlaneEdge.j f = Edge.j e ∧
                     PlaneEdge.cargo f = Edge.cargo e
  | None => PlaneEdge.cargo f = replicate city_count 0 ∧
            PlaneEdge.i f ≠ PlaneEdge.j f
  end.

(** Edge indices in the order they are flown. *)
Definition visits (tr : list (option nat)) : list nat := omap id tr.

(** Every edge that has to precede the edge of entry [k] is flown at an
    earlier entry. *)
Definition respects (tr : list (option nat)) : Prop :=
  ∀ k b, tr !! k = Some (Some b) →
         ∀ a, (a, b) ∈ constraints →
              ∃ k', (k' < k)%nat ∧ tr !! k' = Some (Some a).

Record trace_inv (st : state) : Prop := mk_trace_inv {
  trace_flights : Forall2 flight_ok (plane_edges st) (trace st);
  trace_visited : ∀ idx, idx ∈ visited_edges st ↔ Some idx ∈ trace st;
  trace_once : NoDup (visits (trace st));
  trace_order : respects (trace st)
}.

Definition flights_of (p : nat) (fl : list PlaneEdge.t) : list PlaneEdge.t :=
  filter (λ f, PlaneEdge.plane_idx f = p) fl.

Definition chained (l : list PlaneEdge.t) : Prop :=
  ∀ k f g, l !! k = Some f → l !! S k = Some g → PlaneEdge.j f = PlaneEdge.i g.

(** Each plane's flights chain, and the plane stands where its last flight
    landed. *)
Definition geo (fl : list PlaneEdge.t) (pos : list nat) : Prop :=
  ∀ p, chained (flights_of p fl) ∧
       ∀ f, last (flights_of p fl) = Some f → pos !! p = Some (PlaneEdge.j f).

Definition pos_ok (pos : list nat) : Prop :=
  length pos = length planes ∧ Forall (λ c, (c < city_count)%nat) pos.

Lemma chained_snoc (l : list PlaneEdge.t) (f : PlaneEdge.t) :
  chained l →
  (∀ g, last l = Some g → PlaneEdge.j g = PlaneEdge.i f) →
  chained (l ++ [f]).
Proof.
  intros Hl Hlast k x y Hx Hy.
  apply lookup_snoc_Some in Hy as [[Hk Hy]|[Hk <-]].
  - rewrite lookup_app_l in Hx by lia. by eapply Hl.
  - rewrite lookup_app_l in Hx by lia. apply Hlast.
    rewrite last_lookup. by replace (Nat.pred (length l)) with k by lia.
Qed.

Lemma geo_snoc (fl : list PlaneEdge.t) (pos : list nat) (f : PlaneEdge.t) :
  geo fl pos →
  pos !! PlaneEdge.plane_idx f = Some (PlaneEdge.i f) →
  geo (fl ++ [f]) (<[PlaneEdge.plane_idx f := PlaneEdge.j f]> pos).
Proof.
  intros Hgeo Hpos p. destruct (Hgeo p) as [Hch Hlast].
  unfold flights_of. rewrite filter_app.
  destruct (decide (PlaneEdge.plane_idx f = p)) as [E|E].
  - rewrite (filter_cons_True _ f) by done. rewrite filter_nil. split.
    + apply chained_snoc; [done|]. intros g Hg.
      specialize (Hlast g Hg). subst p. congruence.
    + intros g Hg. rewrite last_snoc in Hg. inversion Hg; subst.
      apply list_lookup_insert_eq. by eapply lookup_lt_Some.
  - rewrite (filter_cons_False _ f) by done. rewrite filter_nil, app_nil_r.
    split; [done|]. intros g Hg. rewrite list_lookup_insert_ne by done.
    by apply Hlast.
Qed.

Lemma size_visited_le (V : gset nat) (n : nat) :
  (∀ idx, idx ∈ V → (idx < n)%nat) → (size V ≤ n)%nat.
Proof.
  intros HV. rewrite <- (size_set_seq (C := gset nat) 0 n).
  apply subseteq_size. intros idx Hidx. apply elem_of_set_seq.
  specialize (HV idx Hidx). lia.
Qed.

Lemma size_visit (V : gset nat) (idx : nat) :
  idx ∉ V → size ({[idx]} ∪ V) = S (size V).
Proof.
  intros Hnv. rewrite size_union by set_solver. by rewrite size_singleton.
Qed.

Lemma with_plane_pos_id (st : state) : with_plane_pos G st (plane_pos st) = st.
Proof. by destruct st. Qed.

Lemma sets_inv_same (registered pending : nat → Prop) (st st' : state) :
  all_out_edges st' = all_out_edges st →
  all_in_edges st' = all_in_edges st →
  available_out_edges st' = available_out_edges st →
  available_in_edges st' = available_in_edges st →
  visited_edges st' = visited_edges st →
  sets_inv registered pending st → sets_inv registered pending st'.
Proof.
  intros H1 H2 H3 H4 H5 Hinv. destruct Hinv.
  constructor; rewrite ?H1, ?H2, ?H3, ?H4, ?H5; auto.
Qed.

(** The flight of an available edge, appended to the output. *)
Lemma trace_inv_visit (st st' : state) (idx c p : nat) (e : Edge.t) :
  sets_inv all_registered none_pending st →
  trace_inv st →
  idx ∈ set_at (available_out_edges st) c →
  edges !! idx = Some e →
  visited_edges st' = {[idx]} ∪ visited_edges st →
  plane_edges st' = plane_edges st → trace st' = trace st →
  trace_inv (emit G (PlaneEdge.mk p (Edge.i e) (Edge.j e) (Edge.cargo e))
                  (Some idx) st').
Proof.
  intros Hsets Htr Hin He Hv Hpe Ht.
  destruct (available_sound _ _ _ Hsets _ _ Hin) as (_ & Hnv & Hpreds).
  destruct Htr as [Hfl Hvis Honce Hord].
  constructor; simpl; rewrite ?Hv, ?Hpe, ?Ht.
  - apply Forall2_app; [done|]. constructor; [|constructor].
    simpl. by exists e.
  - intros u. rewrite elem_of_union, elem_of_singleton, elem_of_app,
      list_elem_of_singleton, Hvis.
    split.
    + intros [->|H]; [by right|by left].
    + intros [H|H]; [by right|left; congruence].
  - unfold visits. rewrite omap_app. simpl. apply NoDup_app.
    split_and!; [done| |apply NoDup_singleton].
    intros u Hu Hu'. apply list_elem_of_singleton in Hu'. subst u.
    apply list_elem_of_omap in Hu as (t & Ht' & Hid). simpl in Hid. subst t.
    by apply Hnv, Hvis.
  - intros k b Hk a Hab.
    apply lookup_snoc_Some in Hk as [[Hlt Hk]|[Hlen Hb]].
    + destruct (Hord k b Hk a Hab) as (k' & Hlt' & Hk').
      exists k'. split; [done|]. by apply lookup_app_l_Some.
    + inversion Hb; subst b.
      assert (Some a ∈ trace st) as Hin' by (by apply Hvis, Hpreds).
      apply list_elem_of_lookup in Hin' as [k' Hk'].
      exists k'. split; [|by apply lookup_app_l_Some].
      apply lookup_lt_Some in Hk'. lia.
Qed.

(** *** [extend_journey] *)

(** Invariant of the loop of [extend_journey] for plane [p], which has
    reached city [i] while [plane_pos[p]] still holds the city it left. *)
Definition loop_inv (p i : nat) (st : state) : Prop :=
  sets_inv all_registered none_pending st ∧ trace_inv st ∧
  geo (plane_edges st) (<[p := i]> (plane_pos st)) ∧
  pos_ok (<[p := i]> (plane_pos st)) ∧ (p < length (plane_pos st))%nat.

(** At least one more edge is visited in [st'] than in [st]. *)
Definition grew (st st' : state) : Prop :=
  (size (visited_edges st) < size (visited_edges st'))%nat.

Definition fuel_short (fuel : nat) (st : state) : Prop :=
  (fuel + size (visited_edges st) ≤ length edges)%nat.

Lemma iter_idx_nil (X : gset nat) : iter_idx X = [] → X = ∅.
Proof.
  intros H. apply leibniz_equiv, elements_empty_inv.
  apply Permutation_nil_r. by rewrite <- iter_idx_perm, H.
Qed.

Lemma extend_loop_spec (fuel : nat) :
  ∀ p i extended st,
    loop_inv p i st →
    outcome (extend_loop iter_pairs iter_idx G randint edges constraints
               fuel p i extended st)
            (λ r, loop_inv p r.1.1 r.2 ∧ plane_pos r.2 = plane_pos st ∧
                  set_at (available_out_edges r.2) r.1.1 = ∅ ∧
                  ((r.1.2 = extended ∧ r.1.1 = i ∧ r.2 = st) ∨
                   (r.1.2 = true ∧ grew st r.2)))
            (fuel_short fuel st).
Proof.
  induction fuel as [|fuel IH]; intros p i extended st Hinv.
  { simpl. unfold fuel_short. simpl. apply size_visited_le.
    destruct Hinv as (Hsets & _). by apply (visited_valid _ _ _ Hsets). }
  destruct Hinv as (Hsets & Htr & Hgeo & Hpos & Hp).
  assert (Hi : (i < city_count)%nat).
  { destruct Hpos as [_ Hall]. rewrite Forall_lookup in Hall.
    apply (Hall p). by apply list_lookup_insert_eq. }
  pose proof (len_available_out _ _ _ Hsets) as Hlo.
  cbn [extend_loop]. rewrite get_set_at by lia. cbn [bind].
  set (out := set_at (available_out_edges st) i).
  case_bool_decide as Hlen.
  - destruct (randint (rng st) (length (iter_idx out))) as [k g] eqn:Hr.
    assert (Hk : (k < length (iter_idx out))%nat).
    { pose proof (randint_lt (rng st) _ Hlen) as H. by rewrite Hr in H. }
    destruct (lookup_lt_is_Some_2 _ _ Hk) as [idx Hidx].
    unfold get at 1. rewrite Hidx. cbn [bind].
    assert (Hin : idx ∈ out).
    { apply elem_of_iter_idx. by eapply list_elem_of_lookup_2. }
    destruct (available_sound _ _ _ Hsets _ _ Hin)
      as ((e & He & Hei) & Hnv & Hpreds).
    destruct (edges_in_range idx e He) as [_ Hej].
    assert (Hsets_g : sets_inv all_registered none_pending (with_rng G st g))
      by (by eapply sets_inv_same; [..|exact Hsets]).
    eapply outcome_bind.
    { eapply outcome_weaken;
        [apply (visit_edge_spec idx i (with_rng G st g) Hsets_g Hin)
        |intros st1 H1; exact H1|done]. }
    intros st1 (Hsets1 & Hv1 & Hpe1 & Hpp1 & Hr1 & Ht1). simpl in *.
    unfold get at 1. rewrite He. cbn [bind].
    set (f := PlaneEdge.mk p (Edge.i e) (Edge.j e) (Edge.cargo e)).
    set (st2 := emit G f (Some idx) st1).
    assert (Hsize : size (visited_edges st2) = S (size (visited_edges st))).
    { simpl. rewrite Hv1. by apply size_visit. }
    eapply outcome_weaken; [apply (IH p (Edge.j e) true st2)| |].
    + unfold loop_inv. split_and!.
      * by eapply sets_inv_same; [..|exact Hsets1].
      * by eapply (trace_inv_visit st st1 idx i p e).
      * simpl. rewrite Hpe1, Hpp1.
        rewrite <- (list_insert_insert_eq (plane_pos st) p (Edge.j e) i).
        apply (geo_snoc _ _ f); [done|]. simpl. rewrite Hei.
        by apply list_lookup_insert_eq.
      * simpl. rewrite Hpp1. destruct Hpos as [Hl Hall].
        rewrite length_insert in Hl. split; [by rewrite length_insert|].
        rewrite <- (list_insert_insert_eq (plane_pos st) p (Edge.j e) i).
        by apply Forall_insert.
      * simpl. by rewrite Hpp1.
    + intros [[i' ext'] st'] (Hinv' & Hpp' & Hempty & Hcase).
      cbn [fst snd] in *.
      split_and!; auto; [by rewrite Hpp'|]. right.
      destruct Hcase as [(-> & _ & ->)|[-> Hgrew]].
      * split; [done|]. unfold grew. rewrite Hsize. lia.
      * split; [done|]. unfold grew in *. rewrite Hsize in Hgrew. lia.
    + unfold fuel_short. rewrite Hsize. lia.
  - subst out. simpl. split_and!; auto.
    + by unfold loop_inv.
    + apply iter_idx_nil.
      destruct (iter_idx (set_at (available_out_edges st) i)); [done|].
      exfalso. apply Hlen. simpl. lia.
Qed.

(** A plane with no available edge at its position. *)
Definition stuck (st : state) (p : nat) : Prop :=
  ∀ c, plane_pos st !! p = Some c → set_at (available_out_edges st) c = ∅.

(** Invariant of the schedule between two calls of [extend_journey]. *)
Definition inv (st : state) : Prop :=
  sets_inv all_registered none_pending st ∧ trace_inv st ∧
  geo (plane_edges st) (plane_pos st) ∧ pos_ok (plane_pos st).

Lemma extend_journey_spec (p : nat) (st : state) :
  inv st → (p < length planes)%nat →
  returns (extend_journey iter_pairs iter_idx G randint edges constraints p st)
          (λ r, inv r.2 ∧ stuck r.2 p ∧
                ((r.1 = false ∧ r.2 = st) ∨ (r.1 = true ∧ grew st r.2))).
Proof.
  intros (Hsets & Htr & Hgeo & Hpos) Hp.
  assert (Hpl : (p < length (plane_pos st))%nat) by (destruct Hpos; lia).
  destruct (lookup_lt_is_Some_2 _ _ Hpl) as [i Hi].
  unfold extend_journey, returns. unfold get at 1. rewrite Hi. cbn [bind].
  eapply outcome_bind.
  { eapply outcome_weaken;
      [apply (extend_loop_spec (S (length edges)) p i false st)
      |intros r H; exact H|].
    - unfold loop_inv. rewrite (list_insert_id _ _ _ Hi). by split_and!.
    - unfold fuel_short. intros H.
      pose proof (size_visited_le _ _ (visited_valid _ _ _ Hsets)). lia. }
  intros [[i' ext'] st'] ((Hsets' & Htr' & Hgeo' & Hpos' & Hp') & Hpp & Hempty
                          & Hcase).
  simpl in *. destruct (lookup_lt_is_Some_2 _ _ Hp') as [x Hx].
  unfold get. rewrite Hx. simpl. split_and!.
  - unfold inv. simpl. split_and!; auto.
    by eapply sets_inv_same; [..|exact Hsets'].
    destruct Htr'. by constructor.
  - intros c. simpl. rewrite list_lookup_insert_eq by done.
    intros Hc. by inversion Hc; subst.
  - destruct Hcase as [(-> & -> & ->)|[-> Hgrew]].
    + left. split; [done|]. rewrite (list_insert_id _ _ _ Hi).
      apply with_plane_pos_id.
    + right. split; [done|]. exact Hgrew.
Qed.

(** *** The schedule *)

(** A plane with an available edge at its position. *)
Definition ready (st : state) (p : nat) : Prop :=
  ∃ c, plane_pos st !! p = Some c ∧ set_at (available_out_edges st) c ≠ ∅.

Lemma stuck_not_ready (st : state) (p : nat) : stuck st p → ready st p → False.
Proof. intros Hs (c & Hc & Hne). by apply Hne, Hs. Qed.

Lemma grew_trans (st1 st2 st3 : state) : grew st1 st2 → grew st2 st3 → grew st1 st3.
Proof. unfold grew. lia. Qed.

Lemma extend_pass_spec (st : state) :
  inv st →
  returns (extend_pass iter_pairs iter_idx G randint edges constraints planes st)
          (λ r, inv r.2 ∧
                ((r.1 = false ∧ r.2 = st ∧
                  ∀ p, (p < length planes)%nat → stuck st p) ∨
                 (r.1 = true ∧ grew st r.2))).
Proof.
  intros Hinv. unfold extend_pass.
  pose (I := λ (done : list nat) (r : bool * state),
           inv r.2 ∧ ((r.1 = false ∧ r.2 = st ∧ ∀ p, p ∈ done → stuck st p) ∨
                      (r.1 = true ∧ grew st r.2))).
  eapply outcome_weaken;
    [apply (for_each_outcome _ False I (seq 0 (length planes)) [] (false, st))
    | |done].
  - split; [done|]. left. split_and!; auto. intros p Hp.
    by apply not_elem_of_nil in Hp.
  - intros done p [ext s] Hp [Hs Hcase]. simpl in Hs, Hcase.
    apply elem_of_seq in Hp.
    eapply outcome_bind; [apply (extend_journey_spec p s Hs); lia|].
    intros [e s'] (Hs' & Hstuck & Hcase'). simpl in *. split; [done|].
    destruct Hcase as [(-> & -> & Hdone)|[-> Hgrew]].
    + destruct Hcase' as [[-> ->]|[-> Hgrew']].
      * left. split_and!; auto. intros q Hq.
        apply elem_of_app in Hq as [Hq|Hq]; [by apply Hdone|].
        apply list_elem_of_singleton in Hq. by subst q.
      * right. by split.
    + right. split; [done|].
      destruct Hcase' as [[-> ->]|[-> Hgrew']]; [done|].
      by eapply grew_trans.
  - intros [ext s] [Hs Hcase]. simpl in *. split; [done|].
    destruct Hcase as [(-> & -> & Hdone)|?]; [|by right].
    left. split_and!; auto. intros p Hp. apply Hdone, elem_of_seq. lia.
Qed.

Lemma fuel_short_0 (st : state) : inv st → fuel_short 0 st.
Proof.
  intros (Hsets & _). unfold fuel_short. simpl.
  apply size_visited_le, (visited_valid _ _ _ Hsets).
Qed.

Lemma extend_phase_spec (fuel : nat) :
  ∀ st, inv st →
    outcome (extend_phase iter_pairs iter_idx G randint edges constraints
               fuel planes st)
            (λ st', inv st' ∧
                    (∀ p, (p < length planes)%nat → stuck st' p) ∧
                    (st' = st ∨ grew st st') ∧
                    ((∃ p, (p < length planes)%nat ∧ ready st p) →
                     grew st st'))
            (fuel_short fuel st).
Proof.
  induction fuel as [|fuel IH]; intros st Hinv; [by apply fuel_short_0|].
  cbn [extend_phase]. eapply outcome_bind.
  { eapply outcome_weaken; [by apply extend_pass_spec|intros r H; exact H|done]. }
  intros [ext s] [Hs Hcase]. simpl in Hs, Hcase.
  destruct Hcase as [(-> & -> & Hstuck)|[-> Hgrew]]; simpl.
  - split_and!; auto. intros (p & Hp & Hready). exfalso.
    by eapply stuck_not_ready; [apply Hstuck|].
  - eapply outcome_weaken; [by apply IH| |].
    + intros st' (Hinv' & Hstuck & Hcase & _). split_and!; auto.
      * right. destruct Hcase as [->|Hgrew']; [done|by eapply grew_trans].
      * intros _. destruct Hcase as [->|Hgrew']; [done|by eapply grew_trans].
    + unfold fuel_short, grew in *. lia.
Qed.

Lemma jump_spec (jump_j0 : nat) (jump_js : list nat) (st : state) :
  inv st → planes ≠ [] →
  (∀ p, (p < length planes)%nat → stuck st p) →
  jump_j0 :: jump_js
  = filter (λ j, (0 < size (set_at (available_out_edges st) j))%nat)
           (seq 0 city_count) →
  returns (jump city_count G jump_j0 jump_js st)
          (λ st', inv st' ∧ visited_edges st' = visited_edges st ∧
                  ∃ p, (p < length planes)%nat ∧ ready st' p).
Proof.
  intros (Hsets & Htr & Hgeo & Hpos) Hplanes Hstuck Hjs.
  unfold jump, returns.
  set (jump_j := max_by (supply G st) jump_j0 jump_js).
  assert (Hjj : (jump_j < city_count)%nat ∧
                set_at (available_out_edges st) jump_j ≠ ∅).
  { pose proof (max_by_elem (supply G st) jump_j0 jump_js) as Hin.
    fold jump_j in Hin. rewrite Hjs in Hin.
    apply list_elem_of_filter in Hin as [Hsize Hseq].
    apply elem_of_seq in Hseq. split; [lia|].
    intros E. rewrite E, size_empty in Hsize. lia. }
  destruct Hjj as [Hjlt Hjne]. destruct Hpos as [Hlen Hall].
  destruct (with_keys_returns (local_work G st) (imap pair (plane_pos st)))
    as (keyed & -> & Hkeyed).
  { intros [p c] Hin. apply elem_of_lookup_imap in Hin as (k & x & Heq & Hk).
    inversion Heq; subst k x. unfold local_work. simpl.
    rewrite get_set_at; [by eexists|]. rewrite (len_all_out _ _ _ Hsets).
    rewrite Forall_forall in Hall. apply Hall. by eapply list_elem_of_lookup_2. }
  cbn [bind].
  destruct keyed as [|ii iis].
  { exfalso. apply (f_equal length) in Hkeyed.
    rewrite length_imap, Hlen in Hkeyed. by destruct planes. }
  pose proof (min_by_elem snd ii iis) as Hmin.
  apply (list_elem_of_fmap_2 fst) in Hmin. rewrite Hkeyed in Hmin.
  destruct (min_by snd ii iis) as [[jp ji] w]. simpl in Hmin.
  apply elem_of_lookup_imap in Hmin as (k & x & Heq & Hk).
  inversion Heq; subst k x.
  unfold get. rewrite Hk. cbn [bind].
  assert (Hjp : (jp < length planes)%nat)
    by (rewrite <- Hlen; by eapply lookup_lt_Some).
  assert (Hne : ji ≠ jump_j).
  { intros ->. by apply Hjne, (Hstuck jp). }
  set (f := PlaneEdge.mk jp ji jump_j (replicate city_count 0)).
  simpl. split_and!.
  - unfold inv. simpl. split_and!.
    + by eapply sets_inv_same; [..|exact Hsets].
    + destruct Htr as [Hfl Hvis Honce Hord]. constructor; simpl.
      * apply Forall2_app; [done|]. constructor; [|constructor]. by split.
      * intros idx. rewrite Hvis, elem_of_app, list_elem_of_singleton.
        split; [by left|]. by intros [?|?].
      * unfold visits. rewrite omap_app. simpl. by rewrite app_nil_r.
      * intros k b Hkb a Hab.
        apply lookup_snoc_Some in Hkb as [[Hlt Hkb]|[_ ?]]; [|done].
        destruct (Hord k b Hkb a Hab) as (k' & Hlt' & Hk').
        exists k'. split; [done|]. by apply lookup_app_l_Some.
    + by apply (geo_snoc _ _ f).
    + split; [by rewrite length_insert|]. by apply Forall_insert.
  - done.
  - exists jp. split; [done|]. exists jump_j. simpl. split; [|done].
    apply list_lookup_insert_eq. by eapply lookup_lt_Some.
Qed.

Definition drained (st : state) : Prop :=
  inv st ∧ ∀ c, (c < city_count)%nat → set_at (available_out_edges st) c = ∅.

Lemma no_jump_drained (st : state) :
  inv st →
  filter (λ j, (0 < size (set_at (available_out_edges st) j))%nat)
         (seq 0 city_count) = [] →
  drained st.
Proof.
  intros Hinv Hnil. split; [done|]. intros c Hc.
  apply leibniz_equiv, size_empty_inv.
  destruct (size (set_at (available_out_edges st) c)) eqn:E; [done|].
  assert (c ∈ filter (λ j, (0 < size (set_at (available_out_edges st) j))%nat)
                     (seq 0 city_count)) as Hin.
  { apply list_elem_of_filter. split; [lia|]. apply elem_of_seq. lia. }
  rewrite Hnil in Hin. by apply not_elem_of_nil in Hin.
Qed.

Lemma ready_unvisited (st : state) (p : nat) :
  inv st → ready st p → (size (visited_edges st) < length edges)%nat.
Proof.
  intros (Hsets & _) (c & _ & Hne).
  apply set_choose_L in Hne as [idx Hidx].
  destruct (available_sound _ _ _ Hsets _ _ Hidx) as ((e & He & _) & Hnv & _).
  pose proof (size_visit _ idx Hnv) as Hsize.
  assert (size ({[idx]} ∪ visited_edges st) ≤ length edges)%nat; [|lia].
  apply size_visited_le. intros u Hu.
  apply elem_of_union in Hu as [Hu|Hu].
  - apply elem_of_singleton in Hu. subst u. by eapply lookup_lt_Some.
  - by apply (visited_valid _ _ _ Hsets).
Qed.

Hypothesis planes_nonempty : planes ≠ [].

Lemma schedule_spec_ready (fuel : nat) :
  ∀ st, inv st → (∃ p, (p < length planes)%nat ∧ ready st p) →
    outcome (schedule city_count iter_pairs iter_idx G randint edges
               constraints fuel planes st)
            drained
            (fuel + size (visited_edges st) < length edges)%nat.
Proof.
  induction fuel as [|fuel IH]; intros st Hinv Hready.
  { simpl. destruct Hready as (p & _ & Hp). by eapply ready_unvisited. }
  cbn [schedule]. eapply outcome_bind.
  { eapply outcome_weaken;
      [apply (extend_phase_spec (S (length edges)) st Hinv)
      |intros st1 H; exact H|].
    unfold fuel_short. intros H.
    pose proof (fuel_short_0 st Hinv) as H0. unfold fuel_short in H0. lia. }
  intros st1 (Hinv1 & Hstuck & _ & Hgrew). specialize (Hgrew Hready).
  cbn beta.
  destruct (filter _ (seq 0 city_count)) as [|jump_j0 jump_js] eqn:Hjs.
  { simpl. by apply no_jump_drained. }
  eapply outcome_bind.
  { eapply outcome_weaken;
      [by apply (jump_spec jump_j0 jump_js st1)|intros st2 H; exact H|done]. }
  intros st2 (Hinv2 & Hv2 & Hready2). cbn beta.
  eapply outcome_weaken; [by apply IH|done|].
  unfold grew in Hgrew. rewrite Hv2. lia.
Qed.

Lemma schedule_spec (fuel : nat) (st : state) :
  inv st →
  outcome (schedule city_count iter_pairs iter_idx G randint edges
             constraints fuel planes st)
          drained (fuel_short fuel st).
Proof.
  intros Hinv. destruct fuel as [|fuel]; [by apply fuel_short_0|].
  cbn [schedule]. eapply outcome_bind.
  { eapply outcome_weaken;
      [apply (extend_phase_spec (S (length edges)) st Hinv)
      |intros st1 H; exact H|].
    unfold fuel_short. intros H.
    pose proof (fuel_short_0 st Hinv) as H0. unfold fuel_short in H0. lia. }
  intros st1 (Hinv1 & Hstuck & Hcase & _). cbn beta.
  destruct (filter _ (seq 0 city_count)) as [|jump_j0 jump_js] eqn:Hjs.
  { simpl. by apply no_jump_drained. }
  eapply outcome_bind.
  { eapply outcome_weaken;
      [by apply (jump_spec jump_j0 jump_js st1)|intros st2 H; exact H|done]. }
  intros st2 (Hinv2 & Hv2 & Hready2). cbn beta.
  eapply outcome_weaken; [by apply schedule_spec_ready|done|].
  unfold fuel_short. rewrite Hv2.
  destruct Hcase as [->|Hgrew]; [lia|]. unfold grew in Hgrew. lia.
Qed.

(** *** Registering the edges *)

Definition registered_in (done : list (nat * Edge.t)) (idx : nat) : Prop :=
  ∃ e, (idx, e) ∈ done.

Lemma register_edge_spec (done : list (nat * Edge.t)) (idx : nat) (e : Edge.t)
    (st : state) :
  edges !! idx = Some e →
  sets_inv (registered_in done) none_pending st →
  visited_edges st = ∅ →
  returns (register_edge iter_pairs G edges constraints (idx, e) st)
          (λ st', sets_inv (registered_in (done ++ [(idx, e)])) none_pending st' ∧
                  visited_edges st' = ∅ ∧ same_output st st').
Proof.
  intros He Hinv Hv. destruct (edges_in_range idx e He) as [Hei Hej].
  unfold register_edge, returns.
  assert (Hs1 : ∃ s1,
    (if is_available iter_pairs G constraints idx st
     then make_available G edges idx st else Ok st) = Ok s1 ∧
    sets_inv (registered_in done) none_pending s1 ∧
    all_out_edges s1 = all_out_edges st ∧ all_in_edges s1 = all_in_edges st ∧
    visited_edges s1 = visited_edges st ∧ same_output st s1 ∧
    (preds_in (visited_edges st) idx →
     idx ∈ set_at (available_out_edges s1) (Edge.i e))).
  { destruct (is_available _ _ _ idx st) eqn:Hav.
    - apply is_available_spec in Hav.
      destruct (make_available_inv _ _ idx e st Hinv He) as
        (s1 & -> & Hinv1 & Hao & Hai & Hv1 & Hpe & Hpp & Hr & Ht & Hin);
        [by rewrite Hv; apply not_elem_of_empty|done|].
      exists s1. split_and!; auto; [|by split_and!].
      eapply sets_inv_weaken; [|exact Hinv1]. by intros u [[] _].
    - exists st. split_and!; auto; [by split_and!|].
      intros Hp. apply is_available_spec in Hp. congruence. }
  destruct Hs1 as (s1 & -> & Hinv1 & Hao & Hai & Hv1 & Hso & Hadded).
  cbn [bind].
  pose proof (len_all_out _ _ _ Hinv1) as Hlo.
  pose proof (len_all_in _ _ _ Hinv1) as Hli.
  rewrite set_add_returns by lia. cbn [bind].
  rewrite set_add_returns by lia. simpl.
  split_and!; [|congruence|done].
  constructor; simpl.
  - by rewrite length_insert.
  - by rewrite length_insert.
  - by apply (len_available_out _ _ _ Hinv1).
  - by apply (len_available_in _ _ _ Hinv1).
  - intros c u. rewrite set_at_insert by lia.
    pose proof (all_out_spec _ _ _ Hinv1 c u) as Hold.
    unfold registered_in in *. split.
    + intros Hu.
      assert (Hcase : (u = idx ∧ c = Edge.i e)
                      ∨ u ∈ set_at (all_out_edges s1) c).
      { case_bool_decide as E; [subst c|by right].
        apply elem_of_union in Hu as [Hu|Hu]; [|by right].
        apply elem_of_singleton in Hu. by left. }
      destruct Hcase as [[-> ->]|Hu'].
      * split; [by exists e|]. exists e. apply elem_of_app. right.
        by apply list_elem_of_singleton.
      * apply Hold in Hu' as [Hl [e' He']]. split; [done|].
        exists e'. apply elem_of_app. by left.
    + intros [Hl [e' He']]. apply elem_of_app in He' as [He'|He'].
      * assert (u ∈ set_at (all_out_edges s1) c) by (apply Hold; eauto).
        case_bool_decide as E; [subst c|done]. apply elem_of_union. by right.
      * apply list_elem_of_singleton in He'. inversion He'; subst u e'.
        destruct Hl as (e' & He'' & Hc). assert (e' = e) as -> by congruence.
        rewrite bool_decide_eq_true_2 by done.
        apply elem_of_union. left. by apply elem_of_singleton.
  - by apply (visited_valid _ _ _ Hinv1).
  - by apply (visited_closed _ _ _ Hinv1).
  - by apply (available_sound _ _ _ Hinv1).
  - by apply (available_in_spec _ _ _ Hinv1).
  - intros u e' He' [e'' Hreg] Hnv Hp.
    apply elem_of_app in Hreg as [Hreg|Hreg].
    + apply (available_complete _ _ _ Hinv1 u e' He'); [by exists e''|done|done].
    + apply list_elem_of_singleton in Hreg. inversion Hreg; subst u e''.
      assert (e' = e) as -> by congruence. left. apply Hadded.
      by rewrite <- Hv1.
Qed.

Lemma set_at_replicate (n c : nat) : set_at (replicate n ∅) c = ∅.
Proof.
  unfold set_at. destruct (replicate n ∅ !! c) as [s|] eqn:E; [|done].
  by apply lookup_replicate in E as [-> _].
Qed.

Lemma trace_inv_same (st st' : state) :
  plane_edges st' = plane_edges st → trace st' = trace st →
  visited_edges st' = visited_edges st → trace_inv st → trace_inv st'.
Proof.
  intros H1 H2 H3 [Hfl Hvis Honce Hord].
  constructor; rewrite ?H1, ?H2, ?H3; auto.
Qed.

Hypothesis planes_in_range : Forall (λ c, (c < city_count)%nat) planes.

Lemma register_edges_spec (g : G) :
  returns (for_each (register_edge iter_pairs G edges constraints)
             (imap pair edges)
             (mk_state (replicate city_count ∅) (replicate city_count ∅)
                (replicate city_count ∅) (replicate city_count ∅) ∅ []
                planes g []))
          inv.
Proof.
  set (st0 := mk_state _ _ _ _ _ _ _ _ _).
  pose (I := λ (done : list (nat * Edge.t)) (s : state),
           sets_inv (registered_in done) none_pending s ∧
           visited_edges s = ∅ ∧ same_output st0 s).
  eapply outcome_weaken;
    [apply (for_each_outcome _ False I (imap pair edges) [] st0)| |done].
  - split_and!; [|done|by split_and!].
    constructor; simpl; rewrite ?length_replicate; auto.
    + intros c idx. rewrite set_at_replicate. split.
      * intros H. by apply not_elem_of_empty in H.
      * intros [_ [e H]]. by apply not_elem_of_nil in H.
    + intros idx H. by apply not_elem_of_empty in H.
    + intros b H. by apply not_elem_of_empty in H.
    + intros c idx. rewrite set_at_replicate. intros H.
      by apply not_elem_of_empty in H.
    + intros c idx. rewrite set_at_replicate. split.
      * intros H. by apply not_elem_of_empty in H.
      * intros (e & _ & _ & H). rewrite set_at_replicate in H.
        by apply not_elem_of_empty in H.
    + intros idx e _ [e' H]. by apply not_elem_of_nil in H.
  - intros done [idx e] s Hin (Hs & Hv & Hso).
    apply elem_of_lookup_imap in Hin as (k & e0 & Heq & Hk).
    inversion Heq; subst k e0.
    eapply outcome_weaken; [by apply register_edge_spec| |done].
    intros s' (Hs' & Hv' & Hso'). split_and!; auto.
    destruct Hso as (? & ? & ? & ?), Hso' as (? & ? & ? & ?).
    unfold same_output. split_and!; congruence.
  - intros s (Hs & Hv & Hpe & Hpp & Hr & Ht). simpl in *.
    unfold inv. split_and!.
    + destruct Hs. constructor; auto.
      * intros c idx. rewrite all_out_spec0. split; [by intros [? _]|].
        intros [Hl _]. split; [done|]. destruct Hl as (e & He & _).
        exists e. by apply (elem_of_lookup_imap_2 pair).
      * intros idx e He _. apply available_complete0; [done|].
        exists e. by apply (elem_of_lookup_imap_2 pair).
    + constructor; rewrite ?Hpe, ?Ht, ?Hv.
      * constructor.
      * intros idx. split; intros H;
          [by apply not_elem_of_empty in H|by apply not_elem_of_nil in H].
      * constructor.
      * intros k b H. by rewrite lookup_nil in H.
    + rewrite Hpe, Hpp. intros p. unfold flights_of. rewrite filter_nil.
      split; [intros k f g' H; by rewrite lookup_nil in H|done].
    + rewrite Hpp. by split.
Qed.

(** Edges that have to precede [idx]. *)
Definition pred_set (idx : nat) : gset nat :=
  set_map fst (filter (λ p : nat * nat, p.2 = idx) constraints).

Lemma elem_of_pred_set (a idx : nat) : a ∈ pred_set idx ↔ (a, idx) ∈ constraints.
Proof.
  unfold pred_set. rewrite elem_of_map. split.
  - intros ([x y] & -> & H). apply elem_of_filter in H as [E H].
    simpl in *. by subst y.
  - intros H. exists (a, idx). split; [done|]. by apply elem_of_filter.
Qed.

Lemma drained_all_visited (st : state) :
  drained st → ∀ idx e, edges !! idx = Some e → idx ∈ visited_edges st.
Proof.
  intros [(Hsets & _) Hempty].
  assert (Hgen : ∀ n idx e, (size (pred_set idx) < n)%nat →
                            edges !! idx = Some e → idx ∈ visited_edges st).
  { induction n as [|n IH]; intros idx e Hsize He; [lia|].
    destruct (decide (idx ∈ visited_edges st)) as [|Hnv]; [done|].
    destruct (decide (pred_set idx ∖ visited_edges st = ∅)) as [Hall|Hsome].
    - exfalso. destruct (edges_in_range idx e He) as [Hei _].
      destruct (available_complete _ _ _ Hsets idx e He I Hnv) as [Hin|[]].
      + intros a Ha. apply elem_of_pred_set in Ha.
        destruct (decide (a ∈ visited_edges st)) as [|Hna]; [done|].
        assert (a ∈ pred_set idx ∖ visited_edges st) as Hd
          by (by apply elem_of_difference).
        rewrite Hall in Hd. by apply not_elem_of_empty in Hd.
      + rewrite (Hempty _ Hei) in Hin. by apply not_elem_of_empty in Hin.
    - exfalso. apply set_choose_L in Hsome as [a Ha].
      apply elem_of_difference in Ha as [Ha Hna]. apply Hna.
      apply elem_of_pred_set in Ha.
      destruct (constraints_bounded a idx Ha) as [Halt _].
      destruct (lookup_lt_is_Some_2 edges a Halt) as [ea Hea].
      apply (IH a ea); [|done].
      assert (pred_set a ⊂ pred_set idx); [|pose proof (subset_size _ _ H); lia].
      destruct constraints_order as [Htrans Hirr]. split.
      + intros x Hx. apply elem_of_pred_set in Hx. apply elem_of_pred_set.
        by eapply Htrans.
      + intros Hsub. apply (Hirr a). apply elem_of_pred_set, Hsub.
        by apply elem_of_pred_set. }
  intros idx e He. apply (Hgen (S (size (pred_set idx))) idx e); [lia|done].
Qed.

Lemma plan_planes_run_spec (g : G) :
  returns (plan_planes_run city_count iter_pairs iter_idx G randint edges
             constraints planes g)
          (λ st, drained st ∧
                 visited_edges st = list_to_set (seq 0 (length edges))).
Proof.
  unfold plan_planes_run, returns. eapply outcome_bind.
  { apply register_edges_spec. }
  intros st1 Hinv1. cbn beta. eapply outcome_bind.
  { eapply outcome_weaken;
      [apply (schedule_spec (S (length edges)) st1 Hinv1)
      |intros st2 H; exact H|].
    unfold fuel_short. intros H.
    pose proof (fuel_short_0 st1 Hinv1) as H0. unfold fuel_short in H0. lia. }
  intros st2 Hdrained. cbn beta.
  assert (Hv : visited_edges st2 = list_to_set (seq 0 (length edges))).
  { apply set_eq. intros idx. rewrite elem_of_list_to_set, elem_of_seq. split.
    - intros H. destruct Hdrained as [(Hsets & _) _].
      pose proof (visited_valid _ _ _ Hsets idx H). lia.
    - intros [_ H]. destruct (lookup_lt_is_Some_2 edges idx) as [e He]; [lia|].
      by eapply drained_all_visited. }
  rewrite bool_decide_eq_true_2 by done. simpl. by split.
Qed.

End Spec.
End PlanePlanner.

(** The prototype's top level: [plan_edges] on the crates, then
    [plan_planes] on its edges and constraints. *)
Definition plan {G : Type} (plane_cap : Z) (city_count : nat)
    (iter_pairs : gset (nat * nat) → list (nat * nat))
    (iter_idx : gset nat → list nat) (randint : G → nat → nat * G)
    (crates : list (list Z)) (planes : list nat) (g : G)
  : result (EdgePlanner.state * list PlaneEdge.t) :=
  let* st := EdgePlanner.plan_edges plane_cap city_count iter_pairs crates in
  let* plane_edges :=
    PlanePlanner.plan_planes city_count iter_pairs iter_idx G randint
      (EdgePlanner.edges st) (EdgePlanner.constraints st) planes g in
  Ok (st, plane_edges).

(** A linear congruential generator to run the examples with. *)
Definition lcg (g : N) (n : nat) : nat * N :=
  let g' := ((g * 1103515245 + 12345) mod 2147483648)%N in
  (N.to_nat ((g' / 65536) mod N.of_nat n), g').

(** ** Properties of the whole plan *)

(** The edge a flight executes, as a tuple of the edge store. *)
Definition edge_of_flight (f : PlaneEdge.t) : Edge.t :=
  Edge.mk (PlaneEdge.i f) (PlaneEdge.j f) (PlaneEdge.cargo f).

(** Flights that carry something. *)
Definition loaded (city_count : nat) (fl : list PlaneEdge.t)
  : list PlaneEdge.t :=
  filter (λ f, PlaneEdge.cargo f ≠ replicate city_count 0) fl.

Lemma omap_lookup_seq {A : Type} (l : list A) :
  omap (λ k, l !! k) (seq 0 (length l)) = l.
Proof.
  assert (Hgen : ∀ (l pre : list A),
    omap (λ k, (pre ++ l) !! k) (seq (length pre) (length l)) = l).
  { clear l. induction l as [|x l IH]; intros pre; [done|].
    simpl. rewrite list_lookup_middle by done.
    f_equal. specialize (IH (pre ++ [x])).
    rewrite length_app in IH. simpl in IH.
    rewrite <- app_assoc in IH. simpl in IH.
    by replace (S (length pre)) with (length pre + 1)%nat by lia. }
  apply (Hgen l []).
Qed.

Lemma flights_edges (city_count : nat) (edges : list Edge.t)
    (fl : list PlaneEdge.t) (tr : list (option nat)) :
  Forall2 (PlanePlanner.flight_ok city_count edges) fl tr →
  (∀ idx e, edges !! idx = Some e → Edge.cargo e ≠ replicate city_count 0) →
  edge_of_flight <$> loaded city_count fl
  = omap (λ k, edges !! k) (PlanePlanner.visits tr).
Proof.
  intros Hfl Hload. unfold loaded, PlanePlanner.visits.
  induction Hfl as [|f t fl tr Hf Hfl IH]; [done|].
  destruct t as [idx|]; simpl in Hf.
  - destruct Hf as (e & He & Hi & Hj & Hc).
    rewrite filter_cons_True by (rewrite Hc; by eapply Hload).
    rewrite fmap_cons, IH. simpl. rewrite He. f_equal.
    unfold edge_of_flight. rewrite Hi, Hj, Hc. by destruct e.
  - destruct Hf as [Hc _]. by rewrite filter_cons_False by (by intros []).
Qed.

Section Pipeline.
Context {G : Type}.
Variable plane_cap : Z.
Variable city_count : nat.
Variable iter_pairs : gset (nat * nat) → list (nat * nat).
Variable iter_idx : gset nat → list nat.
Variable randint : G → nat → nat * G.
Hypothesis iter_pairs_perm : ∀ X, iter_pairs X ≡ₚ elements X.
Hypothesis iter_idx_perm : ∀ X, iter_idx X ≡ₚ elements X.
Hypothesis randint_lt : ∀ g n, (0 < n)%nat → ((randint g n).1 < n)%nat.
Variable crates : list (list Z).
Variable planes : list nat.
Variable g : G.
Hypothesis instance_wf : well_formed plane_cap city_count crates.
Hypothesis planes_nonempty : planes ≠ [].
Hypothesis planes_in_range : Forall (λ c, (c < city_count)%nat) planes.

(** What the two stages establish together. *)
Lemma plan_spec :
  ∃ st pst,
    plan plane_cap city_count iter_pairs iter_idx randint crates planes g
    = Ok (st, PlanePlanner.plane_edges pst) ∧
    EdgePlanner.inv plane_cap city_count crates st ∧
    PlanePlanner.drained city_count G (EdgePlanner.edges st)
      (EdgePlanner.constraints st) planes pst ∧
    PlanePlanner.visited_edges pst
    = list_to_set (seq 0 (length (EdgePlanner.edges st))).
Proof.
  destruct (returns_inv _ _
              (EdgePlanner.plan_edges_spec plane_cap city_count iter_pairs
                 iter_pairs_perm crates instance_wf))
    as (st & Hedges & Hinv & _).
  assert (Hrange : ∀ idx e, EdgePlanner.edges st !! idx = Some e →
            (Edge.i e < city_count)%nat ∧ (Edge.j e < city_count)%nat).
  { intros idx e He. pose proof (EdgePlanner.inv_edges _ _ _ st Hinv) as Hall.
    rewrite Forall_lookup in Hall.
    destruct (Hall idx e He) as ((_ & Hlen & _ & Hi & _) & Hj & _).
    split; [|done]. rewrite <- Hlen. by eapply lookup_lt_Some. }
  destruct (returns_inv _ _
              (PlanePlanner.plan_planes_run_spec city_count iter_pairs iter_idx
                 G randint (EdgePlanner.edges st) (EdgePlanner.constraints st)
                 iter_pairs_perm iter_idx_perm randint_lt Hrange
                 (EdgePlanner.inv_order _ _ _ st Hinv)
                 (EdgePlanner.inv_bounded _ _ _ st Hinv)
                 (EdgePlanner.inv_generated _ _ _ st Hinv)
                 planes planes_nonempty planes_in_range g))
    as (pst & Hplanes & Hdrained & Hvisited).
  exists st, pst. split_and!; auto.
  unfold plan. rewrite Hedges. cbn [bind].
  unfold PlanePlanner.plan_planes. rewrite Hplanes. done.
Qed.

End Pipeline.

(** C3. The flight sequence is a linear extension of the precedence
    constraints.  [tr] names, for every flight, the edge it executes (or
    [None] for a jump); every edge index is named at most once; for every
    pair [(a, b)] of the constraint set the flight of [a] comes strictly
    before the flight of [b]; and no edge is flown before all the edges that
    have to precede it ([respects]). *)
Theorem plan_linear_extension {G : Type} plane_cap city_count iter_pairs
    iter_idx (randint : G → nat → nat * G) crates planes g :
  (∀ X, iter_pairs X ≡ₚ elements X) →
  (∀ X, iter_idx X ≡ₚ elements X) →
  (∀ g n, (0 < n)%nat → ((randint g n).1 < n)%nat) →
  well_formed plane_cap city_count crates →
  planes ≠ [] →
  Forall (λ c, (c < city_count)%nat) planes →
  ∃ st fl tr,
    plan plane_cap city_count iter_pairs iter_idx randint crates planes g
    = Ok (st, fl) ∧
    Forall2 (PlanePlanner.flight_ok city_count (EdgePlanner.edges st)) fl tr ∧
    NoDup (PlanePlanner.visits tr) ∧
    PlanePlanner.respects (EdgePlanner.constraints st) tr ∧
    ∀ a b, (a, b) ∈ EdgePlanner.constraints st →
           ∃ ka kb, tr !! ka = Some (Some a) ∧ tr !! kb = Some (Some b) ∧
                    (ka < kb)%nat.
Proof.
  intros Hp1 Hp2 Hr Hwf Hne Hrange.
  destruct (plan_spec plane_cap city_count iter_pairs iter_idx randint
              Hp1 Hp2 Hr crates planes g Hwf Hne Hrange)
    as (st & pst & Hplan & Hinv & [(Hsets & Htr & _) _] & Hvisited).
  destruct Htr as [Hfl Hvis Honce Hord].
  exists st, (PlanePlanner.plane_edges pst), (PlanePlanner.trace pst).
  split_and!; auto.
  intros a b Hab.
  destruct (EdgePlanner.inv_bounded _ _ _ st Hinv a b Hab) as [_ Hb].
  assert (Hin : Some b ∈ PlanePlanner.trace pst).
  { apply Hvis. rewrite Hvisited. apply elem_of_list_to_set, elem_of_seq. lia. }
  apply list_elem_of_lookup in Hin as [kb Hkb].
  destruct (Hord kb b Hkb a Hab) as (ka & Hlt & Hka).
  by exists ka, kb.
Qed.

(** C4. For each plane, the flights of that plane, jumps included, chain:
    each lands where the next takes off. *)
Theorem plan_planes_chained {G : Type} plane_cap city_count iter_pairs
    iter_idx (randint : G → nat → nat * G) crates planes g :
  (∀ X, iter_pairs X ≡ₚ elements X) →
  (∀ X, iter_idx X ≡ₚ elements X) →
  (∀ g n, (0 < n)%nat → ((randint g n).1 < n)%nat) →
  well_formed plane_cap city_count crates →
  planes ≠ [] →
  Forall (λ c, (c < city_count)%nat) planes →
  ∃ st fl,
    plan plane_cap city_count iter_pairs iter_idx randint crates planes g
    = Ok (st, fl) ∧
    ∀ p k f f',
      PlanePlanner.flights_of p fl !! k = Some f →
      PlanePlanner.flights_of p fl !! S k = Some f' →
      PlaneEdge.j f = PlaneEdge.i f'.
Proof.
  intros Hp1 Hp2 Hr Hwf Hne Hrange.
  destruct (plan_spec plane_cap city_count iter_pairs iter_idx randint
              Hp1 Hp2 Hr crates planes g Hwf Hne Hrange)
    as (st & pst & Hplan & Hinv & [(_ & _ & Hgeo & _) _] & _).
  exists st, (PlanePlanner.plane_edges pst). split; [done|].
  intros p. by destruct (Hgeo p) as [Hch _].
Qed.

(** C5. With at least one plane [plan_planes] returns, so that its final
    assertion holds, and every edge of [plan_edges] is flown exactly once:
    the edge indices the flights execute are a rearrangement of
    [0 .. len(edges) - 1], each such flight carries its edge's cities and
    cargo, and the flights with cargo are, as a multiset, the edges. *)
Theorem plan_edge_coverage {G : Type} plane_cap city_count iter_pairs
    iter_idx (randint : G → nat → nat * G) crates planes g :
  (∀ X, iter_pairs X ≡ₚ elements X) →
  (∀ X, iter_idx X ≡ₚ elements X) →
  (∀ g n, (0 < n)%nat → ((randint g n).1 < n)%nat) →
  well_formed plane_cap city_count crates →
  planes ≠ [] →
  Forall (λ c, (c < city_count)%nat) planes →
  ∃ st fl tr,
    plan plane_cap city_count iter_pairs iter_idx randint crates planes g
    = Ok (st, fl) ∧
    Forall2 (PlanePlanner.flight_ok city_count (EdgePlanner.edges st)) fl tr ∧
    PlanePlanner.visits tr ≡ₚ seq 0 (length (EdgePlanner.edges st)) ∧
    edge_of_flight <$> loaded city_count fl ≡ₚ EdgePlanner.edges st.
Proof.
  intros Hp1 Hp2 Hr Hwf Hne Hrange.
  destruct (plan_spec plane_cap city_count iter_pairs iter_idx randint
              Hp1 Hp2 Hr crates planes g Hwf Hne Hrange)
    as (st & pst & Hplan & Hinv & [(Hsets & Htr & _) _] & Hvisited).
  destruct Htr as [Hfl Hvis Honce Hord].
  exists st, (PlanePlanner.plane_edges pst), (PlanePlanner.trace pst).
  assert (Hperm : PlanePlanner.visits (PlanePlanner.trace pst)
                  ≡ₚ seq 0 (length (EdgePlanner.edges st))).
  { apply NoDup_Permutation; [done|apply NoDup_seq|].
    intros idx. unfold PlanePlanner.visits. rewrite list_elem_of_omap.
    rewrite <- (elem_of_list_to_set (C := gset nat)), <- Hvisited, Hvis.
    split.
    - intros ([u|] & Hin & E); simpl in E; [|done]. by inversion E; subst.
    - intros Hin. by exists (Some idx). }
  split_and!; auto.
  rewrite (flights_edges city_count (EdgePlanner.edges st) _ _ Hfl).
  - rewrite Hperm. by rewrite omap_lookup_seq.
  - intros idx e He Hzero.
    pose proof (EdgePlanner.inv_edges _ _ _ st Hinv) as Hall.
    rewrite Forall_lookup in Hall. destruct (Hall idx e He) as (_ & _ & Hpos).
    rewrite Hzero, zsum_replicate_0 in Hpos. lia.
Qed.

(** C10. Every flight without cargo leaves one city for another: a jump is
    made only when no plane has an available edge where it stands, to a
    city that has one. *)
Theorem plan_jumps_move {G : Type} plane_cap city_count iter_pairs
    iter_idx (randint : G → nat → nat * G) crates planes g :
  (∀ X, iter_pairs X ≡ₚ elements X) →
  (∀ X, iter_idx X ≡ₚ elements X) →
  (∀ g n, (0 < n)%nat → ((randint g n).1 < n)%nat) →
  well_formed plane_cap city_count crates →
  planes ≠ [] →
  Forall (λ c, (c < city_count)%nat) planes →
  ∃ st fl,
    plan plane_cap city_count iter_pairs iter_idx randint crates planes g
    = Ok (st, fl) ∧
    ∀ f, f ∈ fl → PlaneEdge.cargo f = replicate city_count 0 →
         PlaneEdge.i f ≠ PlaneEdge.j f.
Proof.
  intros Hp1 Hp2 Hr Hwf Hne Hrange.
  destruct (plan_spec plane_cap city_count iter_pairs iter_idx randint
              Hp1 Hp2 Hr crates planes g Hwf Hne Hrange)
    as (st & pst & Hplan & Hinv & [(Hsets & Htr & _) _] & Hvisited).
  destruct Htr as [Hfl _ _ _].
  exists st, (PlanePlanner.plane_edges pst). split; [done|].
  intros f Hf Hzero. apply list_elem_of_lookup in Hf as [k Hk].
  destruct (Forall2_lookup_l _ _ _ _ _ Hfl Hk) as (t & _ & Hok).
  destruct t as [idx|]; simpl in Hok; [|by destruct Hok].
  destruct Hok as (e & He & _ & _ & Hc). exfalso.
  pose proof (EdgePlanner.inv_edges _ _ _ st Hinv) as Hall.
  rewrite Forall_lookup in Hall. destruct (Hall idx e He) as (_ & _ & Hpos).
  rewrite <- Hc, Hzero, zsum_replicate_0 in Hpos. lia.
Qed.

(** *** The theorems on an instance *)

Lemma lcg_lt (g : N) (n : nat) : (0 < n)%nat → ((lcg g n).1 < n)%nat.
Proof.
  intros Hn. unfold lcg. cbn [fst].
  set (x := ((g * 1103515245 + 12345) mod 2147483648 / 65536)%N).
  assert (x mod N.of_nat n < N.of_nat n)%N by (apply N.mod_lt; lia).
  lia.
Qed.

Lemma elements_idx_perm (X : gset nat) : elements X ≡ₚ elements X.
Proof. reflexivity. Qed.

Definition example_planes : list nat := [3; 1]%nat.

Lemma example_planes_nonempty : example_planes ≠ [].
Proof. discriminate. Qed.

Lemma example_planes_in_range : Forall (λ c, (c < 4)%nat) example_planes.
Proof. repeat constructor. Qed.

Lemma plan_linear_extension_witness :
  ∃ st fl tr,
    plan 30 4 elements elements lcg EdgePlanner.example_crates example_planes
         42%N = Ok (st, fl) ∧
    Forall2 (PlanePlanner.flight_ok 4 (EdgePlanner.edges st)) fl tr ∧
    NoDup (PlanePlanner.visits tr) ∧
    PlanePlanner.respects (EdgePlanner.constraints st) tr ∧
    ∀ a b, (a, b) ∈ EdgePlanner.constraints st →
           ∃ ka kb, tr !! ka = Some (Some a) ∧ tr !! kb = Some (Some b) ∧
                    (ka < kb)%nat.
Proof.
  exact (plan_linear_extension 30 4 elements elements lcg
           EdgePlanner.example_crates example_planes 42%N
           EdgePlanner.elements_perm elements_idx_perm lcg_lt
           EdgePlanner.example_well_formed example_planes_nonempty
           example_planes_in_range).
Defined.

Lemma plan_planes_chained_witness :
  ∃ st fl,
    plan 30 4 elements elements lcg EdgePlanner.example_crates example_planes
         42%N = Ok (st, fl) ∧
    ∀ p k f f',
      PlanePlanner.flights_of p fl !! k = Some f →
      PlanePlanner.flights_of p fl !! S k = Some f' →
      PlaneEdge.j f = PlaneEdge.i f'.
Proof.
  exact (plan_planes_chained 30 4 elements elements lcg
           EdgePlanner.example_crates example_planes 42%N
           EdgePlanner.elements_perm elements_idx_perm lcg_lt
           EdgePlanner.example_well_formed example_planes_nonempty
           example_planes_in_range).
Defined.

Lemma plan_edge_coverage_witness :
  ∃ st fl tr,
    plan 30 4 elements elements lcg EdgePlanner.example_crates example_planes
         42%N = Ok (st, fl) ∧
    Forall2 (PlanePlanner.flight_ok 4 (EdgePlanner.edges st)) fl tr ∧
    PlanePlanner.visits tr ≡ₚ seq 0 (length (EdgePlanner.edges st)) ∧
    edge_of_flight <$> loaded 4 fl ≡ₚ EdgePlanner.edges st.
Proof.
  exact (plan_edge_coverage 30 4 elements elements lcg
           EdgePlanner.example_crates example_planes 42%N
           EdgePlanner.elements_perm elements_idx_perm lcg_lt
           EdgePlanner.example_well_formed example_planes_nonempty
           example_planes_in_range).
Defined.

Lemma plan_jumps_move_witness :
  ∃ st fl,
    plan 30 4 elements elements lcg EdgePlanner.example_crates example_planes
         42%N = Ok (st, fl) ∧
    ∀ f, f ∈ fl → PlaneEdge.cargo f = replicate 4 0 →
         PlaneEdge.i f ≠ PlaneEdge.j f.
Proof.
  exact (plan_jumps_move 30 4 elements elements lcg
           EdgePlanner.example_crates example_planes 42%N
           EdgePlanner.elements_perm elements_idx_perm lcg_lt
           EdgePlanner.example_well_formed example_planes_nonempty
           example_planes_in_range).
Defined.

(** ** Determinism *)

(** A run is determined by the instance, the generator and its seed, and by
    the order in which the Python runtime enumerates sets.  The order of the
    constraint set does not matter at all: two runs that enumerate it
    differently return the same edges, constraints and flights. *)




Module Determinism.

Section Edges.
Variable plane_cap : Z.
Variable city_count : nat.
Variables iter1 iter2 : gset (nat * nat) → list (nat * nat).
Hypothesis cap_pos : 0 < plane_cap.
Hypothesis iter1_perm : ∀ X, iter1 X ≡ₚ elements X.
Hypothesis iter2_perm : ∀ X, iter2 X ≡ₚ elements X.
Variable crates0 : list (list Z).

Import EdgePlanner.






End Edges.
Section Planes.
Variable city_count : nat.
Variables iter1 iter2 : gset (nat * nat) → list (nat * nat).
Variable iter_idx : gset nat → list nat.
Variable G : Type.
Variable randint : G → nat → nat * G.
Variable edges : list Edge.t.
Variable constraints : gset (nat * nat).
Hypothesis iter1_perm : ∀ X, iter1 X ≡ₚ elements X.
Hypothesis iter2_perm : ∀ X, iter2 X ≡ₚ elements X.

Import PlanePlanner.












End Planes.
(** The planes see the order in which a set of edge indices is listed only
    through the lists: two listings that give the same list for every set
    give the same run. *)
Section Listing.
Variable city_count : nat.
Variable iter_pairs : gset (nat * nat) → list (nat * nat).
Variables idx1 idx2 : gset nat → list nat.
Variable G : Type.
Variable randint : G → nat → nat * G.
Variable edges : list Edge.t.
Variable constraints : gset (nat * nat).
Hypothesis listed_alike : ∀ X, idx1 X = idx2 X.

Import PlanePlanner.









End Listing.
End Determinism.













(** ** Auxiliary facts about runs *)

Lemma bind_ok_inv {A B : Type} (m : result A) (k : A → result B) (b : B) :
  bind m k = Ok b → ∃ a, m = Ok a ∧ k a = Ok b.
Proof. destruct m as [a| |]; simpl; [|done..]. intros H. by exists a. Qed.

Lemma for_each_app {A S : Type} (body : A → S → result S) (l1 l2 : list A)
    (s : S) :
  for_each body (l1 ++ l2) s = bind (for_each body l1 s) (for_each body l2).
Proof.
  revert s. induction l1 as [|x l1 IH]; intros s; simpl; [done|].
  destruct (body x s) as [s'| |]; simpl; [apply IH|done..].
Qed.

(** ** More about the constraint store *)

Module StoreFacts.
Import Constraints.

(** On a closed store over [n] edges, any fuel above [n * n] is enough for
    a call that does not close a cycle. *)
Lemma add_constraint_enough iter_pairs n R a b fuel :
  (∀ X, iter_pairs X ≡ₚ elements X) →
  transitive_closed R → bounded n R → (a < n)%nat → (b < n)%nat →
  (b, a) ∉ R → a ≠ b → (n * n < fuel)%nat →
  ∃ F, add_constraint iter_pairs fuel a b R = Ok F ∧
       ∀ x y, (x, y) ∈ F ↔ in_closure R a b x y.
Proof.
  intros Hperm Ht Hbd Ha Hb Hba Hne Hfuel.
  destruct (add_constraint_total iter_pairs Hperm R a b Ht Hba Hne
              fuel (all_index_pairs n)) as [F HF].
  - intros x y [Hxy|[Hxa Hby]].
    + apply Hbd in Hxy as [? ?]. by apply elem_of_all_index_pairs.
    + apply elem_of_all_index_pairs.
      * destruct Hxa as [->|Hxa]; [done|]. by apply Hbd in Hxa as [? ?].
      * destruct Hby as [<-|Hby]; [done|]. by apply Hbd in Hby as [? ?].
  - pose proof (size_all_index_pairs n).
    assert (size (all_index_pairs n ∖ R) ≤ size (all_index_pairs n))%nat
      by (apply subseteq_size; set_solver).
    lia.
  - exists F. split; [done|].
    by apply (add_constraint_closure iter_pairs Hperm R a b Ht Hba Hne fuel F).
Qed.

(** What [add_constraint] adds is exactly what transitivity asks for: the
    store it returns is the least transitively closed store that holds the
    old store and the new pair. *)
Theorem add_constraint_least_closure iter_pairs n R a b fuel :
  (∀ X, iter_pairs X ≡ₚ elements X) →
  transitive_closed R → bounded n R → (a < n)%nat → (b < n)%nat →
  (b, a) ∉ R → a ≠ b → (n * n < fuel)%nat →
  ∃ F, add_constraint iter_pairs fuel a b R = Ok F ∧
       R ⊆ F ∧ (a, b) ∈ F ∧ transitive_closed F ∧
       ∀ T : gset (nat * nat),
         transitive_closed T → R ⊆ T → (a, b) ∈ T → F ⊆ T.
Proof.
  intros Hperm Ht Hbd Ha Hb Hba Hne Hfuel.
  destruct (add_constraint_enough iter_pairs n R a b fuel) as (F & HF & Hin);
    try done.
  exists F. split_and!; [done| | | |].
  - intros [x y] Hxy. apply Hin. by left.
  - apply Hin. right. split; by left.
  - eapply closure_transitive; [exact Ht|exact Hin].
  - intros T HT HRT Hab [x y] Hxy. apply Hin in Hxy as [Hxy|[Hxa Hby]].
    + by apply HRT.
    + assert ((x, b) ∈ T) as Hxb.
      { destruct Hxa as [->|Hxa]; [done|]. apply (HT x a b); [by apply HRT|done]. }
      destruct Hby as [<-|Hby]; [done|]. apply (HT x b y); [done|by apply HRT].
Qed.

Lemma single_pair_closed : transitive_closed {[ (0, 1)%nat ]}.
Proof.
  intros x y z Hxy Hyz.
  apply elem_of_singleton in Hxy. apply elem_of_singleton in Hyz. congruence.
Qed.

Lemma single_pair_bounded : bounded 3 {[ (0, 1)%nat ]}.
Proof.
  intros x y Hxy. apply elem_of_singleton in Hxy. inversion Hxy; subst. lia.
Qed.

Lemma single_pair_free : (2, 1)%nat ∉ ({[ (0, 1)%nat ]} : gset (nat * nat)).
Proof. intros H. apply elem_of_singleton in H. congruence. Qed.

Lemma add_constraint_least_closure_witness :
  ∃ F, add_constraint elements 10 1 2 {[ (0, 1)%nat ]} = Ok F ∧
       {[ (0, 1)%nat ]} ⊆ F ∧ (1, 2)%nat ∈ F ∧ transitive_closed F ∧
       ∀ T : gset (nat * nat),
         transitive_closed T → {[ (0, 1)%nat ]} ⊆ T → (1, 2)%nat ∈ T → F ⊆ T.
Proof.
  exact (add_constraint_least_closure elements 3 {[ (0, 1)%nat ]} 1 2 10
           (λ X, reflexivity (elements X)) single_pair_closed
           single_pair_bounded ltac:(lia) ltac:(lia) single_pair_free
           ltac:(lia) ltac:(lia)).
Defined.

(** [add_constraint] refuses a pair exactly when the pair would close a
    cycle: on a closed store the call raises [AssertionError] if and only if
    the store already holds the reverse pair or the pair is [(a, a)]. *)
Theorem add_constraint_rejects_cycles iter_pairs n R a b fuel :
  (∀ X, iter_pairs X ≡ₚ elements X) →
  transitive_closed R → bounded n R → (a < n)%nat → (b < n)%nat →
  (n * n < fuel)%nat →
  add_constraint iter_pairs fuel a b R = Raise AssertionError
  ↔ (b, a) ∈ R ∨ a = b.
Proof.
  intros Hperm Ht Hbd Ha Hb Hfuel. split.
  - intros Hraise.
    destruct (decide ((b, a) ∈ R)) as [?|Hba]; [by left|].
    destruct (decide (a = b)) as [?|Hne]; [by right|].
    destruct (add_constraint_enough iter_pairs n R a b fuel) as (F & HF & _);
      try done.
    congruence.
  - intros Hcycle. destruct fuel as [|fuel]; [lia|]. simpl.
    case_bool_decide as H1; [|done]. simpl.
    case_bool_decide as H2; [|done]. by destruct Hcycle.
Qed.

Lemma add_constraint_rejects_cycles_witness :
  add_constraint elements 10 1 0 {[ (0, 1)%nat ]} = Raise AssertionError
  ↔ (0, 1)%nat ∈ ({[ (0, 1)%nat ]} : gset (nat * nat)) ∨ 1%nat = 0%nat.
Proof.
  exact (add_constraint_rejects_cycles elements 3 {[ (0, 1)%nat ]} 1 0 10
           (λ X, reflexivity (elements X)) single_pair_closed
           single_pair_bounded ltac:(lia) ltac:(lia) ltac:(lia)).
Defined.

End StoreFacts.

(** ** More about the edge planner *)

Module EdgeFacts.
Import EdgePlanner.

(** *** What [plan_edges] hands to [plan_planes] *)

(** The constraints [plan_edges] returns are a strict partial order on the
    indices of the edges it returns: transitive, irreflexive, and with no
    index outside [0 .. len(edges) - 1]. *)
Theorem plan_edges_constraints_order plane_cap city_count iter_pairs crates :
  (∀ X, iter_pairs X ≡ₚ elements X) →
  well_formed plane_cap city_count crates →
  ∃ st, plan_edges plane_cap city_count iter_pairs crates = Ok st ∧
        Constraints.transitive_closed (constraints st) ∧
        Constraints.irreflexive (constraints st) ∧
        ∀ a b, (a, b) ∈ constraints st →
               (a < length (edges st))%nat ∧ (b < length (edges st))%nat.
Proof.
  intros Hperm Hwf.
  destruct (returns_inv _ _
              (plan_edges_spec plane_cap city_count iter_pairs Hperm crates Hwf))
    as (st & Hst & Hinv & _).
  exists st. split; [done|].
  destruct (inv_order _ _ _ st Hinv) as [Ht Hi].
  split_and!; [done|done|]. apply (inv_bounded _ _ _ st Hinv).
Qed.

Lemma plan_edges_constraints_order_witness :
  ∃ st, plan_edges 30 4 elements example_crates = Ok st ∧
        Constraints.transitive_closed (constraints st) ∧
        Constraints.irreflexive (constraints st) ∧
        ∀ a b, (a, b) ∈ constraints st →
               (a < length (edges st))%nat ∧ (b < length (edges st))%nat.
Proof.
  exact (plan_edges_constraints_order 30 4 elements example_crates
           elements_perm example_well_formed).
Defined.

(** No edge is empty, and both its cities exist: every edge [plan_edges]
    returns carries at least one crate and joins two cities below
    [city_count]. *)
Theorem plan_edges_edges_loaded plane_cap city_count iter_pairs crates :
  (∀ X, iter_pairs X ≡ₚ elements X) →
  well_formed plane_cap city_count crates →
  ∃ st, plan_edges plane_cap city_count iter_pairs crates = Ok st ∧
        ∀ e, e ∈ edges st →
             (Edge.i e < city_count)%nat ∧ (Edge.j e < city_count)%nat ∧
             1 ≤ zsum (Edge.cargo e).
Proof.
  intros Hperm Hwf.
  destruct (returns_inv _ _
              (plan_edges_spec plane_cap city_count iter_pairs Hperm crates Hwf))
    as (st & Hst & Hinv & _).
  exists st. split; [done|]. intros e He.
  pose proof (inv_edges _ _ _ st Hinv) as Hall.
  rewrite Forall_forall in Hall.
  destruct (Hall e He) as ((_ & Hlen & _ & Hi & _) & Hj & Hpos).
  split_and!; [|done|lia].
  rewrite <- Hlen. by eapply lookup_lt_Some.
Qed.

Lemma plan_edges_edges_loaded_witness :
  ∃ st, plan_edges 30 4 elements example_crates = Ok st ∧
        ∀ e, e ∈ edges st →
             (Edge.i e < 4)%nat ∧ (Edge.j e < 4)%nat ∧ 1 ≤ zsum (Edge.cargo e).
Proof.
  exact (plan_edges_edges_loaded 30 4 elements example_crates
           elements_perm example_well_formed).
Defined.

(** *** Inputs outside the contract *)

Lemma get2_cases (crates : list (list Z)) (i j : nat) :
  (∃ c, get2 crates i j = Ok c) ∨ get2 crates i j = Raise IndexError.
Proof.
  unfold get2, get. destruct (crates !! i) as [row|]; simpl; [|by right].
  destruct (row !! j); [left; by eexists|by right].
Qed.

Lemma with_keys_raises {A : Type} (key : A → result Z) (e : exn) (l : list A) :
  (∀ x, x ∈ l → (∃ k, key x = Ok k) ∨ key x = Raise e) →
  (∃ x, x ∈ l ∧ key x = Raise e) →
  ∀ acc,
    for_each (λ x acc, let* k := key x in Ok (acc ++ [(x, k)])) l acc = Raise e.
Proof.
  induction l as [|x l IH]; intros Hall (y & Hy & Hraise) acc.
  - by apply not_elem_of_nil in Hy.
  - simpl. destruct (Hall x) as [[k Hk]|Hx]; [by left| |by rewrite Hx].
    rewrite Hk. cbn [bind]. apply IH.
    + intros z Hz. apply Hall. by right.
    + apply elem_of_cons in Hy as [->|Hy]; [congruence|by exists y].
Qed.

(** A demand matrix that is too small is refused at once: if some pair of
    cities below [city_count] has no entry in [crates], [plan_edges] raises
    [IndexError] (while it sorts the pairs, before any edge is made). *)
Theorem plan_edges_short_matrix plane_cap city_count iter_pairs crates i j :
  (i < city_count)%nat → (j < city_count)%nat →
  (row ← crates !! i; row !! j) = None →
  plan_edges plane_cap city_count iter_pairs crates = Raise IndexError.
Proof.
  intros Hi Hj Hnone. unfold plan_edges, sorted_by_key_desc, with_keys.
  cbv zeta.
  rewrite (with_keys_raises (demand crates) IndexError); [done| |].
  - intros [i' j'] _. apply get2_cases.
  - exists (i, j). split; [by apply elem_of_all_pairs|].
    unfold demand, get2, get. simpl.
    destruct (crates !! i) as [row|]; simpl in *; [|done]. by rewrite Hnone.
Qed.

Lemma plan_edges_short_matrix_witness :
  plan_edges 30 2 elements [[0; 5]; [3]] = Raise IndexError.
Proof.
  exact (plan_edges_short_matrix 30 2 elements [[0; 5]; [3]] 1 1
           ltac:(lia) ltac:(lia) eq_refl).
Defined.



End EdgeFacts.

(** ** More about [find_path] *)

Module PathFacts.
Import EdgePlanner.

(** The city reached by flying the edges [p] one after the other from the
    city [c]; [None] if an index names no edge, or if an edge does not leave
    the city the one before it has reached. *)
Fixpoint walk (es : list Edge.t) (c : nat) (p : list nat) : option nat :=
  match p with
  | [] => Some c
  | q :: p' =>
    match es !! q with
    | Some e => if bool_decide (Edge.i e = c) then walk es (Edge.j e) p'
                else None
    | None => None
    end
  end.

Lemma walk_snoc (es : list Edge.t) (c : nat) (p : list nat) (q : nat) :
  walk es c (p ++ [q])
  = u ← walk es c p; e ← es !! q;
    if bool_decide (Edge.i e = u) then Some (Edge.j e) else None.
Proof.
  revert c. induction p as [|a p IH]; intros c; simpl.
  - destruct (es !! q) as [e|]; simpl; [|done]. by case_bool_decide.
  - destruct (es !! a) as [e|]; [|done]. case_bool_decide; [apply IH|done].
Qed.

Section Paths.
Variable plane_cap : Z.
Variable city_count : nat.
Variable st : state.
Hypothesis edges_in_range :
  ∀ idx e, edges st !! idx = Some e → (Edge.j e < city_count)%nat.

Lemma path_to_walk (src u : nat) (p : list nat) :
  path_to plane_cap st src u p → walk (edges st) src p = Some u.
Proof.
  induction 1 as [|u p idx e Hp IH He Hi Hroom Hfree Hsrc Hnew]; [done|].
  rewrite walk_snoc, IH. simpl. rewrite He. simpl.
  by rewrite bool_decide_eq_true_2.
Qed.

Lemma path_to_no_back (src u : nat) (p : list nat) :
  path_to plane_cap st src u p →
  ∀ a b x y, p !! a = Some x → p !! b = Some y → (a < b)%nat →
             (y, x) ∉ constraints st.
Proof.
  induction 1 as [|u p idx e Hp IH He Hi Hroom Hfree Hsrc Hnew];
    intros a b x y Ha Hb Hlt; [done|].
  apply lookup_snoc_Some in Hb as [[Hb1 Hb]|[Hb ->]].
  - rewrite lookup_app_l in Ha by lia. by eapply IH.
  - rewrite lookup_app_l in Ha by lia. apply Hfree.
    by eapply list_elem_of_lookup_2.
Qed.

Lemma path_to_src (src : nat) (p : list nat) :
  path_to plane_cap st src src p → p = [].
Proof. inversion 1 as [|u p' idx e Hp He Hi Hroom Hfree Hsrc Hnew]; [done|]. done. Qed.

(** The search as far as its last line: the loop returns a table that
    satisfies the invariant, and [find_path] reads its answer off it. *)
Lemma find_path_table (src dst : nat) :
  (src < city_count)%nat →
  ∃ paths,
    find_path_loop plane_cap (S city_count) st
      (<[src := Some []]> (replicate city_count None)) [src] = Ok paths ∧
    bfs_inv plane_cap city_count st src paths [] ∧
    find_path plane_cap city_count src dst st = get paths dst.
Proof.
  intros Hsrc.
  assert (Hl : replicate city_count (None : option (list nat)) !! src = Some None)
    by (by apply lookup_replicate_2).
  destruct (returns_inv
              (find_path_loop plane_cap (S city_count) st
                 (<[src := Some []]> (replicate city_count None)) [src])
              (λ paths', bfs_inv plane_cap city_count st src paths' []))
    as (paths & Hloop & Hinv).
  { eapply outcome_weaken;
      [apply (find_path_loop_spec plane_cap city_count st src edges_in_range
                (S city_count))
      |intros paths H; exact H|].
    + unfold bfs_inv. split_and!.
      * by rewrite length_insert, length_replicate.
      * exists []. apply list_lookup_insert_eq. by rewrite length_replicate.
      * intros c p Hc. destruct (decide (c = src)) as [->|Hne].
        -- rewrite list_lookup_insert_eq in Hc by (by rewrite length_replicate).
           inversion Hc; subst. split; [constructor|].
           intros q e Hq. by apply not_elem_of_nil in Hq.
        -- rewrite list_lookup_insert_ne in Hc by done.
           apply lookup_replicate in Hc as [? ?]. done.
      * intros c Hc. apply list_elem_of_singleton in Hc. subst c.
        exists []. apply list_lookup_insert_eq. by rewrite length_replicate.
    + pose proof (unseen_insert _ src [] Hl) as Hu.
      rewrite unseen_replicate in Hu. simpl. lia. }
  exists paths. split_and!; [done|done|].
  unfold find_path. unfold get at 1. rewrite Hl. cbn [bind].
  by rewrite Hloop.
Qed.

End Paths.

(** A path [find_path] returns can be flown: taken in order from [src], its
    edges follow one another and end in [dst]; no edge occurs twice; every
    edge has room left; and no edge of the path has to precede an edge that
    comes before it on the path. *)
Theorem find_path_sound plane_cap city_count st src dst :
  (∀ idx e, edges st !! idx = Some e → (Edge.j e < city_count)%nat) →
  (src < city_count)%nat → (dst < city_count)%nat →
  ∃ r, find_path plane_cap city_count src dst st = Ok r ∧
       ∀ p, r = Some p →
            walk (edges st) src p = Some dst ∧
            NoDup p ∧
            (∀ q, q ∈ p → ∃ e, edges st !! q = Some e ∧
                               zsum (Edge.cargo e) < plane_cap) ∧
            (∀ a b x y, p !! a = Some x → p !! b = Some y → (a < b)%nat →
                        (y, x) ∉ constraints st).
Proof.
  intros Hrange Hsrc Hdst.
  destruct (returns_inv _ _
              (find_path_spec plane_cap city_count st src Hrange dst Hsrc Hdst))
    as (r & Hr & Hpath).
  exists r. split; [done|]. intros p ->. specialize (Hpath p eq_refl).
  split_and!.
  - by eapply path_to_walk.
  - by eapply path_to_NoDup.
  - by eapply path_to_lookup.
  - by eapply path_to_no_back.
Qed.

(** Two edges, 0 -> 1 and 1 -> 2, both with room. *)
Definition example_state : state :=
  mk_state [[0; 0; 9]; [0; 0; 0]; [0; 0; 0]]
           [Edge.mk 0 1 [0; 5; 0]; Edge.mk 1 2 [0; 0; 7]] ∅ [].

Lemma example_state_in_range :
  ∀ idx e, edges example_state !! idx = Some e → (Edge.j e < 3)%nat.
Proof.
  intros [|[|idx]] e He; simpl in He; inversion He; subst; simpl; lia.
Qed.

Lemma find_path_sound_witness :
  ∃ r, find_path 30 3 0 2 example_state = Ok r ∧
       ∀ p, r = Some p →
            walk (edges example_state) 0 p = Some 2%nat ∧
            NoDup p ∧
            (∀ q, q ∈ p → ∃ e, edges example_state !! q = Some e ∧
                               zsum (Edge.cargo e) < 30) ∧
            (∀ a b x y, p !! a = Some x → p !! b = Some y → (a < b)%nat →
                        (y, x) ∉ constraints example_state).
Proof.
  exact (find_path_sound 30 3 example_state 0 2 example_state_in_range
           ltac:(lia) ltac:(lia)).
Defined.

(** From a city to itself the search returns the empty path, and the
    transshipment loop, asked to ship crates of such a pair, raises
    [ValueError]: [min] is called on an empty sequence. *)
Theorem reuse_loop_same_city plane_cap city_count iter_pairs st i fuel :
  (∀ idx e, edges st !! idx = Some e → (Edge.j e < city_count)%nat) →
  shaped city_count (crates st) →
  (i < city_count)%nat →
  0 < entry (crates st) i i →
  find_path plane_cap city_count i i st = Ok (Some []) ∧
  reuse_loop plane_cap city_count iter_pairs (S fuel) i i st = Raise ValueError.
Proof.
  intros Hrange Hshape Hi Hpos.
  assert (Hfind : find_path plane_cap city_count i i st = Ok (Some [])).
  { destruct (find_path_table plane_cap city_count st Hrange i i Hi)
      as (paths & _ & Hinv & ->).
    destruct Hinv as (_ & [p Hp] & Hpaths & _).
    destruct (Hpaths i p Hp) as [Hpath _].
    apply path_to_src in Hpath. subst p. unfold get. by rewrite Hp. }
  split; [done|]. cbn [reuse_loop].
  rewrite (get2_shaped city_count) by done. cbn [bind].
  rewrite bool_decide_eq_true_2 by done. by rewrite Hfind.
Qed.

Lemma reuse_loop_same_city_witness :
  find_path 30 2 0 0 (mk_state [[4; 0]; [0; 0]] [] ∅ []) = Ok (Some []) ∧
  reuse_loop 30 2 elements 1 0 0 (mk_state [[4; 0]; [0; 0]] [] ∅ [])
  = Raise ValueError.
Proof.
  refine (reuse_loop_same_city 30 2 elements
            (mk_state [[4; 0]; [0; 0]] [] ∅ []) 0 0 _ _ _ _).
  - intros idx e He. simpl in He. by rewrite lookup_nil in He.
  - split; [done|]. repeat constructor.
  - lia.
  - vm_compute. reflexivity.
Defined.

(** *** A direct edge is preferred *)

Section Direct.
Variable plane_cap : Z.
Variable st : state.






End Direct.






End PathFacts.

(** ** The run of [plan_edges], step by step *)

Module EdgeRun.
Import EdgePlanner.

Ltac side := first [assumption | eapply inv_shape; eassumption].

(** [edges[idx].cargo[j] += amount] on the edge list. *)
Definition bump_at (j : nat) (amount : Z) (es : list Edge.t) (idx : nat)
  : list Edge.t :=
  match es !! idx with
  | Some e => <[idx := bump j amount e]> es
  | None => es
  end.

Lemma increment_edges j amount idx st s :
  increment j amount idx st = Ok s →
  edges s = bump_at j amount (edges st) idx ∧ crates s = crates st ∧
  constraints s = constraints st.
Proof.
  unfold increment, vec_add, get, bump_at.
  destruct (edges st !! idx) as [e|]; simpl; [|done].
  destruct (Edge.cargo e !! j) as [x|] eqn:Hx; simpl; [|done].
  intros [= <-]. simpl. split; [|done]. unfold bump. by rewrite Hx.
Qed.

Lemma increments_edges j amount p :
  ∀ st s, for_each (increment j amount) p st = Ok s →
          edges s = foldl (bump_at j amount) (edges st) p ∧
          crates s = crates st ∧ constraints s = constraints st.
Proof.
  induction p as [|q p IH]; intros st s Hrun; simpl in Hrun.
  - by inversion Hrun; subst.
  - apply bind_ok_inv in Hrun as (s1 & Hinc & Hrest).
    apply increment_edges in Hinc as (He & Hc & Hk).
    apply IH in Hrest as (He' & Hc' & Hk'). simpl.
    by rewrite He', Hc', Hk', He, Hc, Hk.
Qed.

Lemma add_constraints_frame iter_pairs (l : list (nat * nat)) :
  ∀ st s,
    for_each (λ '(prev_edge_idx, next_edge_idx),
                add_constraint iter_pairs prev_edge_idx next_edge_idx) l st
    = Ok s →
    edges s = edges st ∧ crates s = crates st.
Proof.
  induction l as [|[a b] l IH]; intros st s Hrun; simpl in Hrun.
  - by inversion Hrun; subst.
  - apply bind_ok_inv in Hrun as (s1 & Hadd & Hrest).
    unfold add_constraint in Hadd.
    apply bind_ok_inv in Hadd as (c & _ & Hs1). inversion Hs1; subst s1.
    apply IH in Hrest as [He Hc]. by rewrite He, Hc.
Qed.

(** The constraints of a path only add to the store. *)
Lemma add_constraints_grow iter_pairs (l : list (nat * nat)) :
  (∀ X, iter_pairs X ≡ₚ elements X) →
  ∀ st s,
    Constraints.strict_order (constraints st) →
    for_each (λ '(prev_edge_idx, next_edge_idx),
                add_constraint iter_pairs prev_edge_idx next_edge_idx) l st
    = Ok s →
    constraints st ⊆ constraints s ∧ ∀ xy, xy ∈ l → xy ∈ constraints s.
Proof.
  intros Hperm. induction l as [|[a b] l IH]; intros st s Hord Hrun;
    simpl in Hrun.
  - inversion Hrun; subst. split; [done|]. intros xy Hxy.
    by apply not_elem_of_nil in Hxy.
  - apply bind_ok_inv in Hrun as (s1 & Hadd & Hrest).
    unfold add_constraint in Hadd.
    apply bind_ok_inv in Hadd as (F & HF & Hs1). inversion Hs1; subst s1.
    destruct (Constraints.add_constraint_asserts _ _ _ _ _ _ HF) as [Hba Hne].
    pose proof (Constraints.add_constraint_closure iter_pairs Hperm
                  (constraints st) a b (proj1 Hord) Hba Hne _ F HF) as Hin.
    pose proof (Constraints.add_constraint_strict_order _ _ _ _ _ _ Hperm
                  Hord HF) as Hord'.
    apply IH in Hrest as [Hsub Hl]; [|done]. simpl in Hsub. split.
    + intros [x y] Hxy. apply Hsub, Hin. by left.
    + intros xy [->|Hxy]%elem_of_cons; [|by apply Hl].
      apply Hsub, Hin. right. split; by left.
Qed.

(** What a committed path changes. *)
Lemma commit_path_shape plane_cap iter_pairs i j p st st' :
  commit_path plane_cap iter_pairs i j p st = Ok st' →
  ∃ c amount s1,
    get2 (crates st) i j = Ok c ∧ amount ≤ c ∧
    edges st' = foldl (bump_at j amount) (edges st) p ∧
    set2 (crates st) i j (c - amount) = Ok (crates st') ∧
    constraints s1 = constraints st ∧
    for_each (λ '(prev_edge_idx, next_edge_idx),
                add_constraint iter_pairs prev_edge_idx next_edge_idx)
             (consecutive p) s1
    = Ok (mk_state (crates s1) (edges st') (constraints st') (history st')).
Proof.
  unfold commit_path. intros Hrun.
  apply bind_ok_inv in Hrun as (remaining & _ & Hrun).
  apply bind_ok_inv in Hrun as (path_cap & _ & Hrun).
  apply bind_ok_inv in Hrun as (c & Hc & Hrun).
  apply bind_ok_inv in Hrun as (s1 & Hinc & Hrun).
  apply bind_ok_inv in Hrun as (s2 & Hadd & Hrun).
  apply bind_ok_inv in Hrun as (c' & Hc' & Hrun).
  apply bind_ok_inv in Hrun as (cr & Hset & Hrun).
  inversion Hrun; subst st'. clear Hrun.
  apply increments_edges in Hinc as (He1 & Hc1 & Hk1).
  pose proof (add_constraints_frame _ _ _ _ Hadd) as [He2 Hc2].
  rewrite Hc2, Hc1 in Hc', Hset. rewrite Hc in Hc'. inversion Hc'; subst c'.
  exists c, (Z.min path_cap c), s1. split_and!; [done|lia| |done|done|].
  - simpl. by rewrite He2, He1.
  - rewrite Hadd. simpl. rewrite <- Hc2. by destruct s2.
Qed.

Section Run.
Variable plane_cap : Z.
Variable city_count : nat.
Variable iter_pairs : gset (nat * nat) → list (nat * nat).
Hypothesis cap_pos : 0 < plane_cap.
Hypothesis iter_pairs_perm : ∀ X, iter_pairs X ≡ₚ elements X.
Variable crates0 : list (list Z).

(** The two things [plan_edges] does to its state: it ships as much of a
    pair's demand as one plane takes on a new edge of its own, or it puts
    [amount] crates of the pair on the edges of a path found for it. *)
Inductive move (st st' : state) : Prop :=
| move_ship (i j : nat) (amount : Z) :
    (i < city_count)%nat → (j < city_count)%nat →
    amount = Z.min plane_cap (entry (crates st) i j) → 0 < amount →
    edges st' = edges st ++ [new_edge city_count i j amount] →
    set2 (crates st) i j (entry (crates st) i j - amount) = Ok (crates st') →
    constraints st' = constraints st →
    move st st'
| move_commit (i j : nat) (p : list nat) (amount : Z) :
    (i < city_count)%nat → (j < city_count)%nat →
    path_to plane_cap st i j p →
    0 < amount → amount ≤ entry (crates st) i j →
    edges st' = foldl (bump_at j amount) (edges st) p →
    set2 (crates st) i j (entry (crates st) i j - amount) = Ok (crates st') →
    constraints st ⊆ constraints st' →
    (∀ k x y, p !! k = Some x → p !! S k = Some y →
              (x, y) ∈ constraints st') →
    move st st'.

Definition step (st st' : state) : Prop :=
  inv plane_cap city_count crates0 st ∧ move st st' ∧
  inv plane_cap city_count crates0 st'.

Abbreviation inv' := (inv plane_cap city_count crates0).

Lemma ship_step st i j amount :
  inv' st → (i < city_count)%nat → (j < city_count)%nat →
  amount = Z.min plane_cap (entry (crates st) i j) → 0 < amount →
  ∃ st1 cr,
    add_edge plane_cap city_count i j amount st = Ok st1 ∧
    crates st1 = crates st ∧
    set2 (crates st) i j (entry (crates st) i j - amount) = Ok cr ∧
    inv' (with_crates st1 cr) ∧ shrinks st (with_crates st1 cr) ∧
    entry cr i j = entry (crates st) i j - amount ∧
    step st (with_crates st1 cr).
Proof.
  intros Hinv Hi Hj Ha Hpos.
  destruct (ship_spec plane_cap city_count crates0 st i j amount)
    as (st1 & cr & Hadd & Hcr & Hset & Hinv1 & Hshr & Hent); auto; try lia.
  exists st1, cr. split_and!; auto.
  split_and!; auto.
  rewrite add_edge_returns in Hadd by (done || lia).
  inversion Hadd; subst st1. by apply (move_ship _ _ i j amount).
Qed.

Lemma bulk_loop_run fuel :
  ∀ st i j,
    inv' st → (i < city_count)%nat → (j < city_count)%nat →
    (Z.to_nat (entry (crates st) i j) < fuel)%nat →
    ∃ st', bulk_loop plane_cap city_count fuel i j st = Ok st' ∧
           inv' st' ∧ shrinks st st' ∧
           entry (crates st') i j < plane_cap ∧ rtc step st st'.
Proof.
  induction fuel as [|fuel IH]; intros st i j Hinv Hi Hj Hfuel; [lia|].
  cbn [bulk_loop].
  rewrite (get2_shaped city_count) by side. cbn [bind].
  case_bool_decide as Hc.
  - destruct (ship_step st i j plane_cap)
      as (st1 & cr & -> & Hcr & Hset & Hinv1 & Hshr & Hent & Hstep);
      auto; try lia.
    cbn [bind]. rewrite Hcr.
    rewrite (get2_shaped city_count) by side. cbn [bind].
    rewrite Hset. cbn [bind].
    destruct (IH (with_crates st1 cr) i j)
      as (st' & -> & Hinv' & Hshr' & Hlt & Hrun); auto.
    { simpl. lia. }
    exists st'. split_and!; auto.
    + by eapply shrinks_trans.
    + by eapply rtc_l.
  - exists st. split_and!; auto using shrinks_refl; [lia|done].
Qed.

Lemma reuse_loop_run fuel :
  ∀ st i j,
    inv' st → (i < city_count)%nat → (j < city_count)%nat →
    (Z.to_nat (entry (crates st) i j) < fuel)%nat →
    ∃ st', reuse_loop plane_cap city_count iter_pairs fuel i j st = Ok st' ∧
           inv' st' ∧ shrinks st st' ∧ rtc step st st'.
Proof.
  induction fuel as [|fuel IH]; intros st i j Hinv Hi Hj Hfuel; [lia|].
  cbn [reuse_loop].
  rewrite (get2_shaped city_count) by side. cbn [bind].
  case_bool_decide as Hc;
    [|exists st; split_and!; auto using shrinks_refl; done].
  destruct (returns_inv _ _
              (find_path_spec plane_cap city_count st i
                 (inv_edges_in_range _ _ _ st Hinv) j Hi Hj))
    as (r & -> & Hpath).
  cbn [bind]. destruct r as [p|];
    [|exists st; split_and!; auto using shrinks_refl; done].
  specialize (Hpath p eq_refl).
  destruct (returns_inv _ _
              (commit_path_spec plane_cap city_count iter_pairs cap_pos
                 iter_pairs_perm crates0 st i j p Hinv Hi Hj Hc Hpath))
    as (st1 & Hcommit & Hinv1 & Hshr1 & Hlt1).
  rewrite Hcommit. cbn [bind].
  destruct (commit_path_shape _ _ _ _ _ _ _ Hcommit)
    as (c & amount & s1 & Hget & Hle & Hedges & Hset & Hk1 & Hadd).
  apply (add_constraints_grow iter_pairs _ iter_pairs_perm) in Hadd
    as [Hsub Hcons];
    [|rewrite Hk1; by eapply inv_order].
  rewrite Hk1 in Hsub. simpl in Hsub, Hcons.
  rewrite (get2_shaped city_count) in Hget by side.
  inversion Hget; subst c.
  assert (Hamount : 0 < amount).
  { destruct (set2_shaped city_count (crates st) i j
                (entry (crates st) i j - amount))
      as (m' & Hm' & _ & Hentry & _); eauto using inv_shape.
    rewrite Hset in Hm'. inversion Hm'; subst m'.
    rewrite Hentry, bool_decide_eq_true_2 in Hlt1 by done. lia. }
  destruct (IH st1 i j) as (st' & -> & Hinv' & Hshr' & Hrun); auto.
  { pose proof (inv_nonneg _ _ _ st1 Hinv1 i j). lia. }
  exists st'. split_and!; auto.
  - by eapply shrinks_trans.
  - eapply rtc_l; [|exact Hrun]. split_and!; auto.
    apply (move_commit _ _ i j p amount); auto.
    intros k x y Hx Hy. apply Hcons. unfold consecutive.
    apply list_elem_of_lookup. exists k.
    apply lookup_zip_with_Some. exists x, y. split_and!; [done|done|].
    by rewrite lookup_tail.
Qed.

Lemma plan_pair_run st i j :
  inv' st → (i < city_count)%nat → (j < city_count)%nat →
  ∃ st', plan_pair plane_cap city_count iter_pairs (i, j) st = Ok st' ∧
         inv' st' ∧ rtc step st st'.
Proof.
  intros Hinv Hi Hj. unfold plan_pair.
  rewrite (get2_shaped city_count) by side. cbn [bind].
  destruct (bulk_loop_run (S (Z.to_nat (entry (crates st) i j))) st i j)
    as (st1 & -> & Hinv1 & Hshr1 & Hlt1 & Hrun1); auto.
  cbn [bind].
  rewrite (get2_shaped city_count) by side. cbn [bind].
  destruct (reuse_loop_run (S (Z.to_nat (entry (crates st1) i j))) st1 i j)
    as (st2 & -> & Hinv2 & Hshr2 & Hrun2); auto.
  cbn [bind].
  rewrite (get2_shaped city_count) by side. cbn [bind].
  pose proof (Hshr2 i j) as Hle2.
  case_bool_decide as Hc.
  - destruct (ship_step st2 i j (entry (crates st2) i j))
      as (st3 & cr & -> & Hcr & Hset & Hinv3 & Hshr3 & Hent & Hstep);
      auto; try lia.
    cbn [bind]. rewrite Hcr. rewrite Z.sub_diag in Hset. rewrite Hset.
    cbn [bind]. eexists. split_and!; [done|done|].
    eapply rtc_trans; [exact Hrun1|].
    eapply rtc_trans; [exact Hrun2|]. by apply rtc_once.
  - exists st2. split_and!; auto. by eapply rtc_trans.
Qed.

Lemma plan_pairs_run (l : list (nat * nat)) :
  (∀ ij, ij ∈ l → (ij.1 < city_count)%nat ∧ (ij.2 < city_count)%nat) →
  ∀ st, inv' st →
    ∃ st', for_each (plan_pair plane_cap city_count iter_pairs) l st = Ok st' ∧
           inv' st' ∧ rtc step st st'.
Proof.
  induction l as [|[i j] l IH]; intros Hl st Hinv; cbn [for_each].
  - by exists st.
  - destruct (Hl (i, j)) as [Hi Hj]; [by left|]. simpl in Hi, Hj.
    destruct (plan_pair_run st i j) as (st1 & -> & Hinv1 & Hrun1); auto.
    cbn [bind].
    destruct (IH (λ ij Hin, Hl ij (list_elem_of_further _ _ _ Hin)) st1 Hinv1)
      as (st' & -> & Hinv' & Hrun').
    exists st'. split_and!; auto. by eapply rtc_trans.
Qed.

End Run.

(** The whole run: [plan_edges] returns a state that a sequence of steps
    reaches from the initial one, in which no entry of the matrix is left. *)
Lemma plan_edges_run plane_cap city_count iter_pairs crates :
  (∀ X, iter_pairs X ≡ₚ elements X) →
  well_formed plane_cap city_count crates →
  ∃ st, plan_edges plane_cap city_count iter_pairs crates = Ok st ∧
        inv plane_cap city_count crates st ∧
        (∀ i j, entry (EdgePlanner.crates st) i j = 0) ∧
        rtc (step plane_cap city_count crates) (mk_state crates [] ∅ []) st.
Proof.
  intros Hperm Hwf.
  destruct (returns_inv _ _
              (plan_edges_spec plane_cap city_count iter_pairs Hperm crates Hwf))
    as (st & Hst & Hinv & Hzero).
  exists st. split_and!; auto.
  unfold plan_edges in Hst. cbv zeta in Hst.
  apply bind_ok_inv in Hst as (ij_order & Hsort & Hst).
  destruct (sorted_by_key_desc_returns (demand crates) (all_pairs city_count))
    as (ij_order' & Hsort' & Hperm').
  { intros [i j] [Hi Hj]%elem_of_all_pairs. exists (entry crates i j).
    apply (get2_shaped city_count); [apply Hwf|done..]. }
  rewrite Hsort in Hsort'. inversion Hsort'; subst ij_order'.
  destruct (plan_pairs_run plane_cap city_count iter_pairs (proj1 Hwf) Hperm
              crates ij_order) with (st := mk_state crates [] ∅ [])
    as (st' & Hst' & _ & Hrun).
  - intros [i j] Hin. rewrite Hperm' in Hin. by apply elem_of_all_pairs in Hin.
  - by apply inv_init.
  - rewrite Hst in Hst'. by inversion Hst'; subst.
Qed.

End EdgeRun.

(** ** How many edges [plan_edges] makes *)

(** The value a 64-bit integer of numpy holds after an operation whose
    exact result is [x]. *)
Definition wrap64 (x : Z) : Z := (x + 2 ^ 63) `mod` 2 ^ 64 - 2 ^ 63.

Lemma wrap64_small (x : Z) : - 2 ^ 63 ≤ x < 2 ^ 63 → wrap64 x = x.
Proof. intros H. unfold wrap64. rewrite Z.mod_small; lia. Qed.

Lemma wrap64_le (x : Z) : - 2 ^ 63 ≤ x → wrap64 x ≤ x.
Proof.
  intros H. unfold wrap64.
  pose proof (Z.mod_pos_bound (x + 2 ^ 63) (2 ^ 64) ltac:(lia)) as Hlt.
  pose proof (Z.mod_le (x + 2 ^ 63) (2 ^ 64) ltac:(lia) ltac:(lia)). lia.
Qed.

(** The script's lower bounds: [crates.sum(axis=1)] are the sums of the rows
    and [crates.sum(axis=0)] the sums of the [city_count] columns, and
    [(s + plane_cap - 1) // plane_cap] is floor division.  The sums, the
    two additions and the division are operations of 64-bit integers
    (numpy takes the Python integer [plane_cap] as one): each gives the
    exact result wrapped, in whatever order numpy adds. *)
Definition ceil_div64 (plane_cap : Z) (s : Z) : Z :=
  wrap64 (wrap64 (wrap64 (s + plane_cap) - 1) `div` plane_cap).

Definition min_landings (plane_cap : Z) (crates : list (list Z)) : Z :=
  wrap64 (zsum ((λ row, ceil_div64 plane_cap (wrap64 (zsum row))) <$> crates)).

Definition min_takeoffs (plane_cap : Z) (city_count : nat)
    (crates : list (list Z)) : Z :=
  wrap64 (zsum ((λ d, ceil_div64 plane_cap (wrap64 (column_sum crates d)))
                  <$> seq 0 city_count)).

Definition min_edges (plane_cap : Z) (city_count : nat)
    (crates : list (list Z)) : Z :=
  Z.max (min_landings plane_cap crates)
        (min_takeoffs plane_cap city_count crates).

(** Planes needed to ship every pair of cities on edges of its own. *)
Definition direct_edges (plane_cap : Z) (crates : list (list Z)) : Z :=
  zsum ((λ row, zsum ((λ c, (c + plane_cap - 1) `div` plane_cap) <$> row))
          <$> crates).

Module EdgeBounds.
Import EdgePlanner EdgeRun.

(** *** Sums *)

Lemma zsum_cons (x : Z) (v : list Z) : zsum (x :: v) = x + zsum v.
Proof. done. Qed.

Lemma zsum_le {A : Type} (f g : A → Z) (l : list A) :
  (∀ x, x ∈ l → f x ≤ g x) → zsum (f <$> l) ≤ zsum (g <$> l).
Proof.
  induction l as [|x l IH]; intros H; [simpl; lia|].
  rewrite !fmap_cons, !zsum_cons.
  pose proof (H x (list_elem_of_here _ _)).
  pose proof (IH (λ y Hy, H y (list_elem_of_further _ _ _ Hy))). lia.
Qed.

Lemma zsum_ext {A : Type} (f g : A → Z) (l : list A) :
  (∀ x, x ∈ l → f x = g x) → zsum (f <$> l) = zsum (g <$> l).
Proof.
  intros H. apply Z.le_antisymm; apply zsum_le; intros x Hx;
    rewrite (H x Hx); lia.
Qed.

Lemma zsum_fmap_const0 {A : Type} (l : list A) : zsum ((λ _, 0) <$> l) = 0.
Proof. induction l; [done|]. rewrite fmap_cons, zsum_cons. lia. Qed.

(** Exactly one index of [0 .. n - 1] is [k]. *)
Lemma zsum_indicator_seq (n : nat) :
  ∀ s k : nat,
    zsum ((λ d, if bool_decide (k = d) then 1 else 0) <$> seq s n)
    = if bool_decide (s ≤ k < s + n)%nat then 1 else 0.
Proof.
  induction n as [|n IH]; intros s k.
  - simpl. rewrite bool_decide_eq_false_2; [done|lia].
  - cbn [seq]. rewrite fmap_cons, zsum_cons, IH.
    repeat case_bool_decide; lia.
Qed.

Lemma zsum_indicator (n k : nat) :
  (k < n)%nat →
  zsum ((λ d, if bool_decide (k = d) then 1 else 0) <$> seq 0 n) = 1.
Proof.
  intros Hk. rewrite zsum_indicator_seq. rewrite bool_decide_eq_true_2; [done|lia].
Qed.

(** Counting the edges by a city of theirs counts every edge once. *)
Lemma count_by_city (city : Edge.t → nat) (n : nat) (es : list Edge.t) :
  Forall (λ e, (city e < n)%nat) es →
  zsum ((λ d, zsum ((λ e, if bool_decide (city e = d) then 1 else 0) <$> es))
          <$> seq 0 n)
  = Z.of_nat (length es).
Proof.
  induction 1 as [|e es He Hes IH].
  - simpl. rewrite zsum_fmap_const0. lia.
  - rewrite (zsum_ext _ (λ d, (if bool_decide (city e = d) then 1 else 0)
       + zsum ((λ e, if bool_decide (city e = d) then 1 else 0) <$> es)))
      by done.
    assert (Hadd : ∀ (f g : nat → Z) (l : list nat),
               zsum ((λ d, f d + g d) <$> l) = zsum (f <$> l) + zsum (g <$> l)).
    { intros f g l. induction l as [|d l IHl]; [done|].
      rewrite !fmap_cons, !zsum_cons. lia. }
    rewrite Hadd, IH, zsum_indicator by done. rewrite length_cons. lia.
Qed.

Lemma ceil_le (plane_cap x k : Z) :
  0 < plane_cap → x ≤ plane_cap * k → (x + plane_cap - 1) `div` plane_cap ≤ k.
Proof.
  intros Hcap Hx.
  assert ((x + plane_cap - 1) `div` plane_cap < k + 1); [|lia].
  apply Z.div_lt_upper_bound; lia.
Qed.

Lemma lookup_le_zsum (v : list Z) (k : nat) :
  Forall (λ x, 0 ≤ x) v → 0 ≤ default 0 (v !! k) ≤ zsum v.
Proof.
  intros Hv. revert k. induction Hv as [|x v Hx Hv IH]; intros [|k]; simpl;
    try lia.
  - pose proof (zsum_nonneg v Hv). lia.
  - specialize (IH k). lia.
Qed.

(** *** The rows of the matrix *)

Definition row_sum (crates : list (list Z)) (c : nat) : Z :=
  zsum (default [] (crates !! c)).

Lemma rows_by_city (f : list Z → Z) (n : nat) (m : list (list Z)) :
  length m = n →
  f <$> m = (λ c, f (default [] (m !! c))) <$> seq 0 n.
Proof.
  intros Hlen. apply list_eq. intros k. rewrite !list_lookup_fmap.
  destruct (m !! k) as [row|] eqn:Hk; simpl.
  - rewrite lookup_seq_lt by (apply lookup_lt_Some in Hk; lia). simpl.
    by rewrite Hk.
  - rewrite lookup_seq_ge; [done|]. apply lookup_ge_None in Hk. lia.
Qed.

Lemma set2_inv (m : list (list Z)) (i j : nat) (x : Z) (m' : list (list Z)) :
  set2 m i j x = Ok m' →
  ∃ row old, m !! i = Some row ∧ row !! j = Some old ∧
             m' = <[i := <[j := x]> row]> m.
Proof.
  unfold set2, get. destruct (m !! i) as [row|]; simpl; [|done].
  destruct (row !! j) as [old|] eqn:Hj; simpl; [|done].
  intros [= <-]. by exists row, old.
Qed.

Lemma set2_row_sum (m : list (list Z)) (i j : nat) (x : Z) (m' : list (list Z))
    (c : nat) :
  set2 m i j x = Ok m' →
  row_sum m' c = row_sum m c + if bool_decide (c = i) then x - entry m i j else 0.
Proof.
  intros (row & old & Hi & Hj & ->)%set2_inv. unfold row_sum, entry.
  case_bool_decide as Hc.
  - subst c. rewrite list_lookup_insert_eq by (by eapply lookup_lt_Some).
    rewrite Hi. simpl. rewrite Hj. simpl. rewrite (zsum_insert _ _ old) by done.
    lia.
  - rewrite list_lookup_insert_ne by done. lia.
Qed.

Lemma set2_direct_edges plane_cap (m : list (list Z)) (i j : nat) (x : Z)
    (m' : list (list Z)) :
  set2 m i j x = Ok m' →
  direct_edges plane_cap m'
  = direct_edges plane_cap m
    - (entry m i j + plane_cap - 1) `div` plane_cap
    + (x + plane_cap - 1) `div` plane_cap.
Proof.
  intros (row & old & Hi & Hj & ->)%set2_inv. unfold direct_edges, entry.
  rewrite (zsum_map_insert _ _ _ row) by done.
  rewrite (zsum_map_insert _ _ _ old) by done.
  rewrite Hi. simpl. rewrite Hj. simpl. lia.
Qed.

Lemma row_sum_zero (m : list (list Z)) (n c : nat) :
  shaped n m → (∀ i j, entry m i j = 0) → row_sum m c = 0.
Proof.
  intros Hs Hz. rewrite (zero_matrix n m Hs Hz). unfold row_sum.
  destruct (replicate n (replicate n 0) !! c) as [row|] eqn:Hc; simpl; [|done].
  apply lookup_replicate in Hc as [-> _]. apply zsum_replicate_0.
Qed.

Lemma direct_edges_zero plane_cap (m : list (list Z)) (n : nat) :
  0 < plane_cap → shaped n m → (∀ i j, entry m i j = 0) →
  direct_edges plane_cap m = 0.
Proof.
  intros Hcap Hs Hz. rewrite (zero_matrix n m Hs Hz). unfold direct_edges.
  rewrite (zsum_ext _ (λ _, 0)); [apply zsum_fmap_const0|].
  intros row Hrow. apply elem_of_replicate in Hrow as [-> _].
  rewrite (zsum_ext _ (λ _, 0)); [apply zsum_fmap_const0|].
  intros x Hx. apply elem_of_replicate in Hx as [-> _].
  apply Z.div_small. lia.
Qed.

Lemma zsum_fmap_add {A : Type} (f g : A → Z) (l : list A) :
  zsum ((λ x, f x + g x) <$> l) = zsum (f <$> l) + zsum (g <$> l).
Proof.
  induction l as [|x l IH]; [done|]. rewrite !fmap_cons, !zsum_cons. lia.
Qed.

Lemma zsum_fmap_scale {A : Type} (k : Z) (f : A → Z) (l : list A) :
  zsum ((λ x, k * f x) <$> l) = k * zsum (f <$> l).
Proof.
  induction l as [|x l IH]; [simpl; lia|]. rewrite !fmap_cons, !zsum_cons. lia.
Qed.

(** *** Never more edges than direct shipping *)

Lemma length_bump_at j amount es q : length (bump_at j amount es q) = length es.
Proof. unfold bump_at. destruct (es !! q); [by rewrite length_insert|done]. Qed.

Lemma length_foldl_bump j amount p :
  ∀ es, length (foldl (bump_at j amount) es p) = length es.
Proof.
  induction p as [|q p IH]; intros es; simpl; [done|].
  by rewrite IH, length_bump_at.
Qed.

Section Potential.
Variable plane_cap : Z.
Variable city_count : nat.
Variable crates0 : list (list Z).
Hypothesis cap_pos : 0 < plane_cap.

(** Edges made so far, and edges that direct shipping of what is left
    would take. *)
Definition potential (st : state) : Z :=
  Z.of_nat (length (edges st)) + direct_edges plane_cap (crates st).

Lemma step_potential st st' :
  step plane_cap city_count crates0 st st' → potential st' ≤ potential st.
Proof.
  intros (Hinv & Hmove & Hinv'). unfold potential.
  destruct Hmove as [i j a Hi Hj Ha Hpos He Hset Hk
                    |i j p a Hi Hj Hp Hpos Hle He Hset Hsub Hcons].
  - rewrite He, length_app. simpl length.
    rewrite (set2_direct_edges _ _ _ _ _ _ Hset).
    set (x := entry (crates st) i j) in *.
    assert ((x - a + plane_cap - 1) `div` plane_cap
            = (x + plane_cap - 1) `div` plane_cap - 1) as ->; [|lia].
    destruct (Z.min_spec plane_cap x) as [[Hlt Hm]|[Hge Hm]].
    + replace (x - a + plane_cap - 1)
        with ((x + plane_cap - 1) + (-1) * plane_cap) by lia.
      rewrite Z.div_add by lia. lia.
    + replace (x - a + plane_cap - 1) with (plane_cap - 1) by lia.
      replace (x + plane_cap - 1) with ((x - 1) + 1 * plane_cap) by lia.
      rewrite Z.div_add by lia. rewrite !Z.div_small by lia. lia.
  - rewrite He, length_foldl_bump.
    rewrite (set2_direct_edges _ _ _ _ _ _ Hset).
    set (x := entry (crates st) i j) in *.
    assert ((x - a + plane_cap - 1) `div` plane_cap
            ≤ (x + plane_cap - 1) `div` plane_cap)
      by (apply Z.div_le_mono; lia).
    lia.
Qed.

Lemma run_potential st st' :
  rtc (step plane_cap city_count crates0) st st' → potential st' ≤ potential st.
Proof.
  induction 1 as [st|st st1 st' Hstep Hrun IH]; [lia|].
  apply step_potential in Hstep. lia.
Qed.

End Potential.

(** Transshipment never costs edges: [plan_edges] makes no more edges than
    there would be if every pair of cities got planes of its own, that is
    at most the sum of [ceil(crates[i, j] / plane_cap)] over all pairs. *)
Theorem plan_edges_at_most_direct plane_cap city_count iter_pairs crates :
  (∀ X, iter_pairs X ≡ₚ elements X) →
  well_formed plane_cap city_count crates →
  ∃ st, plan_edges plane_cap city_count iter_pairs crates = Ok st ∧
        Z.of_nat (length (edges st)) ≤ direct_edges plane_cap crates.
Proof.
  intros Hperm Hwf.
  destruct (plan_edges_run plane_cap city_count iter_pairs crates Hperm Hwf)
    as (st & Hst & Hinv & Hzero & Hrun).
  exists st. split; [done|].
  apply (run_potential plane_cap city_count crates (proj1 Hwf)) in Hrun.
  unfold potential in Hrun. simpl in Hrun.
  rewrite (direct_edges_zero plane_cap (EdgePlanner.crates st) city_count)
    in Hrun; [lia|apply Hwf|by eapply inv_shape|done].
Qed.

Lemma plan_edges_at_most_direct_witness :
  ∃ st, plan_edges 30 4 elements example_crates = Ok st ∧
        Z.of_nat (length (edges st)) ≤ direct_edges 30 example_crates.
Proof.
  exact (plan_edges_at_most_direct 30 4 elements example_crates
           elements_perm example_well_formed).
Defined.

(** *** Never fewer edges than the script's lower bound *)

(** Crates that leave city [c] on the edge [e], less the crates that [e]
    brings to [c] on their way to another city. *)
Definition net (c : nat) (e : Edge.t) : Z :=
  (if bool_decide (Edge.i e = c) then zsum (Edge.cargo e) else 0)
  - (if bool_decide (Edge.j e = c)
     then zsum (Edge.cargo e) - default 0 (Edge.cargo e !! c) else 0).

Definition flow (c : nat) (es : list Edge.t) : Z := zsum (net c <$> es).

(** The same for one more crate for [j] on an edge with the route [r]. *)
Definition turn (c j : nat) (r : nat * nat) : Z :=
  (if bool_decide (r.1 = c) then 1 else 0)
  - (if bool_decide (r.2 = c ∧ c ≠ j) then 1 else 0).

Definition turns (c j : nat) (rs : list (nat * nat)) (p : list nat) : Z :=
  zsum ((λ q, match rs !! q with Some r => turn c j r | None => 0 end) <$> p).

Lemma net_new_edge (n i j : nat) (a : Z) (c : nat) :
  (j < n)%nat →
  net c (new_edge n i j a) = if bool_decide (i = c) then a else 0.
Proof.
  intros Hj. unfold net, new_edge. cbn [Edge.i Edge.j Edge.cargo].
  rewrite (zsum_insert _ j 0) by (by apply lookup_replicate_2).
  rewrite zsum_replicate_0.
  assert (default 0 (<[j := 0 + a]> (replicate n 0) !! c)
          = if bool_decide (j = c) then a else 0) as ->.
  { case_bool_decide as E.
    - subst c. rewrite list_lookup_insert_eq by (by rewrite length_replicate).
      simpl. lia.
    - rewrite list_lookup_insert_ne by done.
      destruct (replicate n 0 !! c) as [x|] eqn:Hx; [|done].
      by apply lookup_replicate in Hx as [-> _]. }
  repeat case_bool_decide; lia.
Qed.

Lemma net_bump (c j : nat) (a : Z) (e : Edge.t) :
  (j < length (Edge.cargo e))%nat →
  net c (bump j a e) = net c e + a * turn c j (Edge.i e, Edge.j e).
Proof.
  intros Hj. destruct (lookup_lt_is_Some_2 _ _ Hj) as [x Hx].
  unfold net, bump, turn. cbn [Edge.i Edge.j Edge.cargo fst snd].
  rewrite Hx. change (default 0 (Some x)) with x.
  rewrite (zsum_insert _ j x) by done.
  assert (default 0 (<[j := x + a]> (Edge.cargo e) !! c)
          = default 0 (Edge.cargo e !! c) + if bool_decide (c = j) then a else 0)
    as ->.
  { case_bool_decide as E.
    - subst c. rewrite list_lookup_insert_eq by done. rewrite Hx. simpl. lia.
    - rewrite list_lookup_insert_ne by done. lia. }
  repeat case_bool_decide; try lia; naive_solver.
Qed.

Lemma routes_bump_at j a es q : routes (bump_at j a es q) = routes es.
Proof.
  unfold bump_at, routes. destruct (es !! q) as [e|] eqn:He; [|done].
  rewrite list_fmap_insert. simpl. apply list_insert_id.
  by rewrite list_lookup_fmap, He.
Qed.

Section Flow.
Variable n : nat.

Definition sized (es : list Edge.t) : Prop :=
  Forall (λ e, length (Edge.cargo e) = n) es.

Lemma sized_bump_at j a es q : sized es → sized (bump_at j a es q).
Proof.
  intros Hs. unfold bump_at. destruct (es !! q) as [e|] eqn:He; [|done].
  apply Forall_insert; [done|]. simpl. rewrite length_insert.
  unfold sized in Hs. rewrite Forall_lookup in Hs. by eapply Hs.
Qed.

Lemma flow_bump_at c j a es q :
  sized es → (j < n)%nat →
  flow c (bump_at j a es q)
  = flow c es + a * match routes es !! q with
                    | Some r => turn c j r
                    | None => 0
                    end.
Proof.
  intros Hs Hj. unfold bump_at, routes. rewrite list_lookup_fmap.
  destruct (es !! q) as [e|] eqn:He; simpl; [|lia].
  unfold flow. rewrite (zsum_map_insert _ _ _ e) by done.
  rewrite net_bump; [lia|].
  unfold sized in Hs. rewrite Forall_lookup in Hs. by rewrite (Hs q e He).
Qed.

Lemma flow_foldl c j a p :
  ∀ es, sized es → (j < n)%nat →
        flow c (foldl (bump_at j a) es p)
        = flow c es + a * turns c j (routes es) p.
Proof.
  induction p as [|q p IH]; intros es Hs Hj.
  - unfold turns. simpl. lia.
  - cbn [foldl]. rewrite IH by (done || by apply sized_bump_at).
    rewrite routes_bump_at, flow_bump_at by done.
    unfold turns. rewrite fmap_cons, zsum_cons. lia.
Qed.

End Flow.

Section FlowInvariant.
Variable plane_cap : Z.
Variable city_count : nat.
Variable crates0 : list (list Z).
Hypothesis cap_pos : 0 < plane_cap.

(** Along a path, the edges that leave a city and the edges that land in
    it cancel out, except at the two ends. *)
Lemma path_balance st src u p (c : nat) :
  path_to plane_cap st src u p →
  zsum ((λ q, match routes (edges st) !! q with
              | Some r => (if bool_decide (r.1 = c) then 1 else 0)
                          - (if bool_decide (r.2 = c) then 1 else 0)
              | None => 0
              end) <$> p)
  = (if bool_decide (src = c) then 1 else 0)
    - (if bool_decide (u = c) then 1 else 0).
Proof.
  induction 1 as [|u p idx e Hp IH He Hi Hroom Hfree Hsrc Hnew].
  - simpl. lia.
  - rewrite fmap_app, zsum_app, IH. simpl.
    unfold routes. rewrite list_lookup_fmap, He. simpl. rewrite Hi.
    repeat case_bool_decide; lia.
Qed.

Lemma turns_path st i j p (c : nat) :
  inv plane_cap city_count crates0 st → i ≠ j →
  path_to plane_cap st i j p →
  turns c j (routes (edges st)) p = if bool_decide (i = c) then 1 else 0.
Proof.
  intros Hinv Hne Hp.
  destruct (path_to_summary plane_cap st i j p
              (proj2 (inv_order _ _ _ st Hinv)) Hne Hp)
    as (_ & _ & _ & Hhits & _).
  pose proof (path_balance st i j p c Hp) as Hbal.
  unfold turns.
  rewrite (zsum_ext _
    (λ q, match routes (edges st) !! q with
          | Some r => (if bool_decide (r.1 = c) then 1 else 0)
                      - (if bool_decide (r.2 = c) then 1 else 0)
          | None => 0
          end
          + (if bool_decide (c = j) then 1 else 0)
            * match edges st !! q with
              | Some e => if bool_decide (Edge.j e = j) then 1 else 0
              | None => 0
              end)).
  - rewrite zsum_fmap_add, zsum_fmap_scale, Hbal. fold (hits st j p).
    rewrite Hhits. repeat case_bool_decide; try lia; congruence.
  - intros q _. unfold routes. rewrite list_lookup_fmap.
    destruct (edges st !! q) as [e|]; simpl; [|lia]. unfold turn. simpl.
    repeat case_bool_decide; try lia; naive_solver.
Qed.

Lemma inv_sized st :
  inv plane_cap city_count crates0 st → sized city_count (edges st).
Proof.
  intros Hinv. pose proof (inv_edges _ _ _ st Hinv) as Hall.
  unfold sized. eapply Forall_impl; [exact Hall|].
  by intros e ((_ & Hlen & _) & _).
Qed.

(** What has left a city, on balance, and what is still to leave it add
    up to the row of the city in the matrix the caller passed. *)
Lemma step_flow st st' (c : nat) :
  step plane_cap city_count crates0 st st' →
  flow c (edges st') + row_sum (crates st') c
  = flow c (edges st) + row_sum (crates st) c.
Proof.
  intros (Hinv & Hmove & Hinv').
  destruct Hmove as [i j a Hi Hj Ha Hpos He Hset Hk
                    |i j p a Hi Hj Hp Hpos Hle He Hset Hsub Hcons].
  - rewrite He. unfold flow. rewrite fmap_app, zsum_app. simpl.
    rewrite net_new_edge by done.
    rewrite (set2_row_sum _ _ _ _ _ c Hset).
    repeat case_bool_decide; try lia; congruence.
  - assert (Hne : i ≠ j).
    { intros ->. pose proof (inv_diag _ _ _ st Hinv j). lia. }
    rewrite He, (flow_foldl city_count) by (done || by apply inv_sized).
    rewrite (turns_path st i j p c Hinv Hne Hp).
    rewrite (set2_row_sum _ _ _ _ _ c Hset).
    repeat case_bool_decide; try lia; congruence.
Qed.

Lemma run_flow st st' (c : nat) :
  rtc (step plane_cap city_count crates0) st st' →
  flow c (edges st') + row_sum (crates st') c
  = flow c (edges st) + row_sum (crates st) c.
Proof.
  induction 1 as [st|st st1 st' Hstep Hrun IH]; [done|].
  rewrite IH. by apply step_flow.
Qed.

(** The crates of a row, and of a column, take at least as many edges as
    they fill planes. *)
Lemma flow_le_edges st (c : nat) :
  inv plane_cap city_count crates0 st →
  flow c (edges st)
  ≤ plane_cap * zsum ((λ e, if bool_decide (Edge.i e = c) then 1 else 0)
                        <$> edges st).
Proof.
  intros Hinv. rewrite <- zsum_fmap_scale. apply zsum_le. intros e He.
  pose proof (inv_edges _ _ _ st Hinv) as Hall. rewrite Forall_forall in Hall.
  destruct (Hall e He) as ((_ & _ & Hnn & _ & Hcap) & _).
  pose proof (lookup_le_zsum (Edge.cargo e) c Hnn). unfold net.
  repeat case_bool_decide; lia.
Qed.

Lemma delivered_le_edges st (d : nat) :
  inv plane_cap city_count crates0 st →
  delivered d (edges st)
  ≤ plane_cap * zsum ((λ e, if bool_decide (Edge.j e = d) then 1 else 0)
                        <$> edges st).
Proof.
  intros Hinv. rewrite <- zsum_fmap_scale. apply zsum_le. intros e He.
  pose proof (inv_edges _ _ _ st Hinv) as Hall. rewrite Forall_forall in Hall.
  destruct (Hall e He) as ((_ & _ & Hnn & _ & Hcap) & _).
  pose proof (lookup_le_zsum (Edge.cargo e) d Hnn).
  repeat case_bool_decide; lia.
Qed.

End FlowInvariant.

Lemma ceil_div64_exact (plane_cap s : Z) :
  0 < plane_cap → 0 ≤ s → s + plane_cap < 2 ^ 63 →
  ceil_div64 plane_cap (wrap64 s) = (s + plane_cap - 1) `div` plane_cap.
Proof.
  intros Hcap Hs Hfit. unfold ceil_div64.
  rewrite (wrap64_small s) by lia.
  rewrite (wrap64_small (s + plane_cap)) by lia.
  rewrite (wrap64_small (s + plane_cap - 1)) by lia.
  apply wrap64_small.
  pose proof (Z.div_pos (s + plane_cap - 1) plane_cap ltac:(lia) Hcap).
  assert ((s + plane_cap - 1) `div` plane_cap ≤ s + plane_cap - 1); [|lia].
  apply Z.div_le_upper_bound; [done|]. nia.
Qed.

Lemma row_le_total (m : list (list Z)) (row : list Z) :
  Forall (Forall (λ x, 0 ≤ x)) m → row ∈ m →
  0 ≤ zsum row ≤ zsum (zsum <$> m).
Proof.
  intros Hm. induction Hm as [|r m Hr Hm IH]; intros Hin.
  - by apply not_elem_of_nil in Hin.
  - rewrite fmap_cons, zsum_cons.
    pose proof (zsum_nonneg r Hr).
    assert (0 ≤ zsum (zsum <$> m)).
    { apply zsum_nonneg, Forall_fmap. eapply Forall_impl; [exact Hm|].
      intros v Hv. by apply zsum_nonneg. }
    apply elem_of_cons in Hin as [->|Hin]; [lia|].
    specialize (IH Hin). lia.
Qed.

Lemma column_le_total (m : list (list Z)) (d : nat) :
  Forall (Forall (λ x, 0 ≤ x)) m →
  0 ≤ column_sum m d ≤ zsum (zsum <$> m).
Proof.
  unfold column_sum. induction 1 as [|r m Hr Hm IH]; [simpl; lia|].
  rewrite !fmap_cons, !zsum_cons.
  pose proof (lookup_le_zsum r d Hr). lia.
Qed.

(** The script's [min_edges] is a lower bound indeed, as long as the crates
    in all, with the capacity added, fit in a 64-bit integer (so that none
    of the script's sums wraps): [plan_edges] returns at least as many
    edges as the rows of the matrix need planes to leave their cities, and
    at least as many as its columns need planes to arrive. *)
Theorem plan_edges_at_least_min_edges plane_cap city_count iter_pairs crates :
  (∀ X, iter_pairs X ≡ₚ elements X) →
  well_formed plane_cap city_count crates →
  zsum (zsum <$> crates) + plane_cap < 2 ^ 63 →
  ∃ st, plan_edges plane_cap city_count iter_pairs crates = Ok st ∧
        min_edges plane_cap city_count crates ≤ Z.of_nat (length (edges st)).
Proof.
  intros Hperm Hwf Hfit.
  destruct (plan_edges_run plane_cap city_count iter_pairs crates Hperm Hwf)
    as (st & Hst & Hinv & Hzero & Hrun).
  exists st. split; [done|].
  destruct Hwf as (Hcap & Hshape & Hnn & Hdiag).
  pose proof (inv_edges _ _ _ st Hinv) as Hall.
  unfold min_edges. apply Z.max_lub.
  - unfold min_landings.
    rewrite (zsum_ext _ (λ row, (zsum row + plane_cap - 1) `div` plane_cap)).
    2:{ intros row Hrow. pose proof (row_le_total crates row Hnn Hrow).
        apply ceil_div64_exact; lia. }
    etrans; [apply wrap64_le|].
    { assert (0 ≤ zsum ((λ row, (zsum row + plane_cap - 1) `div` plane_cap)
                          <$> crates)); [|lia].
      apply zsum_nonneg, Forall_fmap, Forall_forall. intros row Hrow.
      pose proof (row_le_total crates row Hnn Hrow).
      apply Z.div_pos; lia. }
    rewrite (rows_by_city _ city_count) by apply Hshape.
    rewrite <- (count_by_city Edge.i city_count (edges st)).
    + apply zsum_le. intros c _. apply ceil_le; [done|].
      fold (row_sum crates c).
      pose proof (run_flow plane_cap city_count crates _ _ c Hrun) as Hflow.
      simpl in Hflow. unfold flow at 2 in Hflow. simpl in Hflow.
      rewrite (row_sum_zero _ city_count) in Hflow
        by (done || by eapply inv_shape).
      pose proof (flow_le_edges plane_cap city_count crates st c Hinv). lia.
    + eapply Forall_impl; [exact Hall|].
      intros e ((_ & Hlen & _ & Hi & _) & _).
      rewrite <- Hlen. by eapply lookup_lt_Some.
  - unfold min_takeoffs.
    rewrite (zsum_ext _ (λ d, (column_sum crates d + plane_cap - 1)
                               `div` plane_cap)).
    2:{ intros d _. pose proof (column_le_total crates d Hnn).
        apply ceil_div64_exact; lia. }
    etrans; [apply wrap64_le|].
    { assert (0 ≤ zsum ((λ d, (column_sum crates d + plane_cap - 1)
                                `div` plane_cap) <$> seq 0 city_count)); [|lia].
      apply zsum_nonneg, Forall_fmap, Forall_forall. intros d _.
      pose proof (column_le_total crates d Hnn).
      apply Z.div_pos; lia. }
    rewrite <- (count_by_city Edge.j city_count (edges st)).
    + apply zsum_le. intros d _. apply ceil_le; [done|].
      pose proof (inv_conserved _ _ _ st Hinv d) as Hcons.
      rewrite (column_sum_zero (EdgePlanner.crates st)) in Hcons by done.
      pose proof (delivered_le_edges plane_cap city_count crates st d Hinv).
      lia.
    + eapply Forall_impl; [exact Hall|]. by intros e (_ & Hj & _).
Qed.

Lemma example_crates_fit : zsum (zsum <$> example_crates) + 30 < 2 ^ 63.
Proof. by vm_compute. Qed.

Lemma plan_edges_at_least_min_edges_witness :
  ∃ st, plan_edges 30 4 elements example_crates = Ok st ∧
        min_edges 30 4 example_crates ≤ Z.of_nat (length (edges st)).
Proof.
  exact (plan_edges_at_least_min_edges 30 4 elements example_crates
           elements_perm example_well_formed example_crates_fit).
Defined.

(** *** Where the crates of each destination go *)

(** Crates for [d] that the edge [e] takes out of city [c], or, counted
    negative, brings to it. *)
Definition net_to (d c : nat) (e : Edge.t) : Z :=
  ((if bool_decide (Edge.i e = c) then 1 else 0)
   - (if bool_decide (Edge.j e = c) then 1 else 0))
  * default 0 (Edge.cargo e !! d).

Definition flow_to (d c : nat) (es : list Edge.t) : Z :=
  zsum (net_to d c <$> es).

Lemma net_to_new_edge (n i j : nat) (a : Z) (d c : nat) :
  (j < n)%nat →
  net_to d c (new_edge n i j a)
  = ((if bool_decide (i = c) then 1 else 0)
     - (if bool_decide (j = c) then 1 else 0))
    * if bool_decide (d = j) then a else 0.
Proof.
  intros Hj. unfold net_to, new_edge. cbn [Edge.i Edge.j Edge.cargo].
  assert (default 0 (<[j := 0 + a]> (replicate n 0) !! d)
          = if bool_decide (d = j) then a else 0) as ->; [|done].
  case_bool_decide as E.
  - subst d. rewrite list_lookup_insert_eq by (by rewrite length_replicate).
    simpl. lia.
  - rewrite list_lookup_insert_ne by done.
    destruct (replicate n 0 !! d) as [x|] eqn:Hx; [|done].
    by apply lookup_replicate in Hx as [-> _].
Qed.

Lemma net_to_bump (d c j : nat) (a : Z) (e : Edge.t) :
  (j < length (Edge.cargo e))%nat →
  net_to d c (bump j a e)
  = net_to d c e
    + (if bool_decide (d = j) then a else 0)
      * ((if bool_decide (Edge.i e = c) then 1 else 0)
         - (if bool_decide (Edge.j e = c) then 1 else 0)).
Proof.
  intros Hj. destruct (lookup_lt_is_Some_2 _ _ Hj) as [x Hx].
  unfold net_to, bump. cbn [Edge.i Edge.j Edge.cargo].
  rewrite Hx. change (default 0 (Some x)) with x.
  destruct (decide (d = j)) as [->|E].
  - rewrite (bool_decide_eq_true_2 (j = j)) by done.
    rewrite list_lookup_insert_eq by done. rewrite Hx. simpl. lia.
  - rewrite (bool_decide_eq_false_2 (d = j)) by done.
    rewrite list_lookup_insert_ne by done. lia.
Qed.

Lemma flow_to_foldl (n d c j : nat) (a : Z) (p : list nat) :
  ∀ es, sized n es → (j < n)%nat →
    flow_to d c (foldl (bump_at j a) es p)
    = flow_to d c es
      + (if bool_decide (d = j) then a else 0)
        * zsum ((λ q, match routes es !! q with
                      | Some r => (if bool_decide (r.1 = c) then 1 else 0)
                                  - (if bool_decide (r.2 = c) then 1 else 0)
                      | None => 0
                      end) <$> p).
Proof.
  induction p as [|q p IH]; intros es Hs Hj.
  - simpl. lia.
  - cbn [foldl]. rewrite IH by (done || by apply sized_bump_at).
    rewrite routes_bump_at, fmap_cons, zsum_cons.
    assert (flow_to d c (bump_at j a es q)
            = flow_to d c es
              + (if bool_decide (d = j) then a else 0)
                * match routes es !! q with
                  | Some r => (if bool_decide (r.1 = c) then 1 else 0)
                              - (if bool_decide (r.2 = c) then 1 else 0)
                  | None => 0
                  end) as ->; [|lia].
    unfold bump_at, routes. rewrite list_lookup_fmap.
    destruct (es !! q) as [e|] eqn:He; simpl; [|lia].
    unfold flow_to. rewrite (zsum_map_insert _ _ _ e) by done.
    rewrite net_to_bump; [lia|].
    unfold sized in Hs. rewrite Forall_lookup in Hs. by rewrite (Hs q e He).
Qed.

Lemma step_flow_to plane_cap city_count crates0 st st' (c d : nat) :
  c ≠ d →
  step plane_cap city_count crates0 st st' →
  flow_to d c (edges st') + entry (crates st') c d
  = flow_to d c (edges st) + entry (crates st) c d.
Proof.
  intros Hcd (Hinv & Hmove & Hinv').
  destruct Hmove as [i j a Hi Hj Ha Hpos He Hset Hk
                    |i j p a Hi Hj Hp Hpos Hle He Hset Hsub Hcons].
  - destruct (set2_shaped city_count (crates st) i j
                (entry (crates st) i j - a))
      as (m' & Hm' & _ & Hentry & _); eauto using inv_shape.
    rewrite Hset in Hm'. inversion Hm'; subst m'. rewrite Hentry.
    rewrite He. unfold flow_to. rewrite fmap_app, zsum_app. simpl.
    rewrite net_to_new_edge by done.
    repeat case_bool_decide; subst; try lia; exfalso; intuition congruence.
  - destruct (set2_shaped city_count (crates st) i j
                (entry (crates st) i j - a))
      as (m' & Hm' & _ & Hentry & _); eauto using inv_shape.
    rewrite Hset in Hm'. inversion Hm'; subst m'. rewrite Hentry.
    rewrite He, (flow_to_foldl city_count) by (done || by eapply inv_sized).
    rewrite (path_balance plane_cap st i j p c Hp).
    repeat case_bool_decide; subst; try lia; exfalso; intuition congruence.
Qed.

Lemma run_flow_to plane_cap city_count crates0 st st' (c d : nat) :
  c ≠ d →
  rtc (step plane_cap city_count crates0) st st' →
  flow_to d c (edges st') + entry (crates st') c d
  = flow_to d c (edges st) + entry (crates st) c d.
Proof.
  intros Hcd. induction 1 as [st|st st1 st' Hstep Hrun IH]; [done|].
  rewrite IH. by apply (step_flow_to plane_cap city_count crates0).
Qed.

(** Flow conservation, destination by destination: for every city [c] and
    every other destination [d], the crates for [d] on the edges that leave
    [c], less the crates for [d] on the edges that land in [c], are the
    [crates[c, d]] of the matrix the caller passed. *)
Theorem plan_edges_flow plane_cap city_count iter_pairs crates :
  (∀ X, iter_pairs X ≡ₚ elements X) →
  well_formed plane_cap city_count crates →
  ∃ st, plan_edges plane_cap city_count iter_pairs crates = Ok st ∧
        ∀ c d, c ≠ d → flow_to d c (edges st) = entry crates c d.
Proof.
  intros Hperm Hwf.
  destruct (plan_edges_run plane_cap city_count iter_pairs crates Hperm Hwf)
    as (st & Hst & Hinv & Hzero & Hrun).
  exists st. split; [done|]. intros c d Hcd.
  pose proof (run_flow_to plane_cap city_count crates _ _ c d Hcd Hrun) as Hall.
  rewrite Hzero in Hall. unfold flow_to at 2 in Hall. simpl in Hall. lia.
Qed.

Lemma plan_edges_flow_witness :
  ∃ st, plan_edges 30 4 elements example_crates = Ok st ∧
        ∀ c d, c ≠ d → flow_to d c (edges st) = entry example_crates c d.
Proof.
  exact (plan_edges_flow 30 4 elements example_crates
           elements_perm example_well_formed).
Defined.

End EdgeBounds.

(** ** The constraints are enough to fly the edges *)

Module EdgeStock.
Import EdgePlanner EdgeRun EdgeBounds.

(** [l] holds, with every edge, the edges that have to precede it: the
    edges flown up to some moment form such a list. *)
Definition down_closed (C : gset (nat * nat)) (l : list nat) : Prop :=
  ∀ a b, (a, b) ∈ C → b ∈ l → a ∈ l.

(** Crates for [d] that the edges named by [l] have taken out of the city
    [c], less the crates for [d] they have brought to it. *)
Definition outflow (d c : nat) (es : list Edge.t) (l : list nat) : Z :=
  zsum ((λ idx, match es !! idx with
                | Some e => net_to d c e
                | None => 0
                end) <$> l).

Lemma zsum_Permutation (u v : list Z) : u ≡ₚ v → zsum u = zsum v.
Proof.
  induction 1 as [|x u v Hp IH|x y u|u v w H1 IH1 H2 IH2];
    rewrite ?zsum_cons; try done; lia.
Qed.

Lemma zsum_filter {A : Type} (P : A → Prop) `{∀ x, Decision (P x)}
    (f : A → Z) (l : list A) :
  zsum ((λ x, if bool_decide (P x) then f x else 0) <$> l)
  = zsum (f <$> filter P l).
Proof.
  induction l as [|x l IH]; [done|].
  rewrite fmap_cons, zsum_cons, IH. case_bool_decide.
  - by rewrite filter_cons_True, fmap_cons, zsum_cons.
  - rewrite filter_cons_False by done. lia.
Qed.

(** Summing over the members of [l] that are in [p] is summing over the
    members of [p] that are in [l]. *)
Lemma zsum_swap (f : nat → Z) (l p : list nat) :
  NoDup l → NoDup p →
  zsum ((λ x, if bool_decide (x ∈ p) then f x else 0) <$> l)
  = zsum ((λ x, if bool_decide (x ∈ l) then f x else 0) <$> p).
Proof.
  intros Hl Hp. rewrite !zsum_filter. apply zsum_Permutation.
  apply fmap_Permutation. apply NoDup_Permutation.
  - by apply NoDup_filter.
  - by apply NoDup_filter.
  - intros x. rewrite !list_elem_of_filter. tauto.
Qed.

Lemma count_once (n : nat) (l : list nat) :
  NoDup l →
  0 ≤ zsum ((λ idx, if bool_decide (idx = n) then 1 else 0) <$> l) ≤ 1.
Proof.
  induction 1 as [|x l Hx Hl IH]; [simpl; lia|].
  rewrite fmap_cons, zsum_cons. case_bool_decide as E; [|lia].
  subst x. rewrite (zsum_ext _ (λ _, 0)), zsum_fmap_const0; [lia|].
  intros y Hy. rewrite bool_decide_eq_false_2; [done|]. by intros ->.
Qed.

Lemma outflow_snoc (d c : nat) (es : list Edge.t) (e : Edge.t) (l : list nat) :
  outflow d c (es ++ [e]) l
  = outflow d c es l
    + net_to d c e
      * zsum ((λ idx, if bool_decide (idx = length es) then 1 else 0) <$> l).
Proof.
  unfold outflow. rewrite <- zsum_fmap_scale, <- zsum_fmap_add.
  apply zsum_ext. intros idx _.
  destruct (decide (idx < length es)%nat) as [Hlt|Hge].
  - rewrite lookup_app_l by done. rewrite bool_decide_eq_false_2 by lia. lia.
  - rewrite (proj2 (lookup_ge_None es idx)) by lia.
    case_bool_decide as E.
    + subst idx. rewrite list_lookup_middle by done. lia.
    + rewrite lookup_ge_None_2; [lia|]. rewrite length_app. simpl. lia.
Qed.

Lemma bump_at_lookup j a es q idx :
  bump_at j a es q !! idx
  = if bool_decide (idx = q) then bump j a <$> es !! idx else es !! idx.
Proof.
  unfold bump_at. destruct (es !! q) as [e|] eqn:He.
  - case_bool_decide as E.
    + subst idx. rewrite list_lookup_insert_eq by (by eapply lookup_lt_Some).
      by rewrite He.
    + by rewrite list_lookup_insert_ne.
  - case_bool_decide as E; [|done]. subst idx. by rewrite He.
Qed.

Lemma foldl_bump_lookup j a p :
  NoDup p →
  ∀ es idx,
    foldl (bump_at j a) es p !! idx
    = if bool_decide (idx ∈ p) then bump j a <$> es !! idx else es !! idx.
Proof.
  induction 1 as [|q p Hq Hp IH]; intros es idx; [done|].
  cbn [foldl]. rewrite IH, bump_at_lookup.
  destruct (decide (idx = q)) as [->|Hne].
  - rewrite (bool_decide_eq_false_2 (q ∈ p)) by done.
    rewrite (bool_decide_eq_true_2 (q = q)) by done.
    rewrite (bool_decide_eq_true_2 (q ∈ q :: p)); [done|by left].
  - rewrite (bool_decide_eq_false_2 (idx = q)) by done.
    rewrite (bool_decide_ext (idx ∈ q :: p) (idx ∈ p)); [done|]. set_solver.
Qed.

Section Stock.
Variable plane_cap : Z.
Variable city_count : nat.
Variable crates0 : list (list Z).

(** The edge [idx] leaves [c], or, counted negative, lands in it. *)
Definition side (c : nat) (es : list Edge.t) (idx : nat) : Z :=
  match routes es !! idx with
  | Some r => (if bool_decide (r.1 = c) then 1 else 0)
              - (if bool_decide (r.2 = c) then 1 else 0)
  | None => 0
  end.

Lemma outflow_foldl (d c j : nat) (a : Z) (es : list Edge.t) (p l : list nat) :
  sized city_count es → (j < city_count)%nat → NoDup p →
  outflow d c (foldl (bump_at j a) es p) l
  = outflow d c es l
    + (if bool_decide (d = j) then a else 0)
      * zsum ((λ idx, if bool_decide (idx ∈ p) then side c es idx else 0)
                <$> l).
Proof.
  intros Hs Hj Hp. unfold outflow.
  rewrite <- zsum_fmap_scale, <- zsum_fmap_add.
  apply zsum_ext. intros idx _. rewrite foldl_bump_lookup by done.
  unfold side, routes. rewrite list_lookup_fmap.
  case_bool_decide as Hin; [|lia].
  destruct (es !! idx) as [e|] eqn:He; simpl; [|lia].
  rewrite net_to_bump; [lia|].
  unfold sized in Hs. rewrite Forall_lookup in Hs. by rewrite (Hs idx e He).
Qed.

(** If the edges of a path that are in [l] are its first edges, they take
    out of a city no more than they bring, except at the start of the
    path. *)
Lemma all_before (l p : list nat) (idx : nat) :
  (∀ k x y, (p ++ [idx]) !! k = Some x → (p ++ [idx]) !! S k = Some y →
            y ∈ l → x ∈ l) →
  idx ∈ l → ∀ q, q ∈ p → q ∈ l.
Proof.
  intros Hclosed Hidx.
  assert (Hk : ∀ k, (k ≤ length p)%nat →
                 ∀ q, (p ++ [idx]) !! (length p - k)%nat = Some q → q ∈ l).
  { induction k as [|k IH]; intros Hle q Hq.
    - rewrite Nat.sub_0_r, list_lookup_middle in Hq by done.
      by inversion Hq; subst.
    - destruct (lookup_lt_is_Some_2 (p ++ [idx]) (length p - k)) as [y Hy].
      { rewrite length_app. simpl. lia. }
      apply (Hclosed (length p - S k)%nat q y Hq).
      + by replace (S (length p - S k)) with (length p - k)%nat by lia.
      + apply IH; [lia|done]. }
  intros q Hq. apply list_elem_of_lookup in Hq as [m Hm].
  pose proof (lookup_lt_Some _ _ _ Hm) as Hlt.
  apply (Hk (length p - m)%nat); [lia|].
  replace (length p - (length p - m))%nat with m by lia.
  by rewrite lookup_app_l.
Qed.

Lemma path_prefix_balance st src u p (l : list nat) (c : nat) :
  path_to plane_cap st src u p →
  (∀ k x y, p !! k = Some x → p !! S k = Some y → y ∈ l → x ∈ l) →
  zsum ((λ q, if bool_decide (q ∈ l) then side c (edges st) q else 0) <$> p)
  ≤ if bool_decide (src = c) then 1 else 0.
Proof.
  induction 1 as [|u p idx e Hp IH He Hi Hroom Hfree Hsrc Hnew]; intros Hclosed.
  - simpl. case_bool_decide; lia.
  - rewrite fmap_app, zsum_app. simpl.
    assert (Hside : side c (edges st) idx
                    = (if bool_decide (u = c) then 1 else 0)
                      - (if bool_decide (Edge.j e = c) then 1 else 0)).
    { unfold side, routes. rewrite list_lookup_fmap, He. simpl. by rewrite Hi. }
    destruct (decide (idx ∈ l)) as [Hin|Hin];
      [rewrite (bool_decide_eq_true_2 (idx ∈ l)) by done
      |rewrite (bool_decide_eq_false_2 (idx ∈ l)) by done].
    + assert (Hall : ∀ q, q ∈ p → q ∈ l) by (by eapply all_before).
      rewrite (zsum_ext _ (side c (edges st))).
      * pose proof (path_balance plane_cap st src u p c Hp) as Hbal.
        unfold side at 1. rewrite Hbal, Hside.
        repeat case_bool_decide; lia.
      * intros q Hq. by rewrite bool_decide_eq_true_2 by auto.
    + assert (zsum ((λ q, if bool_decide (q ∈ l) then side c (edges st) q
                          else 0) <$> p)
              ≤ if bool_decide (src = c) then 1 else 0); [|lia].
      apply IH. intros k x y Hx Hy.
      apply (Hclosed k x y); by apply lookup_app_l_Some.
Qed.

(** What the edges of any list closed under the constraints have taken out
    of a city, on balance, is covered by what the matrix has been debited
    for the city. *)
Definition stocked (st : state) : Prop :=
  ∀ l c d, c ≠ d → NoDup l → down_closed (constraints st) l →
    outflow d c (edges st) l ≤ entry crates0 c d - entry (crates st) c d.

Lemma step_stocked st st' :
  step plane_cap city_count crates0 st st' → stocked st → stocked st'.
Proof.
  intros (Hinv & Hmove & Hinv') Hstock l c d Hcd Hl Hdown.
  destruct Hmove as [i j a Hi Hj Ha Hpos He Hset Hk
                    |i j p a Hi Hj Hp Hpos Hle He Hset Hsub Hcons].
  - destruct (set2_shaped city_count (crates st) i j
                (entry (crates st) i j - a))
      as (m' & Hm' & _ & Hentry & _); eauto using inv_shape.
    rewrite Hset in Hm'. inversion Hm'; subst m'. rewrite Hentry.
    rewrite He, outflow_snoc, net_to_new_edge by done.
    rewrite Hk in Hdown. pose proof (Hstock l c d Hcd Hl Hdown) as IH.
    pose proof (count_once (length (edges st)) l Hl) as Hcount.
    repeat case_bool_decide; subst; try nia; exfalso; intuition congruence.
  - destruct (set2_shaped city_count (crates st) i j
                (entry (crates st) i j - a))
      as (m' & Hm' & _ & Hentry & _); eauto using inv_shape.
    rewrite Hset in Hm'. inversion Hm'; subst m'. rewrite Hentry.
    assert (Hnd : NoDup p) by (by eapply path_to_NoDup).
    rewrite He, outflow_foldl by (done || by eapply inv_sized).
    rewrite (zsum_swap (side c (edges st)) l p Hl Hnd).
    assert (Hdown0 : down_closed (constraints st) l).
    { intros x y Hxy. apply Hdown. by apply Hsub. }
    pose proof (Hstock l c d Hcd Hl Hdown0) as IH.
    pose proof (path_prefix_balance st i j p l c Hp) as Hbal.
    assert (zsum ((λ q, if bool_decide (q ∈ l) then side c (edges st) q
                        else 0) <$> p)
            ≤ if bool_decide (i = c) then 1 else 0) as Hle1.
    { apply Hbal. intros k x y Hx Hy. apply Hdown. by eapply Hcons. }
    repeat case_bool_decide; subst; try nia; exfalso; intuition congruence.
Qed.

Lemma run_stocked st st' :
  rtc (step plane_cap city_count crates0) st st' → stocked st → stocked st'.
Proof.
  induction 1 as [st|st st1 st' Hstep Hrun IH]; [done|].
  intros Hstock. apply IH. by eapply step_stocked.
Qed.

End Stock.

(** Whatever order the edges are flown in, as long as it respects the
    constraints, no edge takes off with crates that have not reached its
    city: for every list of edges that holds the predecessors of its
    members, every city [c] and every other destination [d], the crates for
    [d] that these edges take out of [c], less those they bring to it, are at
    most [crates[c, d]]. *)
Theorem plan_edges_stock plane_cap city_count iter_pairs crates :
  (∀ X, iter_pairs X ≡ₚ elements X) →
  well_formed plane_cap city_count crates →
  ∃ st, plan_edges plane_cap city_count iter_pairs crates = Ok st ∧
        ∀ l c d, c ≠ d → NoDup l → down_closed (constraints st) l →
                 outflow d c (edges st) l ≤ entry crates c d.
Proof.
  intros Hperm Hwf.
  destruct (plan_edges_run plane_cap city_count iter_pairs crates Hperm Hwf)
    as (st & Hst & Hinv & Hzero & Hrun).
  exists st. split; [done|]. intros l c d Hcd Hl Hdown.
  apply (run_stocked plane_cap city_count crates) in Hrun.
  - pose proof (Hrun l c d Hcd Hl Hdown) as H. rewrite Hzero in H. lia.
  - intros l' c' d' _ _ _. unfold outflow. simpl.
    rewrite zsum_fmap_const0. lia.
Qed.

Lemma plan_edges_stock_witness :
  ∃ st, plan_edges 30 4 elements example_crates = Ok st ∧
        ∀ l c d, c ≠ d → NoDup l → down_closed (constraints st) l →
                 outflow d c (edges st) l ≤ entry example_crates c d.
Proof.
  exact (plan_edges_stock 30 4 elements example_crates
           elements_perm example_well_formed).
Defined.

End EdgeStock.

(** ** More about the plane planner *)

Module PlaneFacts.
Import PlanePlanner.

Lemma outcome_ok {A : Type} (m : result A) (Q : A → Prop) (P : Prop) (a : A) :
  outcome m Q P → m = Ok a → Q a.
Proof. by intros H ->. Qed.

(** *** What each closure leaves alone *)

Section Frame.
Variable city_count : nat.
Variable iter_pairs : gset (nat * nat) → list (nat * nat).
Variable iter_idx : gset nat → list nat.
Variable G : Type.
Variable randint : G → nat → nat * G.
Variable edges : list Edge.t.
Variable constraints : gset (nat * nat).

(** The output so far, the positions and the visited edges. *)
Definition kept (st s : state G) : Prop :=
  plane_edges s = plane_edges st ∧ plane_pos s = plane_pos st ∧
  trace s = trace st ∧ visited_edges s = visited_edges st.

Lemma kept_refl (st : state G) : kept st st.
Proof. by split_and!. Qed.

Lemma kept_trans (st s s' : state G) : kept st s → kept s s' → kept st s'.
Proof.
  intros (? & ? & ? & ?) (? & ? & ? & ?). unfold kept. split_and!; congruence.
Qed.

Lemma make_available_frame (idx : nat) (st s : state G) :
  make_available G edges idx st = Ok s → kept st s.
Proof.
  unfold make_available. intros Hrun.
  apply bind_ok_inv in Hrun as (e & _ & Hrun).
  apply bind_ok_inv in Hrun as (ao & _ & Hrun).
  apply bind_ok_inv in Hrun as (ai & _ & Hrun).
  by inversion Hrun; subst.
Qed.

Lemma register_edge_frame (ie : nat * Edge.t) (st s : state G) :
  register_edge iter_pairs G edges constraints ie st = Ok s → kept st s.
Proof.
  destruct ie as [idx e]. unfold register_edge. intros Hrun.
  apply bind_ok_inv in Hrun as (s1 & H1 & Hrun).
  apply bind_ok_inv in Hrun as (ao & _ & Hrun).
  apply bind_ok_inv in Hrun as (ai & _ & Hrun).
  assert (kept st s1) as (? & ? & ? & ?).
  { destruct (is_available _ _ _ _ _); [by eapply make_available_frame|].
    inversion H1; subst. apply kept_refl. }
  inversion Hrun; subst. by split_and!.
Qed.

Lemma for_each_kept {A : Type} (body : A → state G → result (state G))
    (l : list A) :
  (∀ x st s, body x st = Ok s → kept st s) →
  ∀ st s, for_each body l st = Ok s → kept st s.
Proof.
  intros Hbody. induction l as [|x l IH]; intros st s Hrun; simpl in Hrun.
  - inversion Hrun; subst. apply kept_refl.
  - apply bind_ok_inv in Hrun as (s1 & H1 & Hrest).
    eapply kept_trans; [by eapply Hbody|by eapply IH].
Qed.

Lemma unlock_frame (city u : nat) (st s : state G) :
  unlock iter_pairs G edges constraints city u st = Ok s → kept st s.
Proof.
  unfold unlock. intros Hrun. apply bind_ok_inv in Hrun as (out & _ & Hrun).
  destruct (_ && _); [by eapply make_available_frame|].
  inversion Hrun; subst. apply kept_refl.
Qed.

Lemma visit_edge_frame (idx : nat) (st s : state G) :
  visit_edge iter_pairs iter_idx G edges constraints idx st = Ok s →
  plane_edges s = plane_edges st ∧ plane_pos s = plane_pos st ∧
  trace s = trace st ∧ visited_edges s = {[idx]} ∪ visited_edges st.
Proof.
  unfold visit_edge. intros Hrun.
  apply bind_ok_inv in Hrun as (e & _ & Hrun).
  apply bind_ok_inv in Hrun as (ao & _ & Hrun).
  apply bind_ok_inv in Hrun as (ai & _ & Hrun).
  apply bind_ok_inv in Hrun as (cand & _ & Hrun).
  apply (for_each_kept _ _ (unlock_frame (Edge.j e))) in Hrun
    as (? & ? & ? & ?).
  by split_and!.
Qed.

(** What a call has appended to the output: flights [fs] with the trace
    entries [ts]. *)
Definition appended (st s : state G) (fs : list PlaneEdge.t)
    (ts : list (option nat)) : Prop :=
  plane_edges s = plane_edges st ++ fs ∧ trace s = trace st ++ ts ∧
  length (plane_pos s) = length (plane_pos st).

(** A flight of an edge, flown by a plane whose index satisfies [P]. *)
Definition flown (P : nat → Prop) (f : PlaneEdge.t) (t : option nat) : Prop :=
  P (PlaneEdge.plane_idx f) ∧ is_Some t.

Lemma appended_nil (st : state G) : appended st st [] [].
Proof. unfold appended. by rewrite !app_nil_r. Qed.

Lemma appended_trans (st s s' : state G) fs ts fs' ts' :
  appended st s fs ts → appended s s' fs' ts' →
  appended st s' (fs ++ fs') (ts ++ ts').
Proof.
  intros (H1 & H2 & H3) (H1' & H2' & H3'). unfold appended.
  rewrite H1', H2', H3', H1, H2, H3, !app_assoc. done.
Qed.

Lemma with_keys_fst {A : Type} (key : A → result Z) (l : list A)
    (ks : list (A * Z)) (xk : A * Z) :
  with_keys key l = Ok ks → xk ∈ ks → xk.1 ∈ l.
Proof.
  unfold with_keys.
  assert (Hgen : ∀ l acc ks,
    for_each (λ x acc, let* k := key x in Ok (acc ++ [(x, k)])) l acc = Ok ks →
    ∀ xk : A * Z, xk ∈ ks → xk ∈ acc ∨ xk.1 ∈ l).
  { clear. induction l as [|x l IH]; intros acc ks Hrun xk Hin; simpl in Hrun.
    - inversion Hrun; subst. by left.
    - apply bind_ok_inv in Hrun as (acc' & H1 & Hrest).
      apply bind_ok_inv in H1 as (k & _ & H1). inversion H1; subst acc'.
      destruct (IH _ _ Hrest xk Hin) as [Hacc|Hl]; [|right; by right].
      apply elem_of_app in Hacc as [?|Hx]; [by left|].
      apply list_elem_of_singleton in Hx. subst xk. right. by left. }
  intros Hrun Hin. destruct (Hgen l [] ks Hrun xk Hin) as [H|H]; [|done].
  by apply not_elem_of_nil in H.
Qed.

Lemma extend_loop_frame (fuel : nat) :
  ∀ p i extended st i' extended' s,
    extend_loop iter_pairs iter_idx G randint edges constraints fuel p i
      extended st = Ok (i', extended', s) →
    ∃ fs ts, appended st s fs ts ∧ plane_pos s = plane_pos st ∧
             Forall2 (flown (λ q, q = p)) fs ts.
Proof.
  induction fuel as [|fuel IH]; intros p i extended st i' extended' s Hrun;
    [done|].
  cbn [extend_loop] in Hrun.
  apply bind_ok_inv in Hrun as (out & _ & Hrun).
  destruct (bool_decide _).
  - destruct (randint _ _) as [k g].
    apply bind_ok_inv in Hrun as (idx & _ & Hrun).
    apply bind_ok_inv in Hrun as (s1 & Hvisit & Hrun).
    apply bind_ok_inv in Hrun as (e & _ & Hrun).
    apply visit_edge_frame in Hvisit as (Hpe & Hpp & Htr & _).
    apply IH in Hrun as (fs & ts & (H1 & H2 & H3) & Hpos & Hfs).
    simpl in *.
    exists (PlaneEdge.mk p (Edge.i e) (Edge.j e) (Edge.cargo e) :: fs),
           (Some idx :: ts).
    unfold appended. rewrite H1, H2, H3, Hpos, Hpe, Htr, Hpp.
    rewrite <- !app_assoc. split_and!; auto.
    constructor; [|done]. split; [done|by eexists].
  - inversion Hrun; subst. exists [], [].
    split_and!; auto using appended_nil.
Qed.

Lemma extend_journey_frame (p : nat) (st s : state G) (extended : bool) :
  extend_journey iter_pairs iter_idx G randint edges constraints p st
  = Ok (extended, s) →
  ∃ fs ts, appended st s fs ts ∧ Forall2 (flown (λ q, q = p)) fs ts.
Proof.
  unfold extend_journey. intros Hrun.
  apply bind_ok_inv in Hrun as (i & _ & Hrun).
  apply bind_ok_inv in Hrun as ([[i' ext] s1] & Hloop & Hrun).
  apply bind_ok_inv in Hrun as (c & _ & Hrun).
  inversion Hrun; subst. clear Hrun.
  apply extend_loop_frame in Hloop as (fs & ts & (H1 & H2 & H3) & _ & Hfs).
  exists fs, ts. split_and!; auto. unfold appended. simpl.
  by rewrite length_insert.
Qed.

Lemma extend_pass_frame (planes : list nat) (st s : state G) (extended : bool) :
  extend_pass iter_pairs iter_idx G randint edges constraints planes st
  = Ok (extended, s) →
  ∃ fs ts, appended st s fs ts ∧
           Forall2 (flown (λ q, (q < length planes)%nat)) fs ts.
Proof.
  unfold extend_pass.
  assert (Hgen : ∀ (l : list nat) (b : bool) (st s : state G) (b' : bool),
    Forall (λ p, (p < length planes)%nat) l →
    for_each (λ plane_idx '(extended, st),
                let* (e, st) := extend_journey iter_pairs iter_idx G randint
                                  edges constraints plane_idx st in
                Ok (extended || e, st)) l (b, st) = Ok (b', s) →
    ∃ fs ts, appended st s fs ts ∧
             Forall2 (flown (λ q, (q < length planes)%nat)) fs ts).
  { clear st s extended.
    induction l as [|p l IH]; intros b st s b' Hl Hrun; simpl in Hrun.
    - inversion Hrun; subst. exists [], []. split_and!; auto using appended_nil.
    - apply bind_ok_inv in Hrun as ([b1 s1] & H1 & Hrest).
      apply bind_ok_inv in H1 as ([e s1'] & Hj & H1). inversion H1; subst.
      apply extend_journey_frame in Hj as (fs & ts & Happ & Hfs).
      apply Forall_cons in Hl as [Hp Hl].
      apply IH in Hrest as (fs' & ts' & Happ' & Hfs'); [|done].
      exists (fs ++ fs'), (ts ++ ts'). split_and!.
      + by eapply appended_trans.
      + apply Forall2_app; [|done].
        eapply Forall2_impl; [exact Hfs|]. intros f t [Hq Ht].
        split; [|done]. by rewrite Hq. }
  apply Hgen. apply Forall_forall. intros p Hp. apply elem_of_seq in Hp. lia.
Qed.

Lemma extend_phase_frame (planes : list nat) (fuel : nat) :
  ∀ st s,
    extend_phase iter_pairs iter_idx G randint edges constraints fuel planes st
    = Ok s →
    ∃ fs ts, appended st s fs ts ∧
             Forall2 (flown (λ q, (q < length planes)%nat)) fs ts.
Proof.
  induction fuel as [|fuel IH]; intros st s Hrun; [done|].
  cbn [extend_phase] in Hrun.
  apply bind_ok_inv in Hrun as ([ext s1] & Hpass & Hrun).
  apply extend_pass_frame in Hpass as (fs & ts & Happ & Hfs).
  destruct (negb ext).
  - inversion Hrun; subst. by exists fs, ts.
  - apply IH in Hrun as (fs' & ts' & Happ' & Hfs').
    exists (fs ++ fs'), (ts ++ ts'). split_and!.
    + by eapply appended_trans.
    + by apply Forall2_app.
Qed.

Lemma jump_frame (jump_j0 : nat) (jump_js : list nat) (st s : state G) :
  jump city_count G jump_j0 jump_js st = Ok s →
  ∃ f, appended st s [f] [None] ∧
       (PlaneEdge.plane_idx f < length (plane_pos st))%nat ∧
       PlaneEdge.i f ∈ plane_pos st ∧
       PlaneEdge.j f ∈ jump_j0 :: jump_js ∧
       visited_edges s = visited_edges st.
Proof.
  unfold jump. intros Hrun.
  apply bind_ok_inv in Hrun as (keyed & Hkeys & Hrun).
  destruct keyed as [|ii iis]; [done|].
  pose proof (min_by_elem snd ii iis) as Hmin.
  destruct (min_by snd ii iis) as [[jp ji] w].
  apply bind_ok_inv in Hrun as (c & Hc & Hrun).
  inversion Hrun; subst. clear Hrun. eexists. split_and!.
  - unfold appended. simpl. by rewrite length_insert.
  - simpl. unfold get in Hc. destruct (plane_pos st !! jp) eqn:E; [|done].
    by eapply lookup_lt_Some.
  - simpl. apply (with_keys_fst _ _ _ _ Hkeys) in Hmin.
    apply elem_of_lookup_imap in Hmin as (k & x & Heq & Hk).
    inversion Heq; subst. by eapply list_elem_of_lookup_2.
  - simpl. apply max_by_elem.
  - done.
Qed.

End Frame.

(** *** Jumps *)

(** Number of jumps in a trace. *)
Definition jumps (tr : list (option nat)) : nat :=
  length (filter (λ t, t = None) tr).

Lemma jumps_app (tr ts : list (option nat)) :
  jumps (tr ++ ts) = (jumps tr + jumps ts)%nat.
Proof. unfold jumps. by rewrite filter_app, length_app. Qed.

Lemma jumps_visits (ts : list (option nat)) :
  Forall is_Some ts → jumps ts = 0%nat.
Proof.
  induction 1 as [|t ts [idx ->] Hts IH]; [done|].
  unfold jumps in *. by rewrite filter_cons_False.
Qed.

Lemma length_trace (tr : list (option nat)) :
  length tr = (length (visits tr) + jumps tr)%nat.
Proof.
  unfold visits, jumps. induction tr as [|[idx|] tr IH]; [done| |].
  - rewrite filter_cons_False by done.
    change (omap id (Some idx :: tr)) with (idx :: omap id tr).
    rewrite !length_cons. lia.
  - rewrite filter_cons_True by done.
    change (omap id (None :: tr)) with (omap id tr).
    rewrite !length_cons. lia.
Qed.

Section Schedule.
Variable city_count : nat.
Variable iter_pairs : gset (nat * nat) → list (nat * nat).
Variable iter_idx : gset nat → list nat.
Variable G : Type.
Variable randint : G → nat → nat * G.
Variable edges : list Edge.t.
Variable constraints : gset (nat * nat).
Hypothesis iter_pairs_perm : ∀ X, iter_pairs X ≡ₚ elements X.
Hypothesis iter_idx_perm : ∀ X, iter_idx X ≡ₚ elements X.
Hypothesis randint_lt : ∀ g n, (0 < n)%nat → ((randint g n).1 < n)%nat.
Hypothesis edges_in_range :
  ∀ idx e, edges !! idx = Some e →
           (Edge.i e < city_count)%nat ∧ (Edge.j e < city_count)%nat.
Hypothesis constraints_order : Constraints.strict_order constraints.
Hypothesis constraints_bounded :
  Constraints.bounded (length edges) constraints.
Hypothesis constraints_generated :
  Constraints.generated (EdgePlanner.direct (EdgePlanner.routes edges))
                        constraints.
Variable planes : list nat.
Hypothesis planes_nonempty : planes ≠ [].

Abbreviation inv' := (inv city_count G edges constraints planes).

(** Every jump is followed by the flight of an edge: between two jumps the
    set of visited edges grows. *)
Lemma schedule_jumps (fuel : nat) :
  ∀ st s,
    inv' st →
    schedule city_count iter_pairs iter_idx G randint edges constraints fuel
      planes st = Ok s →
    (jumps (trace st) ≤ size (visited_edges st))%nat ∨
    ((∃ p, (p < length planes)%nat ∧ ready G st p) ∧
     (jumps (trace st) ≤ S (size (visited_edges st)))%nat) →
    (jumps (trace s) ≤ size (visited_edges s))%nat.
Proof.
  induction fuel as [|fuel IH]; intros st s Hinv Hrun Hk; [done|].
  cbn [schedule] in Hrun.
  apply bind_ok_inv in Hrun as (s1 & Hphase & Hrun).
  pose proof (extend_phase_spec city_count iter_pairs iter_idx G randint edges
                constraints iter_pairs_perm iter_idx_perm randint_lt
                edges_in_range constraints_order constraints_bounded
                constraints_generated planes (S (length edges)) st Hinv)
    as Hspec.
  apply (outcome_ok _ _ _ s1) in Hspec as (Hinv1 & Hstuck & Hcase & Hready);
    [|done].
  apply extend_phase_frame in Hphase as (fs & ts & (_ & Htr & _) & Hfs).
  assert (Hts : Forall is_Some ts).
  { eapply Forall2_Forall_r; [exact Hfs|]. apply Forall_forall.
    by intros f _ t [_ Ht]. }
  assert (Hj1 : (jumps (trace s1) ≤ size (visited_edges s1))%nat).
  { rewrite Htr, jumps_app, (jumps_visits ts Hts).
    destruct Hk as [Hk|[Hr Hk]].
    - destruct Hcase as [->|Hgrew]; [lia|]. unfold grew in Hgrew. lia.
    - specialize (Hready Hr). unfold grew in Hready. lia. }
  destruct (filter _ _) as [|jump_j0 jump_js] eqn:Hf.
  { by inversion Hrun; subst. }
  apply bind_ok_inv in Hrun as (s2 & Hjump & Hrun).
  pose proof (jump_spec city_count G edges constraints planes jump_j0 jump_js
                s1 Hinv1 planes_nonempty Hstuck (eq_sym Hf)) as Hjspec.
  apply (outcome_ok _ _ _ s2) in Hjspec as (Hinv2 & Hv2 & Hready2); [|done].
  apply jump_frame in Hjump as (f & (_ & Htr2 & _) & _).
  apply (IH s2 s Hinv2 Hrun). right. split; [done|].
  rewrite Htr2, jumps_app, Hv2. unfold jumps at 2. simpl. lia.
Qed.

(** Every flight is flown by one of the planes, and a jump joins two
    cities below [city_count]. *)
Definition flight_in_range (f : PlaneEdge.t) (t : option nat) : Prop :=
  (PlaneEdge.plane_idx f < length planes)%nat ∧
  (t = None → (PlaneEdge.i f < city_count)%nat ∧
              (PlaneEdge.j f < city_count)%nat).

Lemma schedule_planes (fuel : nat) :
  ∀ st s,
    inv' st →
    schedule city_count iter_pairs iter_idx G randint edges constraints fuel
      planes st = Ok s →
    ∃ fs ts, appended G st s fs ts ∧ Forall2 flight_in_range fs ts.
Proof.
  induction fuel as [|fuel IH]; intros st s Hinv Hrun; [done|].
  cbn [schedule] in Hrun.
  apply bind_ok_inv in Hrun as (s1 & Hphase & Hrun).
  pose proof (extend_phase_spec city_count iter_pairs iter_idx G randint edges
                constraints iter_pairs_perm iter_idx_perm randint_lt
                edges_in_range constraints_order constraints_bounded
                constraints_generated planes (S (length edges)) st Hinv)
    as Hspec.
  apply (outcome_ok _ _ _ s1) in Hspec as (Hinv1 & Hstuck & _); [|done].
  apply extend_phase_frame in Hphase as (fs & ts & Happ & Hfs).
  assert (Hfs' : Forall2 flight_in_range fs ts).
  { eapply Forall2_impl; [exact Hfs|]. intros f t [Hp [idx ->]]. by split. }
  destruct (filter _ _) as [|jump_j0 jump_js] eqn:Hf.
  { inversion Hrun; subst. by exists fs, ts. }
  apply bind_ok_inv in Hrun as (s2 & Hjump & Hrun).
  pose proof (jump_spec city_count G edges constraints planes jump_j0 jump_js
                s1 Hinv1 planes_nonempty Hstuck (eq_sym Hf)) as Hjspec.
  apply (outcome_ok _ _ _ s2) in Hjspec as (Hinv2 & _); [|done].
  apply jump_frame in Hjump as (f & Happ2 & Hp & Hi & Hj & _).
  apply (IH s2 s Hinv2) in Hrun as (fs2 & ts2 & Happ3 & Hfs2).
  exists (fs ++ [f] ++ fs2), (ts ++ [None] ++ ts2). split.
  - eapply appended_trans; [exact Happ|]. by eapply appended_trans.
  - apply Forall2_app; [done|]. apply Forall2_app; [|done].
    constructor; [|constructor].
    destruct Hinv1 as (_ & _ & _ & Hlen & Hpos). split.
    + by rewrite <- Hlen.
    + intros _. split.
      * rewrite Forall_forall in Hpos. by apply Hpos.
      * rewrite <- Hf in Hj. apply list_elem_of_filter in Hj as [_ Hj].
        apply elem_of_seq in Hj. lia.
Qed.

End Schedule.

(** *** The two stages together *)

Section Pipeline.
Context {G : Type}.
Variable plane_cap : Z.
Variable city_count : nat.
Variable iter_pairs : gset (nat * nat) → list (nat * nat).
Variable iter_idx : gset nat → list nat.
Variable randint : G → nat → nat * G.
Hypothesis iter_pairs_perm : ∀ X, iter_pairs X ≡ₚ elements X.
Hypothesis iter_idx_perm : ∀ X, iter_idx X ≡ₚ elements X.
Hypothesis randint_lt : ∀ g n, (0 < n)%nat → ((randint g n).1 < n)%nat.
Variable crates : list (list Z).
Variable planes : list nat.
Variable g : G.
Hypothesis instance_wf : well_formed plane_cap city_count crates.
Hypothesis planes_nonempty : planes ≠ [].
Hypothesis planes_in_range : Forall (λ c, (c < city_count)%nat) planes.

(** The states the run of the prototype goes through. *)
Lemma plan_parts :
  ∃ st st0 pst,
    EdgePlanner.plan_edges plane_cap city_count iter_pairs crates = Ok st ∧
    EdgePlanner.inv plane_cap city_count crates st ∧
    (∀ i j, entry (EdgePlanner.crates st) i j = 0) ∧
    rtc (EdgeRun.step plane_cap city_count crates)
        (EdgePlanner.mk_state crates [] ∅ []) st ∧
    for_each (register_edge iter_pairs G (EdgePlanner.edges st)
                (EdgePlanner.constraints st))
             (imap pair (EdgePlanner.edges st))
             (mk_state (replicate city_count ∅) (replicate city_count ∅)
                (replicate city_count ∅) (replicate city_count ∅) ∅ []
                planes g [])
    = Ok st0 ∧
    inv city_count G (EdgePlanner.edges st) (EdgePlanner.constraints st)
        planes st0 ∧
    schedule city_count iter_pairs iter_idx G randint (EdgePlanner.edges st)
      (EdgePlanner.constraints st) (S (length (EdgePlanner.edges st)))
      planes st0 = Ok pst ∧
    drained city_count G (EdgePlanner.edges st) (EdgePlanner.constraints st)
      planes pst ∧
    visited_edges pst = list_to_set (seq 0 (length (EdgePlanner.edges st))) ∧
    plan plane_cap city_count iter_pairs iter_idx randint crates planes g
    = Ok (st, plane_edges pst).
Proof.
  destruct (EdgeRun.plan_edges_run plane_cap city_count iter_pairs crates
              iter_pairs_perm instance_wf)
    as (st & Hedges & Hinv & Hzero & Hrun).
  assert (Hrange : ∀ idx e, EdgePlanner.edges st !! idx = Some e →
            (Edge.i e < city_count)%nat ∧ (Edge.j e < city_count)%nat).
  { intros idx e He. pose proof (EdgePlanner.inv_edges _ _ _ st Hinv) as Hall.
    rewrite Forall_lookup in Hall.
    destruct (Hall idx e He) as ((_ & Hlen & _ & Hi & _) & Hj & _).
    split; [|done]. rewrite <- Hlen. by eapply lookup_lt_Some. }
  destruct (returns_inv _ _
              (plan_planes_run_spec city_count iter_pairs iter_idx
                 G randint (EdgePlanner.edges st) (EdgePlanner.constraints st)
                 iter_pairs_perm iter_idx_perm randint_lt Hrange
                 (EdgePlanner.inv_order _ _ _ st Hinv)
                 (EdgePlanner.inv_bounded _ _ _ st Hinv)
                 (EdgePlanner.inv_generated _ _ _ st Hinv)
                 planes planes_nonempty planes_in_range g))
    as (pst & Hplanes & Hdrained & Hvisited).
  destruct (returns_inv _ _
              (register_edges_spec city_count iter_pairs iter_idx
                 G randint (EdgePlanner.edges st) (EdgePlanner.constraints st)
                 iter_pairs_perm iter_idx_perm randint_lt Hrange
                 (EdgePlanner.inv_order _ _ _ st Hinv)
                 (EdgePlanner.inv_bounded _ _ _ st Hinv)
                 (EdgePlanner.inv_generated _ _ _ st Hinv)
                 planes planes_in_range g))
    as (st0 & Hreg & Hinv0).
  exists st, st0, pst. split_and!; auto.
  - unfold plan_planes_run in Hplanes. cbv zeta in Hplanes.
    rewrite Hreg in Hplanes. cbn [bind] in Hplanes.
    apply bind_ok_inv in Hplanes as (pst' & Hsched & Hrest).
    apply bind_ok_inv in Hrest as (u & _ & Hrest). by inversion Hrest; subst.
  - unfold plan. rewrite Hedges. cbn [bind].
    unfold plan_planes. by rewrite Hplanes.
Qed.

End Pipeline.

Lemma size_seq_set (n : nat) :
  size (list_to_set (seq 0 n) : gset nat) = n.
Proof. rewrite size_list_to_set by apply NoDup_seq. apply length_seq. Qed.

(** The edges flown, in the order of the trace, are all the edges. *)
Lemma visits_all {G : Type} city_count edges constraints (pst : state G) :
  trace_inv city_count G edges constraints pst →
  visited_edges pst = list_to_set (seq 0 (length edges)) →
  visits (trace pst) ≡ₚ seq 0 (length edges).
Proof.
  intros [Hfl Hvis Honce Hord] Hvisited.
  apply NoDup_Permutation; [done|apply NoDup_seq|].
  intros idx. unfold visits. rewrite list_elem_of_omap.
  rewrite <- (elem_of_list_to_set (C := gset nat)), <- Hvisited, Hvis.
  split.
  - intros ([u|] & Hin & E); simpl in E; [|done]. by inversion E; subst.
  - intros Hin. by exists (Some idx).
Qed.

Section Output.
Context {G : Type}.
Variable plane_cap : Z.
Variable city_count : nat.
Variable iter_pairs : gset (nat * nat) → list (nat * nat).
Variable iter_idx : gset nat → list nat.
Variable randint : G → nat → nat * G.
Hypothesis iter_pairs_perm : ∀ X, iter_pairs X ≡ₚ elements X.
Hypothesis iter_idx_perm : ∀ X, iter_idx X ≡ₚ elements X.
Hypothesis randint_lt : ∀ g n, (0 < n)%nat → ((randint g n).1 < n)%nat.
Variable crates : list (list Z).
Variable planes : list nat.
Variable g : G.
Hypothesis instance_wf : well_formed plane_cap city_count crates.
Hypothesis planes_nonempty : planes ≠ [].
Hypothesis planes_in_range : Forall (λ c, (c < city_count)%nat) planes.

(** The output of the prototype, with the trace that names the edge of
    every flight. *)
Lemma plan_output :
  ∃ st fl tr,
    plan plane_cap city_count iter_pairs iter_idx randint crates planes g
    = Ok (st, fl) ∧
    EdgePlanner.plan_edges plane_cap city_count iter_pairs crates = Ok st ∧
    EdgePlanner.inv plane_cap city_count crates st ∧
    (∀ i j, entry (EdgePlanner.crates st) i j = 0) ∧
    rtc (EdgeRun.step plane_cap city_count crates)
        (EdgePlanner.mk_state crates [] ∅ []) st ∧
    Forall2 (flight_ok city_count (EdgePlanner.edges st)) fl tr ∧
    Forall2 (flight_in_range city_count planes) fl tr ∧
    NoDup (visits tr) ∧
    respects (EdgePlanner.constraints st) tr ∧
    visits tr ≡ₚ seq 0 (length (EdgePlanner.edges st)) ∧
    (jumps tr ≤ length (EdgePlanner.edges st))%nat.
Proof.
  destruct (plan_parts plane_cap city_count iter_pairs iter_idx randint
              iter_pairs_perm iter_idx_perm randint_lt crates planes g
              instance_wf planes_nonempty planes_in_range)
    as (st & st0 & pst & Hedges & Hinv & Hzero & Hrun & Hreg & Hinv0 & Hsched
        & Hdrained & Hvisited & Hplan).
  assert (Hrange : ∀ idx e, EdgePlanner.edges st !! idx = Some e →
            (Edge.i e < city_count)%nat ∧ (Edge.j e < city_count)%nat).
  { intros idx e He. pose proof (EdgePlanner.inv_edges _ _ _ st Hinv) as Hall.
    rewrite Forall_lookup in Hall.
    destruct (Hall idx e He) as ((_ & Hlen & _ & Hi & _) & Hj & _).
    split; [|done]. rewrite <- Hlen. by eapply lookup_lt_Some. }
  apply (for_each_kept G _ _ (register_edge_frame iter_pairs G _ _)) in Hreg
    as (Hpe0 & Hpp0 & Htr0 & Hv0).
  simpl in Hpe0, Hpp0, Htr0, Hv0.
  pose proof (schedule_jumps city_count iter_pairs iter_idx G randint
                (EdgePlanner.edges st) (EdgePlanner.constraints st)
                iter_pairs_perm iter_idx_perm randint_lt Hrange
                (EdgePlanner.inv_order _ _ _ st Hinv)
                (EdgePlanner.inv_bounded _ _ _ st Hinv)
                (EdgePlanner.inv_generated _ _ _ st Hinv)
                planes planes_nonempty _ st0 pst Hinv0 Hsched) as Hjumps.
  rewrite Htr0, Hv0, Hvisited, size_seq_set in Hjumps.
  specialize (Hjumps (or_introl (Nat.le_0_l _))).
  destruct (schedule_planes city_count iter_pairs iter_idx G randint
              (EdgePlanner.edges st) (EdgePlanner.constraints st)
              iter_pairs_perm iter_idx_perm randint_lt Hrange
              (EdgePlanner.inv_order _ _ _ st Hinv)
              (EdgePlanner.inv_bounded _ _ _ st Hinv)
              (EdgePlanner.inv_generated _ _ _ st Hinv)
              planes planes_nonempty _ st0 pst Hinv0 Hsched)
    as (fs & ts & (Hpe & Htr & _) & Hfs).
  rewrite Hpe0 in Hpe. rewrite Htr0 in Htr. simpl in Hpe, Htr.
  destruct Hdrained as [(Hsets & Htrace & _) _].
  pose proof (visits_all _ _ _ pst Htrace Hvisited) as Hall.
  destruct Htrace as [Hfl Hvis Honce Hord].
  exists st, (plane_edges pst), (trace pst).
  split_and!; auto. by rewrite Hpe, Htr.
Qed.

End Output.

(** The plan has a flight for every edge and at most one jump for every
    edge: between [len(edges)] and [2 * len(edges)] flights. *)
Theorem plan_flights_bound {G : Type} plane_cap city_count iter_pairs
    iter_idx (randint : G → nat → nat * G) crates planes g :
  (∀ X, iter_pairs X ≡ₚ elements X) →
  (∀ X, iter_idx X ≡ₚ elements X) →
  (∀ g n, (0 < n)%nat → ((randint g n).1 < n)%nat) →
  well_formed plane_cap city_count crates →
  planes ≠ [] →
  Forall (λ c, (c < city_count)%nat) planes →
  ∃ st fl,
    plan plane_cap city_count iter_pairs iter_idx randint crates planes g
    = Ok (st, fl) ∧
    (length (EdgePlanner.edges st) ≤ length fl)%nat ∧
    (length fl ≤ 2 * length (EdgePlanner.edges st))%nat.
Proof.
  intros Hp1 Hp2 Hr Hwf Hne Hrange.
  destruct (plan_output plane_cap city_count iter_pairs iter_idx randint
              Hp1 Hp2 Hr crates planes g Hwf Hne Hrange)
    as (st & fl & tr & Hplan & _ & _ & _ & _ & Hfl & _ & _ & _ & Hall & Hjumps).
  exists st, fl. split; [done|].
  apply Forall2_length in Hfl. rewrite Hfl, (length_trace tr).
  apply Permutation_length in Hall. rewrite length_seq in Hall. lia.
Qed.

Lemma plan_flights_bound_witness :
  ∃ st fl,
    plan 30 4 elements elements lcg EdgePlanner.example_crates example_planes
         42%N = Ok (st, fl) ∧
    (length (EdgePlanner.edges st) ≤ length fl)%nat ∧
    (length fl ≤ 2 * length (EdgePlanner.edges st))%nat.
Proof.
  exact (plan_flights_bound 30 4 elements elements lcg
           EdgePlanner.example_crates example_planes 42%N
           EdgePlanner.elements_perm elements_idx_perm lcg_lt
           EdgePlanner.example_well_formed example_planes_nonempty
           example_planes_in_range).
Defined.

(** Every flight of the plan is one a plane can fly: the plane exists, the
    two cities exist, and the cargo is a vector of [city_count] counts, none
    negative, that add up to no more than the capacity. *)
Theorem plan_flights_valid {G : Type} plane_cap city_count iter_pairs
    iter_idx (randint : G → nat → nat * G) crates planes g :
  (∀ X, iter_pairs X ≡ₚ elements X) →
  (∀ X, iter_idx X ≡ₚ elements X) →
  (∀ g n, (0 < n)%nat → ((randint g n).1 < n)%nat) →
  well_formed plane_cap city_count crates →
  planes ≠ [] →
  Forall (λ c, (c < city_count)%nat) planes →
  ∃ st fl,
    plan plane_cap city_count iter_pairs iter_idx randint crates planes g
    = Ok (st, fl) ∧
    ∀ f, f ∈ fl →
         (PlaneEdge.plane_idx f < length planes)%nat ∧
         (PlaneEdge.i f < city_count)%nat ∧
         (PlaneEdge.j f < city_count)%nat ∧
         length (PlaneEdge.cargo f) = city_count ∧
         Forall (λ x, 0 ≤ x) (PlaneEdge.cargo f) ∧
         zsum (PlaneEdge.cargo f) ≤ plane_cap.
Proof.
  intros Hp1 Hp2 Hr Hwf Hne Hrange.
  destruct (plan_output plane_cap city_count iter_pairs iter_idx randint
              Hp1 Hp2 Hr crates planes g Hwf Hne Hrange)
    as (st & fl & tr & Hplan & _ & Hinv & _ & _ & Hfl & Hin & _).
  exists st, fl. split; [done|]. intros f Hf.
  apply list_elem_of_lookup in Hf as [k Hk].
  destruct (Forall2_lookup_l _ _ _ _ _ Hfl Hk) as (t & Ht & Hok).
  destruct (Forall2_lookup_l _ _ _ _ _ Hin Hk) as (t' & Ht' & Hp & Hjump).
  rewrite Ht in Ht'. inversion Ht'; subst t'. split; [done|].
  destruct t as [idx|]; simpl in Hok.
  - destruct Hok as (e & He & -> & -> & ->).
    pose proof (EdgePlanner.inv_edges _ _ _ st Hinv) as Hall.
    rewrite Forall_lookup in Hall.
    destruct (Hall idx e He) as ((_ & Hlen & Hnn & Hi & Hcap) & Hj & _).
    split_and!; auto. rewrite <- Hlen. by eapply lookup_lt_Some.
  - destruct Hok as [-> _]. destruct (Hjump eq_refl) as [Hi Hj].
    split_and!; auto.
    + by rewrite length_replicate.
    + apply Forall_replicate. lia.
    + rewrite zsum_replicate_0. destruct Hwf as [Hcap _]. lia.
Qed.

Lemma plan_flights_valid_witness :
  ∃ st fl,
    plan 30 4 elements elements lcg EdgePlanner.example_crates example_planes
         42%N = Ok (st, fl) ∧
    ∀ f, f ∈ fl →
         (PlaneEdge.plane_idx f < length example_planes)%nat ∧
         (PlaneEdge.i f < 4)%nat ∧
         (PlaneEdge.j f < 4)%nat ∧
         length (PlaneEdge.cargo f) = 4%nat ∧
         Forall (λ x, 0 ≤ x) (PlaneEdge.cargo f) ∧
         zsum (PlaneEdge.cargo f) ≤ 30.
Proof.
  exact (plan_flights_valid 30 4 elements elements lcg
           EdgePlanner.example_crates example_planes 42%N
           EdgePlanner.elements_perm elements_idx_perm lcg_lt
           EdgePlanner.example_well_formed example_planes_nonempty
           example_planes_in_range).
Defined.

(** *** The plan carries the demand *)

Lemma zsum_seq_lookup {A : Type} (f : A → Z) (es : list A) :
  zsum ((λ idx, match es !! idx with Some e => f e | None => 0 end)
          <$> seq 0 (length es))
  = zsum (f <$> es).
Proof.
  assert (Hgen : ∀ (es pre : list A),
    zsum ((λ idx, match (pre ++ es) !! idx with Some e => f e | None => 0 end)
            <$> seq (length pre) (length es))
    = zsum (f <$> es)).
  { clear es. induction es as [|x es IH]; intros pre; [done|].
    cbn [length seq]. rewrite !fmap_cons, !EdgeBounds.zsum_cons.
    rewrite list_lookup_middle by done. f_equal.
    specialize (IH (pre ++ [x])). rewrite length_app in IH. simpl in IH.
    rewrite <- app_assoc in IH. simpl in IH.
    by replace (S (length pre)) with (length pre + 1)%nat by lia. }
  apply (Hgen es []).
Qed.

Section Flights.
Variable city_count : nat.
Variable es : list Edge.t.

(** A sum over the flights is the sum over the edges they fly: a jump
    carries nothing. *)
Lemma flights_sum (term : Edge.t → Z) (fl : list PlaneEdge.t)
    (tr : list (option nat)) :
  (∀ e, Edge.cargo e = replicate city_count 0 → term e = 0) →
  Forall2 (flight_ok city_count es) fl tr →
  zsum ((λ f, term (edge_of_flight f)) <$> fl)
  = zsum ((λ idx, match es !! idx with Some e => term e | None => 0 end)
            <$> visits tr).
Proof.
  intros Hzero. induction 1 as [|f t fl tr Hf Hfl IH]; [done|].
  rewrite fmap_cons, EdgeBounds.zsum_cons, IH.
  destruct t as [idx|]; simpl in Hf.
  - destruct Hf as (e & He & Hi & Hj & Hc).
    change (visits (Some idx :: tr)) with (idx :: visits tr).
    rewrite fmap_cons, EdgeBounds.zsum_cons, He.
    unfold edge_of_flight. rewrite Hi, Hj, Hc. by destruct e.
  - destruct Hf as [Hc _].
    change (visits (None :: tr)) with (visits tr).
    rewrite Hzero by done. lia.
Qed.

Lemma visits_take_NoDup (tr : list (option nat)) (k : nat) :
  NoDup (visits tr) → NoDup (visits (take k tr)).
Proof.
  intros Hnd. rewrite <- (take_drop k tr) in Hnd. unfold visits in *.
  rewrite omap_app in Hnd. by apply NoDup_app in Hnd as [? _].
Qed.

Lemma elem_of_visits (tr : list (option nat)) (idx : nat) :
  idx ∈ visits tr ↔ Some idx ∈ tr.
Proof.
  unfold visits. rewrite list_elem_of_omap. split.
  - intros ([u|] & Hin & E); simpl in E; [|done]. by inversion E; subst.
  - intros Hin. by exists (Some idx).
Qed.

Lemma visits_take_closed (C : gset (nat * nat)) (tr : list (option nat))
    (k : nat) :
  respects C tr → EdgeStock.down_closed C (visits (take k tr)).
Proof.
  intros Hord a b Hab Hb. apply elem_of_visits in Hb.
  apply list_elem_of_lookup in Hb as [kb Hkb].
  apply lookup_take_Some in Hkb as [Hkb Hlt].
  destruct (Hord kb b Hkb a Hab) as (ka & Hlt' & Hka).
  apply elem_of_visits. apply list_elem_of_lookup. exists ka.
  apply lookup_take_Some. split; [done|lia].
Qed.

End Flights.

(** Crates for [d] that the flights [fl] have taken out of the city [c],
    less the crates for [d] they have brought to it. *)
Definition taken (d c : nat) (fl : list PlaneEdge.t) : Z :=
  zsum ((λ f, EdgeBounds.net_to d c (edge_of_flight f)) <$> fl).

(** The plan can be flown.  At any moment of the plan, that is after any
    number [k] of its flights, the crates for a destination [d] that have
    left a city [c], less those that have been brought to it, do not exceed
    the [crates[c, d]] the city had to begin with: no flight takes off with
    a crate that is not in its city. *)
Theorem plan_flights_stock {G : Type} plane_cap city_count iter_pairs
    iter_idx (randint : G → nat → nat * G) crates planes g :
  (∀ X, iter_pairs X ≡ₚ elements X) →
  (∀ X, iter_idx X ≡ₚ elements X) →
  (∀ g n, (0 < n)%nat → ((randint g n).1 < n)%nat) →
  well_formed plane_cap city_count crates →
  planes ≠ [] →
  Forall (λ c, (c < city_count)%nat) planes →
  ∃ st fl,
    plan plane_cap city_count iter_pairs iter_idx randint crates planes g
    = Ok (st, fl) ∧
    ∀ k c d, c ≠ d → taken d c (take k fl) ≤ entry crates c d.
Proof.
  intros Hp1 Hp2 Hr Hwf Hne Hrange.
  destruct (plan_output plane_cap city_count iter_pairs iter_idx randint
              Hp1 Hp2 Hr crates planes g Hwf Hne Hrange)
    as (st & fl & tr & Hplan & _ & Hinv & Hzero & Hrun & Hfl & _ & Hnd & Hord
        & _).
  exists st, fl. split; [done|]. intros k c d Hcd.
  apply (EdgeStock.run_stocked plane_cap city_count crates) in Hrun.
  - unfold taken.
    rewrite (flights_sum city_count (EdgePlanner.edges st)
               (EdgeBounds.net_to d c) (take k fl) (take k tr)).
    + pose proof (Hrun (visits (take k tr)) c d Hcd
                    (visits_take_NoDup tr k Hnd)
                    (visits_take_closed _ tr k Hord)) as H.
      rewrite Hzero in H. unfold EdgeStock.outflow in H. lia.
    + intros e He. unfold EdgeBounds.net_to. rewrite He.
      destruct (replicate city_count 0 !! d) as [x|] eqn:Hx; simpl; [|lia].
      apply lookup_replicate in Hx as [-> _]. lia.
    + by apply Forall2_take.
  - intros l' c' d' _ _ _. unfold EdgeStock.outflow. simpl.
    rewrite EdgeBounds.zsum_fmap_const0. lia.
Qed.

Lemma plan_flights_stock_witness :
  ∃ st fl,
    plan 30 4 elements elements lcg EdgePlanner.example_crates example_planes
         42%N = Ok (st, fl) ∧
    ∀ k c d, c ≠ d →
             taken d c (take k fl) ≤ entry EdgePlanner.example_crates c d.
Proof.
  exact (plan_flights_stock 30 4 elements elements lcg
           EdgePlanner.example_crates example_planes 42%N
           EdgePlanner.elements_perm elements_idx_perm lcg_lt
           EdgePlanner.example_well_formed example_planes_nonempty
           example_planes_in_range).
Defined.

(** The plan delivers the demand: for every destination [d], the crates for
    [d] on the flights that land in [d] are the crates the matrix asks to
    bring there, the sum of its column [d]. *)
Theorem plan_delivers_demand {G : Type} plane_cap city_count iter_pairs
    iter_idx (randint : G → nat → nat * G) crates planes g :
  (∀ X, iter_pairs X ≡ₚ elements X) →
  (∀ X, iter_idx X ≡ₚ elements X) →
  (∀ g n, (0 < n)%nat → ((randint g n).1 < n)%nat) →
  well_formed plane_cap city_count crates →
  planes ≠ [] →
  Forall (λ c, (c < city_count)%nat) planes →
  ∃ st fl,
    plan plane_cap city_count iter_pairs iter_idx randint crates planes g
    = Ok (st, fl) ∧
    ∀ d, EdgePlanner.delivered d (edge_of_flight <$> fl) = column_sum crates d.
Proof.
  intros Hp1 Hp2 Hr Hwf Hne Hrange.
  destruct (plan_output plane_cap city_count iter_pairs iter_idx randint
              Hp1 Hp2 Hr crates planes g Hwf Hne Hrange)
    as (st & fl & tr & Hplan & _ & Hinv & Hzero & _ & Hfl & _ & _ & _ & Hall
        & _).
  exists st, fl. split; [done|]. intros d.
  pose proof (EdgePlanner.inv_conserved _ _ _ st Hinv d) as Hcons.
  rewrite (column_sum_zero (EdgePlanner.crates st)) in Hcons by done.
  rewrite <- Hcons, Z.add_0_r. unfold EdgePlanner.delivered.
  set (term := λ e, if bool_decide (Edge.j e = d)
                    then default 0 (Edge.cargo e !! d) else 0).
  rewrite <- list_fmap_compose.
  change (term ∘ edge_of_flight) with (λ f, term (edge_of_flight f)).
  rewrite (flights_sum city_count (EdgePlanner.edges st) term fl tr);
    [|intros e He|done].
  - rewrite (EdgeStock.zsum_Permutation _ _ (fmap_Permutation _ _ _ Hall)).
    apply zsum_seq_lookup.
  - unfold term. rewrite He. case_bool_decide; [|done].
    destruct (replicate city_count 0 !! d) as [x|] eqn:Hx; simpl; [|done].
    by apply lookup_replicate in Hx as [-> _].
Qed.

Lemma plan_delivers_demand_witness :
  ∃ st fl,
    plan 30 4 elements elements lcg EdgePlanner.example_crates example_planes
         42%N = Ok (st, fl) ∧
    ∀ d, EdgePlanner.delivered d (edge_of_flight <$> fl)
         = column_sum EdgePlanner.example_crates d.
Proof.
  exact (plan_delivers_demand 30 4 elements elements lcg
           EdgePlanner.example_crates example_planes 42%N
           EdgePlanner.elements_perm elements_idx_perm lcg_lt
           EdgePlanner.example_well_formed example_planes_nonempty
           example_planes_in_range).
Defined.

(** *** No plane at all *)

Lemma no_edges_iff plane_cap city_count crates st :
  well_formed plane_cap city_count crates →
  EdgePlanner.inv plane_cap city_count crates st →
  (∀ i j, entry (EdgePlanner.crates st) i j = 0) →
  rtc (EdgeRun.step plane_cap city_count crates)
      (EdgePlanner.mk_state crates [] ∅ []) st →
  EdgePlanner.edges st = [] ↔ ∀ i j, entry crates i j = 0.
Proof.
  intros Hwf Hinv Hzero Hrun. split.
  - intros Hnil i j. destruct (decide (i = j)) as [->|Hne].
    + destruct (decide (j < city_count)%nat) as [Hlt|Hge].
      * by apply (well_formed_diag plane_cap city_count).
      * eapply entry_out_of_range; [apply Hwf|]. lia.
    + pose proof (EdgeBounds.run_flow_to plane_cap city_count crates _ _ i j
                    Hne Hrun) as Hflow.
      rewrite Hnil, Hzero in Hflow. simpl in Hflow.
      unfold EdgeBounds.flow_to in Hflow. simpl in Hflow. lia.
  - intros Hall.
    pose proof (EdgeBounds.run_potential plane_cap city_count crates
                  (proj1 Hwf) _ _ Hrun) as Hpot.
    unfold EdgeBounds.potential in Hpot. simpl in Hpot.
    rewrite (EdgeBounds.direct_edges_zero plane_cap crates city_count) in Hpot;
      [|apply Hwf|apply Hwf|done].
    rewrite (EdgeBounds.direct_edges_zero plane_cap (EdgePlanner.crates st)
               city_count) in Hpot;
      [|apply Hwf|by eapply EdgePlanner.inv_shape|done].
    destruct (EdgePlanner.edges st); [done|]. simpl in Hpot. lia.
Qed.

(** Without a plane the prototype returns the empty plan when there is
    nothing to ship, and raises [ValueError] otherwise: the first jump takes
    the [min] of an empty sequence of planes. *)
Theorem plan_without_planes {G : Type} plane_cap city_count iter_pairs
    iter_idx (randint : G → nat → nat * G) crates g :
  (∀ X, iter_pairs X ≡ₚ elements X) →
  well_formed plane_cap city_count crates →
  ((∀ i j, entry crates i j = 0) →
   ∃ st, plan plane_cap city_count iter_pairs iter_idx randint crates [] g
         = Ok (st, [])) ∧
  ((∃ i j, entry crates i j ≠ 0) →
   plan plane_cap city_count iter_pairs iter_idx randint crates [] g
   = Raise ValueError).
Proof.
  intros Hp1 Hwf.
  destruct (EdgeRun.plan_edges_run plane_cap city_count iter_pairs crates
              Hp1 Hwf)
    as (st & Hedges & Hinv & Hzero & Hrun).
  pose proof (no_edges_iff plane_cap city_count crates st Hwf Hinv Hzero Hrun)
    as Hnil.
  assert (Hrange : ∀ idx e, EdgePlanner.edges st !! idx = Some e →
            (Edge.i e < city_count)%nat ∧ (Edge.j e < city_count)%nat).
  { intros idx e He. pose proof (EdgePlanner.inv_edges _ _ _ st Hinv) as Hall.
    rewrite Forall_lookup in Hall.
    destruct (Hall idx e He) as ((_ & Hlen & _ & Hi & _) & Hj & _).
    split; [|done]. rewrite <- Hlen. by eapply lookup_lt_Some. }
  destruct (returns_inv _ _
              (register_edges_spec city_count iter_pairs elements G
                 (λ g n, (0%nat, g))
                 (EdgePlanner.edges st) (EdgePlanner.constraints st)
                 Hp1 (λ X, reflexivity (elements X)) (λ _ n Hn, Hn) Hrange
                 (EdgePlanner.inv_order _ _ _ st Hinv)
                 (EdgePlanner.inv_bounded _ _ _ st Hinv)
                 (EdgePlanner.inv_generated _ _ _ st Hinv)
                 [] (Forall_nil_2 _) g))
    as (st0 & Hreg & Hinv0).
  pose proof (for_each_kept G _ _ (register_edge_frame iter_pairs G _ _)
                _ _ Hreg) as (Hpe0 & Hpp0 & Htr0 & Hv0).
  simpl in Hpe0, Hpp0, Htr0, Hv0.
  assert (Hplan : plan plane_cap city_count iter_pairs iter_idx randint crates
                    [] g
                  = match filter (λ j, (0 < size (set_at (available_out_edges st0)
                                                      j))%nat)
                                 (seq 0 city_count) with
                    | [] => if bool_decide (EdgePlanner.edges st = [])
                            then Ok (st, []) else Raise AssertionError
                    | _ => Raise ValueError
                    end).
  { unfold plan. rewrite Hedges. cbn [bind].
    unfold plan_planes, plan_planes_run. cbv zeta. rewrite Hreg. cbn [bind].
    cbn [schedule extend_phase]. unfold extend_pass. cbn [length seq for_each].
    cbn [bind negb].
    destruct (filter _ _) as [|jump_j0 jump_js].
    - cbv [bind assert]. rewrite Hv0.
      destruct (EdgePlanner.edges st) as [|e es] eqn:He.
      + rewrite !bool_decide_eq_true_2 by done. by rewrite Hpe0.
      + rewrite (bool_decide_eq_false_2 (_ = list_to_set _)).
        * by rewrite bool_decide_eq_false_2.
        * intros Heq. assert (0%nat ∈ (∅ : gset nat)) as H0.
          { rewrite Heq. apply elem_of_list_to_set, elem_of_seq. simpl. lia. }
          by apply not_elem_of_empty in H0.
    - unfold jump. rewrite Hpp0. done. }
  rewrite Hplan. split.
  - intros Hall. apply Hnil in Hall. exists st.
    destruct (filter _ _) as [|j0 js] eqn:Hf.
    + by rewrite bool_decide_eq_true_2.
    + exfalso. assert (Hj : j0 ∈ j0 :: js) by (by left). rewrite <- Hf in Hj.
      apply list_elem_of_filter in Hj as [Hsize _].
      destruct (set_choose_L (set_at (available_out_edges st0) j0))
        as [idx Hidx].
      { intros E. rewrite E, size_empty in Hsize. lia. }
      destruct Hinv0 as (Hsets & _).
      destruct (available_sound _ _ _ _ _ _ _ Hsets j0 idx Hidx)
        as ((e & He & _) & _).
      by rewrite Hall in He.
  - intros (i & j & Hij).
    assert (Hne : EdgePlanner.edges st ≠ []).
    { intros E. by apply Hij, (proj1 Hnil E). }
    destruct (filter _ _) as [|j0 js] eqn:Hf; [|done].
    exfalso.
    pose proof (no_jump_drained city_count G _ _ [] st0 Hinv0 Hf) as Hdr.
    destruct (EdgePlanner.edges st !! 0%nat) as [e|] eqn:He.
    2:{ apply lookup_ge_None in He.
        destruct (EdgePlanner.edges st); [done|simpl in He; lia]. }
    pose proof (drained_all_visited city_count G (EdgePlanner.edges st)
                  (EdgePlanner.constraints st) Hrange
                  (EdgePlanner.inv_order _ _ _ st Hinv)
                  (EdgePlanner.inv_bounded _ _ _ st Hinv)
                  [] st0 Hdr 0%nat e He) as H0.
    rewrite Hv0 in H0. by apply not_elem_of_empty in H0.
Qed.

Lemma example_has_demand : ∃ i j, entry EdgePlanner.example_crates i j ≠ 0.
Proof. exists 0%nat, 1%nat. by vm_compute. Qed.

Lemma plan_without_planes_witness :
  plan 30 4 elements elements lcg EdgePlanner.example_crates [] 42%N
  = Raise ValueError.
Proof.
  exact (proj2 (plan_without_planes 30 4 elements elements lcg
                  EdgePlanner.example_crates 42%N
                  EdgePlanner.elements_perm EdgePlanner.example_well_formed)
               example_has_demand).
Defined.

(** *** The closures and the output *)

Definition rmap {A B : Type} (f : A → B) (m : result A) : result B :=
  let* a := m in Ok (f a).

(** The closures of [plan_planes] that visit edges neither read the output
    nor the positions of the planes: they do the same in a state whose
    output and positions are others, as long as a flight appended to the
    one is appended to the other. *)
Section Reframe.
Variable iter_pairs : gset (nat * nat) → list (nat * nat).
Variable iter_idx : gset nat → list nat.
Variable G : Type.
Variable randint : G → nat → nat * G.
Variable edges : list Edge.t.
Variable constraints : gset (nat * nat).
Variable on_flights : list PlaneEdge.t → list PlaneEdge.t.
Variable on_pos : list nat → list nat.
Variable on_trace : list (option nat) → list (option nat).
Hypothesis on_flights_snoc : ∀ l f, on_flights (l ++ [f]) = on_flights l ++ [f].
Hypothesis on_trace_snoc : ∀ l t, on_trace (l ++ [t]) = on_trace l ++ [t].

Definition reframe (st : state G) : state G :=
  mk_state (all_out_edges st) (all_in_edges st) (available_out_edges st)
           (available_in_edges st) (visited_edges st)
           (on_flights (plane_edges st)) (on_pos (plane_pos st)) (rng st)
           (on_trace (trace st)).

Definition reframe_in {A : Type} (r : A * state G) : A * state G :=
  (r.1, reframe r.2).

Lemma make_available_reframe (idx : nat) (st : state G) :
  make_available G edges idx (reframe st)
  = rmap reframe (make_available G edges idx st).
Proof.
  unfold make_available, rmap. destruct (get edges idx) as [e| |]; try done.
  cbn [bind]. simpl.
  destruct (set_add (available_out_edges st) (Edge.i e) idx); try done.
  cbn [bind]. by destruct (set_add (available_in_edges st) (Edge.j e) idx).
Qed.

Lemma register_edge_reframe (ie : nat * Edge.t) (st : state G) :
  register_edge iter_pairs G edges constraints ie (reframe st)
  = rmap reframe (register_edge iter_pairs G edges constraints ie st).
Proof.
  destruct ie as [idx edge]. unfold register_edge, rmap.
  change (is_available iter_pairs G constraints idx (reframe st))
    with (is_available iter_pairs G constraints idx st).
  assert (Hstep : (if is_available iter_pairs G constraints idx st
                   then make_available G edges idx (reframe st)
                   else Ok (reframe st))
                  = rmap reframe
                      (if is_available iter_pairs G constraints idx st
                       then make_available G edges idx st else Ok st)).
  { destruct (is_available _ _ _ _ _); [apply make_available_reframe|done]. }
  rewrite Hstep. unfold rmap.
  destruct (if is_available iter_pairs G constraints idx st
            then make_available G edges idx st else Ok st) as [s| |];
    try done.
  cbn [bind]. simpl.
  destruct (set_add (all_out_edges s) (Edge.i edge) idx); try done.
  cbn [bind]. by destruct (set_add (all_in_edges s) (Edge.j edge) idx).
Qed.

Lemma for_each_reframe {A : Type} (body : A → state G → result (state G))
    (l : list A) :
  (∀ x st, body x (reframe st) = rmap reframe (body x st)) →
  ∀ st, for_each body l (reframe st) = rmap reframe (for_each body l st).
Proof.
  intros Hbody. induction l as [|x l IH]; intros st; [done|].
  cbn [for_each]. rewrite Hbody. unfold rmap at 1.
  destruct (body x st) as [s| |]; try done. cbn [bind]. apply IH.
Qed.

Lemma unlock_reframe (city u : nat) (st : state G) :
  unlock iter_pairs G edges constraints city u (reframe st)
  = rmap reframe (unlock iter_pairs G edges constraints city u st).
Proof.
  unfold unlock.
  change (available_out_edges (reframe st)) with (available_out_edges st).
  change (visited_edges (reframe st)) with (visited_edges st).
  change (is_available iter_pairs G constraints u (reframe st))
    with (is_available iter_pairs G constraints u st).
  destruct (get (available_out_edges st) city) as [out| |]; try done.
  cbn [bind].
  destruct (negb _ && negb _ && _); [apply make_available_reframe|done].
Qed.

Lemma visit_edge_reframe (idx : nat) (st : state G) :
  visit_edge iter_pairs iter_idx G edges constraints idx (reframe st)
  = rmap reframe (visit_edge iter_pairs iter_idx G edges constraints idx st).
Proof.
  unfold visit_edge. destruct (get edges idx) as [e| |]; try done.
  cbn [bind].
  change (available_out_edges (reframe st)) with (available_out_edges st).
  change (available_in_edges (reframe st)) with (available_in_edges st).
  destruct (set_remove (available_out_edges st) (Edge.i e) idx) as [ao| |];
    try done.
  cbn [bind].
  destruct (set_remove (available_in_edges st) (Edge.j e) idx) as [ai| |];
    try done.
  cbn [bind]. cbn [all_out_edges reframe].
  destruct (get (all_out_edges st) (Edge.j e)) as [cs| |]; try done.
  cbn [bind].
  exact (for_each_reframe (unlock iter_pairs G edges constraints (Edge.j e))
           (iter_idx cs) (unlock_reframe (Edge.j e))
           (mk_state (all_out_edges st) (all_in_edges st) ao ai
              ({[idx]} ∪ visited_edges st) (plane_edges st) (plane_pos st)
              (rng st) (trace st))).
Qed.

Lemma emit_reframe (f : PlaneEdge.t) (t : option nat) (st : state G) :
  emit G f t (reframe st) = reframe (emit G f t st).
Proof.
  unfold emit, reframe. simpl. by rewrite on_flights_snoc, on_trace_snoc.
Qed.

Lemma extend_loop_reframe (fuel : nat) :
  ∀ p i extended st,
    extend_loop iter_pairs iter_idx G randint edges constraints fuel p i
      extended (reframe st)
    = rmap reframe_in
        (extend_loop iter_pairs iter_idx G randint edges constraints fuel p i
           extended st).
Proof.
  induction fuel as [|fuel IH]; intros p i extended st; [done|].
  cbn [extend_loop].
  change (available_out_edges (reframe st)) with (available_out_edges st).
  destruct (get (available_out_edges st) i) as [out| |]; try done.
  cbn [bind]. case_bool_decide; [|done].
  change (rng (reframe st)) with (rng st).
  destruct (randint (rng st) (length (iter_idx out))) as [k g].
  destruct (get (iter_idx out) k) as [idx| |]; try done.
  cbn [bind].
  change (with_rng G (reframe st) g) with (reframe (with_rng G st g)).
  rewrite visit_edge_reframe. unfold rmap at 1.
  destruct (visit_edge iter_pairs iter_idx G edges constraints idx
              (with_rng G st g)) as [s| |]; try done.
  cbn [bind]. destruct (get edges idx) as [e| |]; try done.
  cbn [bind]. rewrite emit_reframe.
  exact (IH p (Edge.j e) true
           (emit G (PlaneEdge.mk p (Edge.i e) (Edge.j e) (Edge.cargo e))
                 (Some idx) s)).
Qed.

End Reframe.

(** *** A plane that starts outside the cities *)

Section MorePlanes.
Variable iter_pairs : gset (nat * nat) → list (nat * nat).
Variable iter_idx : gset nat → list nat.
Variable G : Type.
Variable randint : G → nat → nat * G.
Variable edges : list Edge.t.
Variable constraints : gset (nat * nat).
Variable more : list nat.

(** The state [st] with the planes [more] after its own.  What the closures
    do for a plane of [st] is what they do for it in the longer list. *)
Definition more_planes (st : state G) : state G :=
  reframe G id (λ pos, pos ++ more) id st.

Definition more_planes_in {A : Type} (r : A * state G) : A * state G :=
  (r.1, more_planes r.2).

Lemma more_planes_registered (l : list (nat * Edge.t)) (st : state G) :
  for_each (register_edge iter_pairs G edges constraints) l (more_planes st)
  = rmap more_planes
      (for_each (register_edge iter_pairs G edges constraints) l st).
Proof.
  apply (for_each_reframe G id (λ pos, pos ++ more) id).
  apply register_edge_reframe.
Qed.

Lemma extend_journey_more (p : nat) (st : state G) :
  (p < length (plane_pos st))%nat →
  extend_journey iter_pairs iter_idx G randint edges constraints p
    (more_planes st)
  = rmap more_planes_in
      (extend_journey iter_pairs iter_idx G randint edges constraints p st).
Proof.
  intros Hp. unfold extend_journey.
  assert (Hget : ∀ pos, (p < length pos)%nat →
                        get (pos ++ more) p = get pos p).
  { intros pos H. unfold get. by rewrite lookup_app_l. }
  change (plane_pos (more_planes st)) with (plane_pos st ++ more).
  rewrite Hget by done.
  destruct (get (plane_pos st) p) as [i| |]; try done.
  cbn [bind]. unfold more_planes at 1.
  rewrite (extend_loop_reframe iter_pairs iter_idx G randint edges constraints
             id (λ pos, pos ++ more) id) by done.
  unfold rmap at 1.
  destruct (extend_loop iter_pairs iter_idx G randint edges constraints
              (S (length edges)) p i false st) as [[[i' e'] s]| |] eqn:Hloop;
    try done.
  cbn [bind reframe_in fst snd]. fold (more_planes s).
  destruct (extend_loop_frame iter_pairs iter_idx G randint edges constraints
              _ _ _ _ _ _ _ _ Hloop) as (fs & ts & _ & Hpos & _).
  change (plane_pos (more_planes s)) with (plane_pos s ++ more).
  rewrite Hget by (by rewrite Hpos).
  destruct (get (plane_pos s) p) as [x| |]; try done.
  cbn [bind rmap more_planes_in fst snd].
  unfold more_planes, reframe, with_plane_pos.
  simpl. by rewrite insert_app_l by (by rewrite Hpos).
Qed.

(** The rounds of [extend_pass] for the planes listed in [ps]. *)
Lemma extend_rounds_more (ps : list nat) :
  ∀ extended st,
    Forall (λ p, (p < length (plane_pos st))%nat) ps →
    for_each (λ plane_idx '(extended, st),
                let* (e, st) := extend_journey iter_pairs iter_idx G randint
                                  edges constraints plane_idx st in
                Ok (extended || e, st))
             ps (extended, more_planes st)
    = rmap more_planes_in
        (for_each (λ plane_idx '(extended, st),
                     let* (e, st) := extend_journey iter_pairs iter_idx G
                                       randint edges constraints plane_idx st in
                     Ok (extended || e, st))
                  ps (extended, st)).
Proof.
  induction ps as [|p ps IH]; intros extended st Hps; [done|].
  apply Forall_cons in Hps as [Hp Hps].
  cbn [for_each]. rewrite extend_journey_more by done. unfold rmap at 1.
  destruct (extend_journey iter_pairs iter_idx G randint edges constraints p
              st) as [[e s]| |] eqn:Hj; try done.
  cbn [bind more_planes_in fst snd].
  destruct (extend_journey_frame iter_pairs iter_idx G randint edges
              constraints _ _ _ _ Hj) as (fs & ts & (_ & _ & Hlen) & _).
  apply IH. by rewrite Hlen.
Qed.

End MorePlanes.

Lemma first_outside (city_count : nat) (planes : list nat) :
  Exists (λ c, (city_count ≤ c)%nat) planes →
  ∃ pre c post, planes = pre ++ c :: post ∧
                Forall (λ c, (c < city_count)%nat) pre ∧
                (city_count ≤ c)%nat.
Proof.
  induction planes as [|x planes IH]; intros H; [by apply Exists_nil in H|].
  destruct (decide (x < city_count)%nat) as [Hx|Hx].
  - apply Exists_cons in H as [H|H]; [lia|].
    destruct (IH H) as (pre & c & post & -> & Hpre & Hc).
    exists (x :: pre), c, post. split_and!; auto.
  - exists [], x, planes. split_and!; auto. lia.
Qed.

(** A plane that starts in a city that does not exist stops the prototype
    with an [IndexError]: the planes before it extend their journeys, and
    its own first [extend_journey] reads [available_out_edges] past the
    end. *)
Theorem plan_plane_outside {G : Type} plane_cap city_count iter_pairs
    iter_idx (randint : G → nat → nat * G) crates planes g :
  (∀ X, iter_pairs X ≡ₚ elements X) →
  (∀ X, iter_idx X ≡ₚ elements X) →
  (∀ g n, (0 < n)%nat → ((randint g n).1 < n)%nat) →
  well_formed plane_cap city_count crates →
  Exists (λ c, (city_count ≤ c)%nat) planes →
  plan plane_cap city_count iter_pairs iter_idx randint crates planes g
  = Raise IndexError.
Proof.
  intros Hp1 Hp2 Hr Hwf Hex.
  destruct (first_outside _ _ Hex) as (pre & c & post & -> & Hpre & Hc).
  destruct (EdgeRun.plan_edges_run plane_cap city_count iter_pairs crates
              Hp1 Hwf)
    as (st & Hedges & Hinv & _ & _).
  assert (Hrange : ∀ idx e, EdgePlanner.edges st !! idx = Some e →
            (Edge.i e < city_count)%nat ∧ (Edge.j e < city_count)%nat).
  { intros idx e He. pose proof (EdgePlanner.inv_edges _ _ _ st Hinv) as Hall.
    rewrite Forall_lookup in Hall.
    destruct (Hall idx e He) as ((_ & Hlen & _ & Hi & _) & Hj & _).
    split; [|done]. rewrite <- Hlen. by eapply lookup_lt_Some. }
  pose proof (EdgePlanner.inv_order _ _ _ st Hinv) as Hord.
  pose proof (EdgePlanner.inv_bounded _ _ _ st Hinv) as Hbnd.
  pose proof (EdgePlanner.inv_generated _ _ _ st Hinv) as Hgen.
  destruct (returns_inv _ _
              (register_edges_spec city_count iter_pairs iter_idx G randint
                 (EdgePlanner.edges st) (EdgePlanner.constraints st)
                 Hp1 Hp2 Hr Hrange Hord Hbnd Hgen pre Hpre g))
    as (st0 & Hreg & Hinv0).
  destruct (returns_inv _ _
              (extend_pass_spec city_count iter_pairs iter_idx G randint
                 (EdgePlanner.edges st) (EdgePlanner.constraints st)
                 Hp1 Hp2 Hr Hrange Hord Hbnd Hgen pre st0 Hinv0))
    as ([e st1] & Hpass & Hinv1 & _).
  simpl in Hinv1. destruct Hinv1 as (Hsets & _ & _ & Hlen & _).
  assert (Hj : extend_journey iter_pairs iter_idx G randint
                 (EdgePlanner.edges st) (EdgePlanner.constraints st)
                 (length pre) (more_planes G (c :: post) st1)
               = Raise IndexError).
  { unfold extend_journey.
    change (plane_pos (more_planes G (c :: post) st1))
      with (plane_pos st1 ++ c :: post).
    unfold get at 1. rewrite <- Hlen, list_lookup_middle by done.
    cbn [bind extend_loop].
    change (available_out_edges (more_planes G (c :: post) st1))
      with (available_out_edges st1).
    unfold get at 1. rewrite lookup_ge_None_2; [done|].
    by rewrite (len_available_out _ _ _ _ _ _ _ Hsets). }
  assert (Hpass' : extend_pass iter_pairs iter_idx G randint
                     (EdgePlanner.edges st) (EdgePlanner.constraints st)
                     (pre ++ c :: post) (more_planes G (c :: post) st0)
                   = Raise IndexError).
  { unfold extend_pass. rewrite length_app, seq_app, for_each_app.
    rewrite extend_rounds_more.
    - unfold extend_pass in Hpass. rewrite Hpass.
      cbn [rmap bind more_planes_in fst snd length seq for_each].
      rewrite Nat.add_0_l. by rewrite Hj.
    - destruct Hinv0 as (_ & _ & _ & Hlen0 & _). rewrite Hlen0.
      apply Forall_forall. intros p Hp. apply elem_of_seq in Hp. lia. }
  unfold plan. rewrite Hedges. cbn [bind].
  unfold plan_planes, plan_planes_run. cbv zeta.
  change (mk_state (replicate city_count ∅) (replicate city_count ∅)
            (replicate city_count ∅) (replicate city_count ∅) ∅ []
            (pre ++ c :: post) g [])
    with (more_planes G (c :: post)
            (mk_state (replicate city_count ∅) (replicate city_count ∅)
               (replicate city_count ∅) (replicate city_count ∅) ∅ []
               pre g [])).
  rewrite more_planes_registered.
  rewrite Hreg. cbn [rmap bind schedule extend_phase]. by rewrite Hpass'.
Qed.

Definition example_planes_outside : list nat := [3; 4]%nat.

Lemma example_plane_outside :
  Exists (λ c, (4 ≤ c)%nat) example_planes_outside.
Proof. apply Exists_cons_tl, Exists_cons_hd. lia. Qed.

Lemma plan_plane_outside_witness :
  plan 30 4 elements elements lcg EdgePlanner.example_crates
       example_planes_outside 42%N
  = Raise IndexError.
Proof.
  exact (plan_plane_outside 30 4 elements elements lcg
           EdgePlanner.example_crates example_planes_outside 42%N
           EdgePlanner.elements_perm elements_idx_perm lcg_lt
           EdgePlanner.example_well_formed example_plane_outside).
Defined.

(** *** Where the planes take off first *)

(** The schedule neither reads the output: it does the same after any
    flights [pre], with trace [ptr], that stand in the output already. *)
Section Prefix.
Variable city_count : nat.
Variable iter_pairs : gset (nat * nat) → list (nat * nat).
Variable iter_idx : gset nat → list nat.
Variable G : Type.
Variable randint : G → nat → nat * G.
Variable edges : list Edge.t.
Variable constraints : gset (nat * nat).
Variable pre : list PlaneEdge.t.
Variable ptr : list (option nat).

Definition prefixed (st : state G) : state G :=
  reframe G (app pre) id (app ptr) st.

Definition prefixed_in {A : Type} (r : A * state G) : A * state G :=
  (r.1, prefixed r.2).

Lemma app_snoc {A : Type} (l0 l : list A) (x : A) :
  l0 ++ (l ++ [x]) = (l0 ++ l) ++ [x].
Proof. apply app_assoc. Qed.

Lemma extend_journey_prefixed (p : nat) (st : state G) :
  extend_journey iter_pairs iter_idx G randint edges constraints p
    (prefixed st)
  = rmap prefixed_in
      (extend_journey iter_pairs iter_idx G randint edges constraints p st).
Proof.
  unfold extend_journey.
  change (plane_pos (prefixed st)) with (plane_pos st).
  destruct (get (plane_pos st) p) as [i| |]; try done.
  cbn [bind]. unfold prefixed at 1.
  rewrite (extend_loop_reframe iter_pairs iter_idx G randint edges constraints
             (app pre) id (app ptr) (app_snoc pre) (app_snoc ptr)).
  unfold rmap at 1.
  destruct (extend_loop iter_pairs iter_idx G randint edges constraints
              (S (length edges)) p i false st) as [[[i' e'] s]| |];
    try done.
  cbn [bind reframe_in fst snd]. fold (prefixed s).
  change (plane_pos (prefixed s)) with (plane_pos s).
  by destruct (get (plane_pos s) p).
Qed.

Lemma extend_rounds_prefixed (ps : list nat) :
  ∀ extended st,
    for_each (λ plane_idx '(extended, st),
                let* (e, st) := extend_journey iter_pairs iter_idx G randint
                                  edges constraints plane_idx st in
                Ok (extended || e, st))
             ps (extended, prefixed st)
    = rmap prefixed_in
        (for_each (λ plane_idx '(extended, st),
                     let* (e, st) := extend_journey iter_pairs iter_idx G
                                       randint edges constraints plane_idx st in
                     Ok (extended || e, st))
                  ps (extended, st)).
Proof.
  induction ps as [|p ps IH]; intros extended st; [done|].
  cbn [for_each]. rewrite extend_journey_prefixed. unfold rmap at 1.
  destruct (extend_journey iter_pairs iter_idx G randint edges constraints p
              st) as [[e s]| |]; try done.
  cbn [bind prefixed_in fst snd]. apply IH.
Qed.

Lemma extend_phase_prefixed (planes : list nat) (fuel : nat) :
  ∀ st,
    extend_phase iter_pairs iter_idx G randint edges constraints fuel planes
      (prefixed st)
    = rmap prefixed
        (extend_phase iter_pairs iter_idx G randint edges constraints fuel
           planes st).
Proof.
  induction fuel as [|fuel IH]; intros st; [done|].
  cbn [extend_phase]. unfold extend_pass. rewrite extend_rounds_prefixed.
  unfold rmap at 1.
  destruct (for_each _ (seq 0 (length planes)) (false, st)) as [[e s]| |];
    try done.
  cbn [bind prefixed_in fst snd]. destruct e; [apply IH|done].
Qed.

Lemma jump_prefixed (jump_j0 : nat) (jump_js : list nat) (st : state G) :
  jump city_count G jump_j0 jump_js (prefixed st)
  = rmap prefixed (jump city_count G jump_j0 jump_js st).
Proof.
  unfold jump.
  change (supply G (prefixed st)) with (supply G st).
  change (local_work G (prefixed st)) with (local_work G st).
  change (plane_pos (prefixed st)) with (plane_pos st).
  destruct (with_keys (local_work G st) (imap pair (plane_pos st)))
    as [[|ii iis]| |]; try done.
  cbn [bind]. destruct (min_by snd ii iis) as [[jump_plane_idx jump_i] w].
  destruct (get (plane_pos st) jump_plane_idx) as [x| |]; try done.
  cbn [bind rmap]. f_equal.
  unfold emit, prefixed, reframe, with_plane_pos. simpl.
  by rewrite !app_snoc.
Qed.

Lemma schedule_prefixed (planes : list nat) (fuel : nat) :
  ∀ st,
    schedule city_count iter_pairs iter_idx G randint edges constraints fuel
      planes (prefixed st)
    = rmap prefixed
        (schedule city_count iter_pairs iter_idx G randint edges constraints
           fuel planes st).
Proof.
  induction fuel as [|fuel IH]; intros st; [done|].
  cbn [schedule]. rewrite extend_phase_prefixed. unfold rmap at 1.
  destruct (extend_phase iter_pairs iter_idx G randint edges constraints
              (S (length edges)) planes st) as [s| |]; try done.
  cbn [bind].
  change (available_out_edges (prefixed s)) with (available_out_edges s).
  destruct (filter _ (seq 0 city_count)) as [|jump_j0 jump_js]; [done|].
  rewrite jump_prefixed. unfold rmap at 1.
  destruct (jump city_count G jump_j0 jump_js s) as [s'| |]; try done.
  cbn [bind]. apply IH.
Qed.

End Prefix.

(** One flight for each plane, that lands where the plane starts. *)
Fixpoint parked (city_count : nat) (p : nat) (planes : list nat)
  : list PlaneEdge.t :=
  match planes with
  | [] => []
  | c :: planes =>
    PlaneEdge.mk p (S c) c (replicate city_count 0)
      :: parked city_count (S p) planes
  end.

Lemma flights_of_parked (city_count : nat) (planes : list nat) :
  ∀ lo p,
    flights_of p (parked city_count lo planes)
    = if bool_decide (lo ≤ p)%nat
      then match planes !! (p - lo)%nat with
           | Some c => [PlaneEdge.mk p (S c) c (replicate city_count 0)]
           | None => []
           end
      else [].
Proof.
  unfold flights_of.
  induction planes as [|c planes IH]; intros lo p.
  - simpl. by case_bool_decide.
  - cbn [parked]. rewrite filter_cons. cbn [PlaneEdge.plane_idx].
    rewrite IH. destruct (decide (lo = p)) as [->|Hne].
    + rewrite (bool_decide_eq_true_2 (p ≤ p)%nat) by lia.
      rewrite (bool_decide_eq_false_2 (S p ≤ p)%nat) by lia.
      by rewrite Nat.sub_diag.
    + destruct (decide (lo ≤ p)%nat) as [Hle|Hgt].
      * rewrite (bool_decide_eq_true_2 (lo ≤ p)%nat) by done.
        rewrite (bool_decide_eq_true_2 (S lo ≤ p)%nat) by lia.
        by replace (p - lo)%nat with (S (p - S lo)) by lia.
      * rewrite (bool_decide_eq_false_2 (lo ≤ p)%nat) by done.
        by rewrite (bool_decide_eq_false_2 (S lo ≤ p)%nat) by lia.
Qed.

Lemma parked_jumps (city_count : nat) (edges : list Edge.t)
    (planes : list nat) :
  ∀ lo, Forall2 (flight_ok city_count edges) (parked city_count lo planes)
          (replicate (length planes) None).
Proof.
  induction planes as [|c planes IH]; intros lo; [constructor|].
  cbn [parked length replicate]. constructor; [|apply IH].
  split; [done|]. simpl. lia.
Qed.

(** The first flight of every plane takes off from the city the plane
    starts in. *)
Theorem plan_first_flights {G : Type} plane_cap city_count iter_pairs
    iter_idx (randint : G → nat → nat * G) crates planes g :
  (∀ X, iter_pairs X ≡ₚ elements X) →
  (∀ X, iter_idx X ≡ₚ elements X) →
  (∀ g n, (0 < n)%nat → ((randint g n).1 < n)%nat) →
  well_formed plane_cap city_count crates →
  planes ≠ [] →
  Forall (λ c, (c < city_count)%nat) planes →
  ∃ st fl,
    plan plane_cap city_count iter_pairs iter_idx randint crates planes g
    = Ok (st, fl) ∧
    ∀ p f, head (flights_of p fl) = Some f →
           planes !! p = Some (PlaneEdge.i f).
Proof.
  intros Hp1 Hp2 Hr Hwf Hne Hrange.
  destruct (plan_parts plane_cap city_count iter_pairs iter_idx randint
              Hp1 Hp2 Hr crates planes g Hwf Hne Hrange)
    as (st & st0 & pst & Hedges & Hinv & _ & _ & Hreg & Hinv0 & Hsched & _ & _
        & Hplan).
  exists st, (plane_edges pst). split; [done|].
  assert (Hin : ∀ idx e, EdgePlanner.edges st !! idx = Some e →
            (Edge.i e < city_count)%nat ∧ (Edge.j e < city_count)%nat).
  { intros idx e He. pose proof (EdgePlanner.inv_edges _ _ _ st Hinv) as Hall.
    rewrite Forall_lookup in Hall.
    destruct (Hall idx e He) as ((_ & Hlen & _ & Hi & _) & Hj & _).
    split; [|done]. rewrite <- Hlen. by eapply lookup_lt_Some. }
  pose proof (EdgePlanner.inv_order _ _ _ st Hinv) as Hord.
  pose proof (EdgePlanner.inv_bounded _ _ _ st Hinv) as Hbnd.
  pose proof (EdgePlanner.inv_generated _ _ _ st Hinv) as Hgen.
  pose proof (for_each_kept G _ _ (register_edge_frame iter_pairs G _ _)
                _ _ Hreg) as (Hpe0 & Hpp0 & Htr0 & Hv0).
  simpl in Hpe0, Hpp0, Htr0, Hv0.
  set (pre := parked city_count 0 planes).
  set (ptr := replicate (length planes) (None : option nat)).
  assert (Hinv0' : inv city_count G (EdgePlanner.edges st)
                     (EdgePlanner.constraints st) planes
                     (prefixed G pre ptr st0)).
  { destruct Hinv0 as (Hsets & Htr & Hgeo & Hpos). split_and!.
    - by destruct Hsets.
    - constructor.
      + change (Forall2 (flight_ok city_count (EdgePlanner.edges st))
                  (pre ++ plane_edges st0) (ptr ++ trace st0)).
        rewrite Hpe0, Htr0, !app_nil_r. apply parked_jumps.
      + intros idx. change (idx ∈ visited_edges st0 ↔ Some idx ∈ ptr ++ trace st0).
        rewrite Hv0, Htr0, app_nil_r. split.
        * intros H. by apply not_elem_of_empty in H.
        * intros H. by apply elem_of_replicate in H as [? _].
      + change (NoDup (visits (ptr ++ trace st0))).
        rewrite Htr0, app_nil_r. unfold ptr.
        assert (visits (replicate (length planes) (None : option nat)) = [])
          as ->; [|constructor].
        induction (length planes) as [|n IH]; [done|]. exact IH.
      + intros k b Hk. change ((ptr ++ trace st0) !! k = Some (Some b)) in Hk.
        rewrite Htr0, app_nil_r in Hk. by apply lookup_replicate in Hk as [? _].
    - change (geo (pre ++ plane_edges st0) (plane_pos st0)).
      rewrite Hpe0, Hpp0, app_nil_r. intros p. unfold pre.
      rewrite flights_of_parked, bool_decide_eq_true_2, Nat.sub_0_r by lia.
      destruct (planes !! p) as [c|] eqn:Hc.
      + split.
        * intros k f1 f2 _ H2. by destruct k.
        * intros f Hf. by inversion Hf.
      + split; [by intros k f1 f2 H1|done].
    - exact Hpos. }
  pose proof (schedule_spec city_count iter_pairs iter_idx G randint
                (EdgePlanner.edges st) (EdgePlanner.constraints st)
                Hp1 Hp2 Hr Hin Hord Hbnd Hgen planes Hne
                (S (length (EdgePlanner.edges st)))
                (prefixed G pre ptr st0) Hinv0') as Hout.
  rewrite schedule_prefixed, Hsched in Hout.
  destruct Hout as ((_ & _ & Hgeo & _) & _).
  change (geo (pre ++ plane_edges pst) (plane_pos pst)) in Hgeo.
  intros p f Hf. destruct (Hgeo p) as [Hch _].
  unfold flights_of in Hch. rewrite filter_app in Hch.
  fold (flights_of p pre) in Hch. fold (flights_of p (plane_edges pst)) in Hch.
  unfold pre in Hch.
  rewrite flights_of_parked, bool_decide_eq_true_2, Nat.sub_0_r in Hch by lia.
  destruct (flights_of p (plane_edges pst)) as [|f' rest] eqn:Hfl; [done|].
  simpl in Hf. inversion Hf; subst f'.
  destruct (planes !! p) as [c|] eqn:Hc.
  - by rewrite <- (Hch 0%nat _ f eq_refl eq_refl).
  - exfalso.
    assert (Hfin : f ∈ flights_of p (plane_edges pst)) by (rewrite Hfl; by left).
    apply list_elem_of_filter in Hfin as [Hfp Hfin].
    destruct (schedule_planes city_count iter_pairs iter_idx G randint
                (EdgePlanner.edges st) (EdgePlanner.constraints st)
                Hp1 Hp2 Hr Hin Hord Hbnd Hgen planes Hne _ _ _ Hinv0 Hsched)
      as (fs & ts & (Hfs & _) & Hall).
    rewrite Hpe0 in Hfs. simpl in Hfs. rewrite Hfs in Hfin.
    apply list_elem_of_lookup in Hfin as [k Hk].
    destruct (Forall2_lookup_l _ _ _ _ _ Hall Hk) as (t & _ & Hlt & _).
    apply lookup_ge_None in Hc. lia.
Qed.

Lemma plan_first_flights_witness :
  ∃ st fl,
    plan 30 4 elements elements lcg EdgePlanner.example_crates example_planes
         42%N = Ok (st, fl) ∧
    ∀ p f, head (flights_of p fl) = Some f →
           example_planes !! p = Some (PlaneEdge.i f).
Proof.
  exact (plan_first_flights 30 4 elements elements lcg
           EdgePlanner.example_crates example_planes 42%N
           EdgePlanner.elements_perm elements_idx_perm lcg_lt
           EdgePlanner.example_well_formed example_planes_nonempty
           example_planes_in_range).
Defined.

End PlaneFacts.

(** ** The instance generator: [gen_crates_planes] *)

(** The script draws its instance with [gen_crates_planes] and hands it to
    the two planners.  The module constants [crate_count], [plane_count] and
    [city_count] are parameters here, as [plane_cap] and [city_count] are
    for the planners; the generator of numpy is the state [G] of
    [plan_planes]. *)

Module Generator.

Section Generator.
Variable crate_count : nat.
Variable plane_count : nat.
Variable city_count : nat.
Variable G : Type.
Variable randint : G → nat → nat * G.

(** [np.random.randint(high)], a [ValueError] unless [0 < high]. *)
Definition np_randint (high : nat) (g : G) : result (nat * G) :=
  if bool_decide (0 < high)%nat then Ok (randint g high) else Raise ValueError.

(** Body of [for _ in range(crate_count)]; the matrix holds 64-bit integers,
    and [+= 1] wraps as they do. *)
Definition add_crate (_ : nat) (s : list (list Z) * G)
  : result (list (list Z) * G) :=
  let '(crates, g) := s in
  let* (i, g) := np_randint city_count g in
  let* (j, g) := np_randint city_count g in
  if bool_decide (i ≠ j) then
    let* x := get2 crates i j in
    let* crates := set2 crates i j (wrap64 (x + 1)) in
    Ok (crates, g)
  else Ok (crates, g).

(** One element of [[np.random.randint(city_count) for __ in
    range(plane_count)]]. *)
Definition add_plane (_ : nat) (s : list nat * G) : result (list nat * G) :=
  let '(planes, g) := s in
  let* (c, g) := np_randint city_count g in
  Ok (planes ++ [c], g).

Definition gen_crates_planes (g : G)
  : result (list (list Z) * list nat * G) :=
  let crates := replicate city_count (replicate city_count 0) in
  let* (crates, g) := for_each add_crate (seq 0 crate_count) (crates, g) in
  let* (planes, g) := for_each add_plane (seq 0 plane_count) ([], g) in
  Ok (crates, planes, g).

End Generator.

(** [np.sum(crates)]: the crates of the instance. *)
Definition total (crates : list (list Z)) : Z := zsum (zsum <$> crates).

Lemma zsum_pick (n i : nat) (k : Z) :
  (i < n)%nat →
  zsum ((λ c, if bool_decide (c = i) then k else 0) <$> seq 0 n) = k.
Proof.
  intros Hi.
  rewrite (EdgeBounds.zsum_ext _
             (λ c, k * if bool_decide (i = c) then 1 else 0)).
  - rewrite EdgeBounds.zsum_fmap_scale, EdgeBounds.zsum_indicator by done. lia.
  - intros c _. repeat case_bool_decide; subst; try lia; done.
Qed.

Lemma total_rows (n : nat) (m : list (list Z)) :
  length m = n → total m = zsum (EdgeBounds.row_sum m <$> seq 0 n).
Proof.
  intros Hlen. unfold total. by rewrite (EdgeBounds.rows_by_city zsum n).
Qed.

Lemma total_set2 (n : nat) (m m' : list (list Z)) (i j : nat) (x : Z) :
  shaped n m → shaped n m' → (i < n)%nat →
  set2 m i j x = Ok m' →
  total m' = total m + (x - entry m i j).
Proof.
  intros [Hlen _] [Hlen' _] Hi Hset.
  rewrite (total_rows n m'), (total_rows n m) by done.
  rewrite <- (zsum_pick n i (x - entry m i j)) by done.
  rewrite <- EdgeBounds.zsum_fmap_add. apply EdgeBounds.zsum_ext.
  intros c _. by apply EdgeBounds.set2_row_sum.
Qed.

Lemma total_zeros (n k : nat) : total (replicate k (replicate n 0)) = 0.
Proof.
  unfold total. induction k as [|k IH]; [done|].
  cbn [replicate]. rewrite fmap_cons, EdgeBounds.zsum_cons, IH.
  assert (zsum (replicate n 0) = 0) as ->; [|done].
  clear IH. induction n as [|n IH]; [done|].
  cbn [replicate]. rewrite EdgeBounds.zsum_cons. lia.
Qed.

Lemma entry_zeros (n i j : nat) : entry (replicate n (replicate n 0)) i j = 0.
Proof.
  unfold entry.
  destruct (replicate n (replicate n 0) !! i) as [row|] eqn:Hrow; [|done].
  apply lookup_replicate in Hrow as [-> _]. simpl.
  destruct (replicate n 0 !! j) as [x|] eqn:Hx; [|done].
  by apply lookup_replicate in Hx as [-> _].
Qed.

Section Spec.
Variable crate_count : nat.
Variable plane_count : nat.
Variable city_count : nat.
Variable G : Type.
Variable randint : G → nat → nat * G.
Hypothesis randint_lt : ∀ g n, (0 < n)%nat → ((randint g n).1 < n)%nat.
Hypothesis some_city : (0 < city_count)%nat.

(** The matrix after [k] rounds of the first loop. *)
Definition filled (k : nat) (crates : list (list Z)) : Prop :=
  shaped city_count crates ∧
  Forall (Forall (λ x, 0 ≤ x)) crates ∧
  (∀ i j, 0 ≤ entry crates i j ≤ Z.of_nat k) ∧
  (∀ i, entry crates i i = 0) ∧
  total crates ≤ Z.of_nat k.

Lemma add_crate_spec (k x : nat) (crates : list (list Z)) (g : G) :
  Z.of_nat k < 2 ^ 63 - 1 →
  filled k crates →
  ∃ crates' g', add_crate city_count G randint x (crates, g)
                = Ok (crates', g') ∧ filled (S k) crates'.
Proof.
  intros Hk (Hshape & Hnn & Hentry & Hdiag & Htotal).
  unfold add_crate, np_randint. rewrite !bool_decide_eq_true_2 by done.
  cbn [bind].
  pose proof (randint_lt g city_count some_city) as Hi.
  destruct (randint g city_count) as [i g1]. simpl in Hi.
  cbn [bind].
  pose proof (randint_lt g1 city_count some_city) as Hj.
  destruct (randint g1 city_count) as [j g2]. simpl in Hj.
  case_bool_decide as Hij.
  - rewrite (get2_shaped city_count) by done. cbn [bind].
    pose proof (Hentry i j) as Hx.
    rewrite wrap64_small by lia.
    destruct (set2_shaped city_count crates i j (entry crates i j + 1)
                Hshape Hi Hj) as (m' & Hset & Hshape' & Hentry' & _).
    rewrite Hset. cbn [bind]. exists m', g2. split; [done|].
    split; [done|]. split_and!.
    + apply EdgeBounds.set2_inv in Hset as (row & old & Hrow & Hold & ->).
      apply Forall_insert; [done|]. apply Forall_insert; [|lia].
      rewrite Forall_lookup in Hnn. by eapply Hnn.
    + intros i' j'. rewrite Hentry'. specialize (Hentry i' j').
      case_bool_decide; lia.
    + intros i'. rewrite Hentry'. rewrite bool_decide_eq_false_2; [done|].
      intros [-> ->]. by apply Hij.
    + rewrite (total_set2 city_count crates m' i j _ Hshape Hshape' Hi Hset).
      lia.
  - exists crates, g2. split; [done|]. split_and!; auto.
    + intros i' j'. specialize (Hentry i' j'). lia.
    + lia.
Qed.

Lemma add_crates_spec (n : nat) :
  ∀ (k lo : nat) (crates : list (list Z)) (g : G),
    Z.of_nat (k + n) < 2 ^ 63 →
    filled k crates →
    ∃ crates' g', for_each (add_crate city_count G randint) (seq lo n)
                    (crates, g) = Ok (crates', g') ∧
                  filled (k + n) crates'.
Proof.
  induction n as [|n IH]; intros k lo crates g Hk Hfilled.
  - exists crates, g. split; [done|]. by rewrite Nat.add_0_r.
  - cbn [seq for_each].
    destruct (add_crate_spec k lo crates g) as (m & g1 & -> & Hm);
      [lia|done|].
    cbn [bind]. destruct (IH (S k) (S lo) m g1) as (m' & g' & Hrest & Hm');
      [lia|done|].
    exists m', g'. split; [done|].
    by replace (k + S n)%nat with (S k + n)%nat by lia.
Qed.

Lemma add_planes_spec (n : nat) :
  ∀ (lo : nat) (planes : list nat) (g : G),
    Forall (λ c, (c < city_count)%nat) planes →
    ∃ planes' g', for_each (add_plane city_count G randint) (seq lo n)
                    (planes, g) = Ok (planes', g') ∧
                  length planes' = (length planes + n)%nat ∧
                  Forall (λ c, (c < city_count)%nat) planes'.
Proof.
  induction n as [|n IH]; intros lo planes g Hplanes.
  - exists planes, g. split_and!; auto.
  - cbn [seq for_each]. unfold add_plane at 1, np_randint.
    rewrite bool_decide_eq_true_2 by done. cbn [bind].
    pose proof (randint_lt g city_count some_city) as Hc.
    destruct (randint g city_count) as [c g1]. simpl in Hc. cbn [bind].
    destruct (IH (S lo) (planes ++ [c]) g1) as (planes' & g' & Hrest & Hlen & Hall).
    { apply Forall_app. split; [done|]. by apply Forall_singleton. }
    exists planes', g'. split_and!; auto.
    rewrite Hlen, length_app. simpl. lia.
Qed.

Lemma gen_crates_planes_spec (plane_cap : Z) (g : G) :
  0 < plane_cap →
  Z.of_nat crate_count < 2 ^ 63 →
  ∃ crates planes g',
    gen_crates_planes crate_count plane_count city_count G randint g
    = Ok (crates, planes, g') ∧
    well_formed plane_cap city_count crates ∧
    total crates ≤ Z.of_nat crate_count ∧
    length planes = plane_count ∧
    Forall (λ c, (c < city_count)%nat) planes.
Proof.
  intros Hcap Hcount. unfold gen_crates_planes.
  destruct (add_crates_spec crate_count 0 0
              (replicate city_count (replicate city_count 0)) g)
    as (crates & g1 & -> & Hshape & Hnn & Hentry & Hdiag & Htotal).
  { simpl. lia. }
  { split_and!.
    - split; [by rewrite length_replicate|].
      apply Forall_replicate. by rewrite length_replicate.
    - apply Forall_replicate, Forall_replicate. lia.
    - intros i j. rewrite entry_zeros. lia.
    - intros i. apply entry_zeros.
    - rewrite total_zeros. lia. }
  cbn [bind].
  destruct (add_planes_spec plane_count 0 [] g1 (Forall_nil_2 _))
    as (planes & g' & -> & Hlen & Hall).
  cbn [bind]. exists crates, planes, g'. split; [done|].
  split_and!; auto.
  split_and!; auto. apply Forall_forall. intros i _. apply Hdiag.
Qed.

End Spec.

(** Whatever the generator draws, [gen_crates_planes] returns an instance
    the planners accept: a [city_count] by [city_count] matrix of counts,
    none negative and none from a city to itself, of at most [crate_count]
    crates in all, and [plane_count] planes that start in cities below
    [city_count]. *)
Theorem gen_crates_planes_instance {G : Type} crate_count plane_count
    city_count (randint : G → nat → nat * G) plane_cap g :
  (∀ g n, (0 < n)%nat → ((randint g n).1 < n)%nat) →
  (0 < city_count)%nat →
  0 < plane_cap →
  Z.of_nat crate_count < 2 ^ 63 →
  ∃ crates planes g',
    gen_crates_planes crate_count plane_count city_count G randint g
    = Ok (crates, planes, g') ∧
    well_formed plane_cap city_count crates ∧
    total crates ≤ Z.of_nat crate_count ∧
    length planes = plane_count ∧
    Forall (λ c, (c < city_count)%nat) planes.
Proof.
  intros Hr Hcity Hcap Hcount.
  by apply gen_crates_planes_spec.
Qed.

Lemma example_counts : (0 < 4)%nat ∧ 0 < 30 ∧ Z.of_nat 40 < 2 ^ 63.
Proof. split_and!; lia. Qed.

Lemma gen_crates_planes_instance_witness :
  ∃ crates planes g',
    gen_crates_planes 40 2 4 N lcg 42%N = Ok (crates, planes, g') ∧
    well_formed 30 4 crates ∧
    total crates ≤ Z.of_nat 40 ∧
    length planes = 2%nat ∧
    Forall (λ c, (c < 4)%nat) planes.
Proof.
  exact (gen_crates_planes_instance 40 2 4 lcg 30 42%N lcg_lt
           (proj1 example_counts) (proj1 (proj2 example_counts))
           (proj2 (proj2 example_counts))).
Defined.

(** Without a city there is nothing to draw from: as soon as a crate or a
    plane is asked for, [np.random.randint(0)] raises [ValueError]. *)
Theorem gen_crates_planes_no_city {G : Type} crate_count plane_count
    (randint : G → nat → nat * G) g :
  (0 < crate_count ∨ 0 < plane_count)%nat →
  gen_crates_planes crate_count plane_count 0 G randint g = Raise ValueError.
Proof.
  intros Hsome. unfold gen_crates_planes.
  destruct crate_count as [|n]; [|done].
  destruct plane_count as [|n]; [lia|done].
Qed.

Lemma gen_crates_planes_no_city_witness :
  gen_crates_planes 0 2 0 N lcg 42%N = Raise ValueError.
Proof.
  exact (gen_crates_planes_no_city 0 2 lcg 42%N
           (or_intror (Nat.lt_0_succ 1))).
Defined.

(** The script's calls fit together: the instance that [gen_crates_planes]
    draws is one that [plan_edges] and [plan_planes] plan without raising,
    whatever the seed, when there is a city, a plane and a positive
    capacity. *)
Theorem gen_crates_planes_then_plan {G : Type} crate_count plane_count
    city_count iter_pairs iter_idx (randint : G → nat → nat * G) plane_cap g :
  (∀ X, iter_pairs X ≡ₚ elements X) →
  (∀ X, iter_idx X ≡ₚ elements X) →
  (∀ g n, (0 < n)%nat → ((randint g n).1 < n)%nat) →
  (0 < city_count)%nat →
  (0 < plane_count)%nat →
  0 < plane_cap →
  Z.of_nat crate_count < 2 ^ 63 →
  ∃ crates planes g' st fl,
    gen_crates_planes crate_count plane_count city_count G randint g
    = Ok (crates, planes, g') ∧
    plan plane_cap city_count iter_pairs iter_idx randint crates planes g'
    = Ok (st, fl) ∧
    (length (EdgePlanner.edges st) ≤ length fl)%nat.
Proof.
  intros Hp1 Hp2 Hr Hcity Hplanes Hcap Hcount.
  destruct (gen_crates_planes_spec crate_count plane_count city_count G
              randint Hr Hcity plane_cap g Hcap Hcount)
    as (crates & planes & g' & Hgen & Hwf & _ & Hlen & Hall).
  assert (Hne : planes ≠ []).
  { intros ->. simpl in Hlen. lia. }
  destruct (PlaneFacts.plan_output plane_cap city_count iter_pairs iter_idx
              randint Hp1 Hp2 Hr crates planes g' Hwf Hne Hall)
    as (st & fl & tr & Hplan & _ & _ & _ & _ & Hfl & _ & _ & _ & Hvis & _).
  exists crates, planes, g', st, fl. split_and!; auto.
  apply Forall2_length in Hfl. rewrite Hfl, (PlaneFacts.length_trace tr).
  apply Permutation_length in Hvis. rewrite length_seq in Hvis. lia.
Qed.

Lemma gen_crates_planes_then_plan_witness :
  ∃ crates planes g' st fl,
    gen_crates_planes 40 2 4 N lcg 42%N = Ok (crates, planes, g') ∧
    plan 30 4 elements elements lcg crates planes g' = Ok (st, fl) ∧
    (length (EdgePlanner.edges st) ≤ length fl)%nat.
Proof.
  exact (gen_crates_planes_then_plan 40 2 4 elements elements lcg 30 42%N
           EdgePlanner.elements_perm elements_idx_perm lcg_lt
           (proj1 example_counts) (Nat.lt_0_succ 1)
           (proj1 (proj2 example_counts)) (proj2 (proj2 example_counts))).
Defined.

End Generator.
